(** * Motion blur by temporal sub-frame accumulation

    A shallow embedding of the motion-blur subsystem of the renderer:
    - [MotionBlur.ts]: configuration resolution, sub-frame offsets and
      weights, adaptive sample counts;
    - [Stage.ts]: the accumulation buffer and the sub-frame render loop;
    - [PlaybackStatus.ts]: the sub-frame time offset and the conversions
      between frames and seconds;
    - [validation.ts]: the validator of render requests.

    A JavaScript [number] is the rational ([Q]) that a finite double
    denotes, and two numbers are "the same" when they are [Qeq]-equal.
    The four arithmetic operations round as IEEE 754 binary64 does: the
    exact result is rounded to 53 significant bits, to nearest, ties to
    even ([Js.add], [Js.sub], [Js.mul], [Js.div], written [⊕], [⊖], [⊗],
    [⊘]); a store into a [Float32Array] rounds to 24 bits.  Comparison,
    negation, halving, [Math.abs], [Math.min], [Math.max], [Math.round] and
    [Math.ceil] are exact on doubles and are computed exactly.  The
    exponent range is not bounded: overflow to an infinity and gradual
    underflow are outside the model, and so are [NaN], the infinities
    (hence division by zero) and the sign of zero, except in the request
    validator, whose values keep [NaN] and the infinities. *)

From Stdlib Require Import QArith Qround Qminmax Qabs Qpower Qreduction.
From Stdlib Require Import ZArith List Bool Lia Lqa String.
From Stdlib Require Import DecimalString.
From stdpp Require Import base list.
Import ListNotations.

Local Open Scope Q_scope.

(** ** The fragment of JavaScript the sources use *)

Module Js.

(** A JavaScript [number]. *)
Abbreviation number := Q.

(** [a ?? b]: the left operand unless it is [undefined]. *)
Definition nullish {A : Type} (o : option A) (d : A) : A :=
  match o with
  | Some a => a
  | None => d
  end.

(** Truthiness of an optional number: [undefined] and [0] are falsy. *)
Definition truthy_number (o : option number) : bool :=
  match o with
  | Some x => negb (Qeq_bool x 0)
  | None => false
  end.

(** [x === y] and [x < y] on numbers. *)
Definition strict_eq (x y : number) : bool := Qeq_bool x y.
Definition lt (x y : number) : bool := negb (Qle_bool y x).

(** *** Binary floating point *)

(** [2^e] *)
Definition pow2 (e : Z) : number := 2 ^ e.

(** For [x > 0], the exponent [k] with [2^k <= x < 2^(k+1)]. *)
Definition floor_log2 (x : number) : Z :=
  let k := (Z.log2 (Qnum x) - Z.log2 (Z.pos (Qden x)))%Z in
  if Qle_bool (pow2 k) x then k else (k - 1)%Z.

(** The nearest integer, ties to the even one. *)
Definition round_half_even (x : number) : Z :=
  let f := Qfloor x in
  match Qcompare (x - inject_Z f) (1 # 2) with
  | Lt => f
  | Gt => (f + 1)%Z
  | Eq => if Z.even f then f else (f + 1)%Z
  end.

(** [x] rounded to [precision] significant bits, to nearest, ties to even:
    with [e] the exponent of the last of these bits, the nearest multiple
    of [2^e]. *)
Definition round_to (precision : Z) (x : number) : number :=
  if Qeq_bool x 0 then 0
  else
    let e := (floor_log2 (Qabs x) - (precision - 1))%Z in
    Qred (inject_Z (round_half_even (x * pow2 (- e))) * pow2 e).

(** The double nearest to a real result. *)
Definition binary64 (x : Q) : number := round_to 53 x.

(** [Math.fround]: the single-precision number nearest to a double, which
    is what a [Float32Array] holds after a store. *)
Definition Math_fround (x : number) : number := round_to 24 x.

(** The relative error of rounding to nearest is at most [2^-53] for a
    double and [2^-24] for a single-precision number. *)
Definition unit_roundoff : Q := 1 # 9007199254740992.
Definition unit_roundoff32 : Q := 1 # 16777216.

(** A rational that is a double. *)
Definition is_double (x : Q) : Prop := binary64 x == x.

(** [x + y], [x - y], [x * y] and [x / y] on doubles.  Division by zero is
    outside the model (it gives an infinity or [NaN]). *)
Definition add (x y : number) : number := binary64 (x + y).
Definition sub (x y : number) : number := binary64 (x - y).
Definition mul (x y : number) : number := binary64 (x * y).
Definition div (x y : number) : number := binary64 (x / y).

(** [Math.round]: the nearest integer, halves going up. *)
Definition Math_round (x : number) : number := inject_Z (Qfloor (x + (1 # 2))).

Definition Math_max (x y : number) : number := Qmax x y.
Definition Math_min (x y : number) : number := Qmin x y.
Definition Math_abs (x : number) : number := Qabs x.

(** [Math.ceil] *)
Definition Math_ceil (x : number) : number := inject_Z (Qceiling x).

(** A number that is a mathematical integer. *)
Definition is_integer (x : number) : Prop := inject_Z (Qfloor x) == x.

Definition is_integerb (x : number) : bool := Qeq_bool (inject_Z (Qfloor x)) x.

(** [Array(n).fill(v)]: [n] copies of [v]; a [RangeError] ([None]) unless
    [n] is an integer with [0 <= n < 2^32]. *)
Definition Array_fill (n v : number) : option (list number) :=
  if is_integerb n && Qle_bool 0 n && lt n 4294967296
  then Some (repeat v (Z.to_nat (Qfloor n)))
  else None.

(** [ToUint8Clamp], the conversion applied by a store into a
    [Uint8ClampedArray]: clamp to [0, 255], round to nearest, ties to even. *)
Definition ToUint8Clamp (x : number) : Z :=
  if Qle_bool x 0 then 0%Z
  else if Qle_bool 255 x then 255%Z
  else
    let f := Qfloor x in
    if lt (inject_Z f + (1 # 2)) x then (f + 1)%Z
    else if lt x (inject_Z f + (1 # 2)) then f
    else if Z.even f then f else (f + 1)%Z.

End Js.

Notation "a ?? b" := (Js.nullish a b) (at level 45, left associativity).

Infix "⊕" := Js.add (at level 50, left associativity).
Infix "⊖" := Js.sub (at level 50, left associativity).
Infix "⊗" := Js.mul (at level 40, left associativity).
Infix "⊘" := Js.div (at level 40, left associativity).

(** ** MotionBlur.ts: types *)

Inductive ShutterCurve := box | triangle | gaussian.

(** ['end'] is written [end_]. *)
Inductive ShutterPosition := center | start | end_.

Inductive MotionBlurQuality := low | medium | high | ultra.

Definition QUALITY_SAMPLES (q : MotionBlurQuality) : Js.number :=
  match q with
  | low => 4
  | medium => 8
  | high => 16
  | ultra => 32
  end.

Record MotionBlurConfig := {
  enabled : bool;
  samples : Js.number;
  shutterAngle : Js.number;
  shutterCurve : ShutterCurve;
  shutterPosition : ShutterPosition;
  adaptiveSampling : bool;
  adaptiveMinSamples : Js.number;
  shutterPhase : Js.number
}.

Definition DEFAULT_MOTION_BLUR_CONFIG : MotionBlurConfig := {|
  enabled := false;
  samples := 8;
  shutterAngle := 180;
  shutterCurve := box;
  shutterPosition := center;
  adaptiveSampling := false;
  adaptiveMinSamples := 2;
  shutterPhase := -90
|}.

(** [MotionBlurOptions = Partial<MotionBlurConfig> & {quality?}]: every field
    may be absent. *)
Module Opt.

Record MotionBlurOptions := {
  enabled : option bool;
  samples : option Js.number;
  shutterAngle : option Js.number;
  shutterCurve : option ShutterCurve;
  shutterPosition : option ShutterPosition;
  adaptiveSampling : option bool;
  adaptiveMinSamples : option Js.number;
  shutterPhase : option Js.number;
  quality : option MotionBlurQuality
}.

(** The object literal [{}]. *)
Definition empty : MotionBlurOptions := {|
  enabled := None;
  samples := None;
  shutterAngle := None;
  shutterCurve := None;
  shutterPosition := None;
  adaptiveSampling := None;
  adaptiveMinSamples := None;
  shutterPhase := None;
  quality := None
|}.

End Opt.

(** A complete configuration passed where options are expected: every field
    is present and there is no [quality]. *)
Definition options_of_config (c : MotionBlurConfig) : Opt.MotionBlurOptions := {|
  Opt.enabled := Some (enabled c);
  Opt.samples := Some (samples c);
  Opt.shutterAngle := Some (shutterAngle c);
  Opt.shutterCurve := Some (shutterCurve c);
  Opt.shutterPosition := Some (shutterPosition c);
  Opt.adaptiveSampling := Some (adaptiveSampling c);
  Opt.adaptiveMinSamples := Some (adaptiveMinSamples c);
  Opt.shutterPhase := Some (shutterPhase c);
  Opt.quality := None
|}.

(** ** MotionBlur.ts: configuration resolution *)

Definition calculatePhaseFromPosition
    (position : ShutterPosition) (angle : Js.number) : Js.number :=
  match position with
  | center => - angle / 2
  | start => 0
  | end_ => - angle
  end.

Definition clampSamples (s : Js.number) : Js.number :=
  Js.Math_max 1 (Js.Math_min 64 (Js.Math_round s)).

Definition clampShutterAngle (angle : Js.number) : Js.number :=
  Js.Math_max 0 (Js.Math_min 720 angle).

Definition clampShutterPhase (phase : Js.number) : Js.number :=
  Js.Math_max (-360) (Js.Math_min 360 phase).

(** [let samples = options.samples ?? DEFAULT.samples;
     if (options.quality && !options.samples) samples = QUALITY_SAMPLES[...]] *)
Definition resolve_samples (options : Opt.MotionBlurOptions) : Js.number :=
  let samples0 := Opt.samples options ?? samples DEFAULT_MOTION_BLUR_CONFIG in
  match Opt.quality options with
  | Some q =>
      if negb (Js.truthy_number (Opt.samples options))
      then QUALITY_SAMPLES q
      else samples0
  | None => samples0
  end.

(** [let shutterPhase = options.shutterPhase ?? DEFAULT.shutterPhase;
     if (options.shutterPosition && !options.shutterPhase) { ... }] *)
Definition resolve_phase (options : Opt.MotionBlurOptions) : Js.number :=
  let phase0 :=
    Opt.shutterPhase options ?? shutterPhase DEFAULT_MOTION_BLUR_CONFIG in
  match Opt.shutterPosition options with
  | Some position =>
      if negb (Js.truthy_number (Opt.shutterPhase options))
      then
        let angle :=
          Opt.shutterAngle options ?? shutterAngle DEFAULT_MOTION_BLUR_CONFIG in
        calculatePhaseFromPosition position angle
      else phase0
  | None => phase0
  end.

Definition resolveMotionBlurConfig
    (options : option Opt.MotionBlurOptions) : MotionBlurConfig :=
  match options with
  | None => DEFAULT_MOTION_BLUR_CONFIG
  | Some options =>
      {| enabled :=
           Opt.enabled options ?? enabled DEFAULT_MOTION_BLUR_CONFIG;
         samples := clampSamples (resolve_samples options);
         shutterAngle :=
           clampShutterAngle
             (Opt.shutterAngle options
                ?? shutterAngle DEFAULT_MOTION_BLUR_CONFIG);
         shutterCurve :=
           Opt.shutterCurve options ?? shutterCurve DEFAULT_MOTION_BLUR_CONFIG;
         shutterPosition :=
           Opt.shutterPosition options
             ?? shutterPosition DEFAULT_MOTION_BLUR_CONFIG;
         adaptiveSampling :=
           Opt.adaptiveSampling options
             ?? adaptiveSampling DEFAULT_MOTION_BLUR_CONFIG;
         adaptiveMinSamples :=
           Js.Math_max 1
             (Opt.adaptiveMinSamples options
                ?? adaptiveMinSamples DEFAULT_MOTION_BLUR_CONFIG);
         shutterPhase := clampShutterPhase (resolve_phase options) |}
  end.

(** Two configurations agree field for field (numbers up to [Qeq]). *)
Definition config_eq (a b : MotionBlurConfig) : Prop :=
  enabled a = enabled b /\
  samples a == samples b /\
  shutterAngle a == shutterAngle b /\
  shutterCurve a = shutterCurve b /\
  shutterPosition a = shutterPosition b /\
  adaptiveSampling a = adaptiveSampling b /\
  adaptiveMinSamples a == adaptiveMinSamples b /\
  shutterPhase a == shutterPhase b.

(** ** MotionBlur.ts: the sub-frame sampling engine *)

(** [Math.exp] is the one library function the sources use whose result is
    not determined by rounding an exact rational; it is a parameter of the
    model. *)
Class MathLib := { Math_exp : Js.number -> Js.number }.

(** [for (let i = 0; i < bound; i++) out.push(body(i))], entered at index [i]
    with the array [out].  The guard is tested before every iteration;
    [fuel] caps the number of iterations. *)
Fixpoint push_loop (fuel : nat) (bound : Js.number)
    (body : Js.number -> Js.number) (i : Z) (out : list Js.number)
    : list Js.number :=
  match fuel with
  | O => out
  | S fuel' =>
      if Js.lt (inject_Z i) bound
      then push_loop fuel' bound body (i + 1)%Z (out ++ [body (inject_Z i)])
      else out
  end.

(** The number of iterations after which the guard [i < bound] has failed
    when the loop is entered at [i = 0]. *)
Definition loop_fuel (bound : Js.number) : nat := Z.to_nat (Qceiling bound).

Definition calculateSubframeOffsets
    (config : MotionBlurConfig) (frameDuration : Js.number)
    : list Js.number :=
  let samples := samples config in
  let shutterFraction := shutterAngle config ⊘ 360 in
  let exposureTime := frameDuration ⊗ shutterFraction in
  let phaseOffset := (shutterPhase config ⊘ 360) ⊗ frameDuration in
  push_loop (loop_fuel samples) samples
    (fun i =>
       let samplePosition :=
         if Js.strict_eq samples 1 then 1 # 2 else i ⊘ (samples ⊖ 1) in
       phaseOffset ⊕ samplePosition ⊗ exposureTime ⊖ exposureTime ⊘ 2)
    0%Z [].

Definition calculateBoxWeights (samples : Js.number)
    : option (list Js.number) :=
  Js.Array_fill samples 1.

Definition calculateTriangleWeights (samples : Js.number) : list Js.number :=
  let center := (samples ⊖ 1) ⊘ 2 in
  push_loop (loop_fuel samples) samples
    (fun i =>
       let distance := Js.Math_abs (i ⊖ center) ⊘ (samples ⊘ 2) in
       1 ⊖ distance)
    0%Z [].

Definition calculateGaussianWeights `{MathLib} (samples : Js.number)
    : list Js.number :=
  let center := (samples ⊖ 1) ⊘ 2 in
  let sigma := samples ⊘ 4 in
  push_loop (loop_fuel samples) samples
    (fun i =>
       let x := i ⊖ center in
       Math_exp (- (x ⊗ x) ⊘ (2 ⊗ sigma ⊗ sigma)))
    0%Z [].

(** [weights.reduce((a, b) => a + b, 0)] *)
Definition sum_weights (weights : list Js.number) : Js.number :=
  foldl (fun a b => a ⊕ b) 0 weights.

(** The sum of a list in exact arithmetic, which the code's sums are
    compared with. *)
Definition exact_sum (l : list Q) : Q := foldr Qplus 0 l.

(** [None] stands for the [RangeError] of [Array(samples)]. *)
Definition calculateSubframeWeights `{MathLib} (config : MotionBlurConfig)
    : option (list Js.number) :=
  let samples := samples config in
  let weights :=
    match shutterCurve config with
    | triangle => Some (calculateTriangleWeights samples)
    | gaussian => Some (calculateGaussianWeights samples)
    | box => calculateBoxWeights samples
    end in
  match weights with
  | Some weights =>
      let sum := sum_weights weights in
      Some (map (fun w => w ⊘ sum) weights)
  | None => None
  end.

(** [threshold] is an optional parameter with default [50].  With
    adaptive sampling and a threshold of zero the quotient
    [velocity / threshold] is an infinity or [NaN], depending on the sign
    of the velocity and of the zero, and the result depends on it; the
    model has no such numbers and gives no result ([None]) there. *)
Definition calculateAdaptiveSamples
    (config : MotionBlurConfig) (velocity : Js.number)
    (threshold : option Js.number) : option Js.number :=
  let threshold := threshold ?? 50 in
  if negb (adaptiveSampling config) then Some (samples config)
  else if Js.strict_eq threshold 0 then None
  else
    let scale := Js.Math_min 1 (velocity ⊘ threshold) in
    let adaptedSamples :=
      Js.Math_round
        (adaptiveMinSamples config
           ⊕ (samples config ⊖ adaptiveMinSamples config) ⊗ scale) in
    Some (Js.Math_max (adaptiveMinSamples config) adaptedSamples).

(** ** Stage.ts: collaborators *)

Inductive CanvasColorSpace := srgb | display_p3.

Definition CanvasColorSpace_eqb (a b : CanvasColorSpace) : bool :=
  match a, b with
  | srgb, srgb | display_p3, display_p3 => true
  | _, _ => false
  end.

(** Modelled from the spec: the [Vector2] class ('../types') is not among the
    sources.  The spec only uses the width and height of the canvas size
    ("width * height * 4"); the Stage further relies on the usual meaning of
    [Vector2.zero], [scale] and [exactlyEquals] (component-wise [===]). *)
Module Vector2.

Record t := { x : Js.number; y : Js.number }.

Definition zero : t := {| x := 0; y := 0 |}.
Definition width (v : t) : Js.number := x v.
Definition height (v : t) : Js.number := y v.

Definition scale (v : t) (k : Js.number) : t :=
  {| x := x v ⊗ k; y := y v ⊗ k |}.

Definition exactlyEquals (a b : t) : bool :=
  Js.strict_eq (x a) (x b) && Js.strict_eq (y a) (y b).

End Vector2.

(** The browser's canvas interface and the helpers of '../utils' and
    '../types' the Stage calls; the Stage is generic in them.  A [Context]
    value stands for a 2D rendering context together with the canvas it
    draws on ([context.canvas]); pixel data is an array of bytes. *)
Class CanvasApi := {
  Context : Type;
  Color : Type;
  (** [getContext({colorSpace}, canvas)] *)
  getContext : CanvasColorSpace -> Context -> Context;
  (** [context.canvas.width = w; context.canvas.height = h] *)
  setCanvasSize : Js.number -> Js.number -> Context -> Context;
  (** [context.getImageData(0, 0, w, h).data] *)
  getImageData : Context -> Js.number -> Js.number -> list Z;
  (** [context.createImageData(w, h).data] *)
  createImageData : Context -> Js.number -> Js.number -> list Z;
  (** [context.putImageData(imageData, 0, 0)] *)
  putImageData : list Z -> Context -> Context;
  (** [color.serialize()] *)
  serialize : Color -> string
}.

(** [background: Color | string | null] *)
Inductive Background `{CanvasApi} :=
| BgColor (c : Color)
| BgString (s : string)
| BgNull.

(** [Partial<StageSettings>] *)
Module Settings.

Record t `{CanvasApi} := {
  size : option Vector2.t;
  resolutionScale : option Js.number;
  colorSpace : option CanvasColorSpace;
  background : option Background;
  motionBlur : option Opt.MotionBlurOptions
}.

End Settings.

(** ** Stage.ts: the Stage *)

(** The fields of the class.  The three canvases [finalBuffer],
    [currentBuffer] and [previousBuffer] are held by their contexts
    [context], [currentContext] and [previousContext]. *)
Record Stage `{CanvasApi} := {
  background : option string;
  resolutionScale : Js.number;
  colorSpace : CanvasColorSpace;
  size : Vector2.t;
  motionBlurConfig : MotionBlurConfig;
  accumulationBuffer : option (list Js.number);
  accumulationSamples : Z;
  context : Context;
  currentContext : Context;
  previousContext : Context
}.

Section StageMethods.

Context `{CanvasApi}.

Definition canvasSize (this : Stage) : Vector2.t :=
  Vector2.scale (size this) (resolutionScale this).

(** Field updates. *)
Definition set_colorSpace (cs : CanvasColorSpace) (this : Stage) : Stage :=
  {| background := background this;
     resolutionScale := resolutionScale this;
     colorSpace := cs;
     size := size this;
     motionBlurConfig := motionBlurConfig this;
     accumulationBuffer := accumulationBuffer this;
     accumulationSamples := accumulationSamples this;
     context := context this;
     currentContext := currentContext this;
     previousContext := previousContext this |}.

Definition set_contexts (c cc pc : Context) (this : Stage) : Stage :=
  {| background := background this;
     resolutionScale := resolutionScale this;
     colorSpace := colorSpace this;
     size := size this;
     motionBlurConfig := motionBlurConfig this;
     accumulationBuffer := accumulationBuffer this;
     accumulationSamples := accumulationSamples this;
     context := c;
     currentContext := cc;
     previousContext := pc |}.

Definition set_dimensions (sz : Vector2.t) (scale : Js.number)
    (this : Stage) : Stage :=
  {| background := background this;
     resolutionScale := scale;
     colorSpace := colorSpace this;
     size := sz;
     motionBlurConfig := motionBlurConfig this;
     accumulationBuffer := accumulationBuffer this;
     accumulationSamples := accumulationSamples this;
     context := context this;
     currentContext := currentContext this;
     previousContext := previousContext this |}.

Definition set_background (bg : option string) (this : Stage) : Stage :=
  {| background := bg;
     resolutionScale := resolutionScale this;
     colorSpace := colorSpace this;
     size := size this;
     motionBlurConfig := motionBlurConfig this;
     accumulationBuffer := accumulationBuffer this;
     accumulationSamples := accumulationSamples this;
     context := context this;
     currentContext := currentContext this;
     previousContext := previousContext this |}.

Definition set_motionBlurConfig (c : MotionBlurConfig) (this : Stage)
    : Stage :=
  {| background := background this;
     resolutionScale := resolutionScale this;
     colorSpace := colorSpace this;
     size := size this;
     motionBlurConfig := c;
     accumulationBuffer := accumulationBuffer this;
     accumulationSamples := accumulationSamples this;
     context := context this;
     currentContext := currentContext this;
     previousContext := previousContext this |}.

Definition set_accumulationBuffer (b : option (list Js.number))
    (this : Stage) : Stage :=
  {| background := background this;
     resolutionScale := resolutionScale this;
     colorSpace := colorSpace this;
     size := size this;
     motionBlurConfig := motionBlurConfig this;
     accumulationBuffer := b;
     accumulationSamples := accumulationSamples this;
     context := context this;
     currentContext := currentContext this;
     previousContext := previousContext this |}.

Definition set_accumulationSamples (n : Z) (this : Stage) : Stage :=
  {| background := background this;
     resolutionScale := resolutionScale this;
     colorSpace := colorSpace this;
     size := size this;
     motionBlurConfig := motionBlurConfig this;
     accumulationBuffer := accumulationBuffer this;
     accumulationSamples := n;
     context := context this;
     currentContext := currentContext this;
     previousContext := previousContext this |}.

(** [resizeCanvas(context)], on the canvas of the given context. *)
Definition resizeCanvas (this : Stage) (ctx : Context) : Context :=
  let size := canvasSize this in
  setCanvasSize (Vector2.width size) (Vector2.height size) ctx.

Definition configure (settings : Settings.t) (this : Stage) : Stage :=
  (* destructuring with defaults taken from the current fields *)
  let colorSpace' := Settings.colorSpace settings ?? colorSpace this in
  let size' := Settings.size settings ?? size this in
  let resolutionScale' :=
    Settings.resolutionScale settings ?? resolutionScale this in
  let background' :=
    Settings.background settings
      ?? match background this with
         | Some s => BgString s
         | None => BgNull
         end in
  let motionBlur := Settings.motionBlur settings in
  let this :=
    if negb (CanvasColorSpace_eqb colorSpace' (colorSpace this))
    then
      set_contexts
        (getContext colorSpace' (context this))
        (getContext colorSpace' (currentContext this))
        (getContext colorSpace' (previousContext this))
        (set_colorSpace colorSpace' this)
    else this in
  let this :=
    if negb (Vector2.exactlyEquals size' (size this))
       || negb (Js.strict_eq resolutionScale' (resolutionScale this))
    then
      let this := set_dimensions size' resolutionScale' this in
      let this :=
        set_contexts
          (resizeCanvas this (context this))
          (resizeCanvas this (currentContext this))
          (resizeCanvas this (previousContext this))
          this in
      (* Reset accumulation buffer on resize *)
      set_accumulationBuffer None this
    else this in
  let this :=
    set_background
      match background' with
      | BgString s => Some s
      | BgColor c => Some (serialize c)
      | BgNull => None
      end
      this in
  match motionBlur with
  | Some motionBlur =>
      set_motionBlurConfig (resolveMotionBlurConfig (Some motionBlur)) this
  | None => this
  end.

End StageMethods.

(** [for (let i = 0; i < n; i++) body(i)] where [n] is the length of an
    array. *)
Definition for_index {S : Type} (n : nat) (body : nat -> S -> S) (s : S) : S :=
  foldl (fun s i => body i s) s (seq 0 n).

(** [new Float32Array(n)]: [n] zeros ([n] is truncated to an integer). *)
Definition Float32Array_new (n : Js.number) : list Js.number :=
  repeat 0 (Z.to_nat (Qfloor n)).

(** [xs[i]] for an index below [xs.length] (the only reads the sources make
    of a plain array). *)
Definition array_get (xs : list Js.number) (i : nat) : Js.number :=
  default 0 (xs !! i).

Section StageAccumulation.

Context `{CanvasApi}.

Definition beginMotionBlurAccumulation (this : Stage) : Stage :=
  let size := canvasSize this in
  let bufferSize := Vector2.width size ⊗ Vector2.height size ⊗ 4 in
  (* Create or reset accumulation buffer *)
  let buffer :=
    match accumulationBuffer this with
    | Some buffer =>
        if negb (Js.strict_eq (inject_Z (Z.of_nat (length buffer))) bufferSize)
        then Float32Array_new bufferSize
        else map (fun _ => 0) buffer
    | None => Float32Array_new bufferSize
    end in
  set_accumulationSamples 0 (set_accumulationBuffer (Some buffer) this).

(** [this.accumulationBuffer[i] += pixels[i] * weight]: the product and
    the sum are computed in double precision and the store into the
    [Float32Array] rounds the sum to single precision; a store outside a
    typed array is ignored, which is what [alter] does. *)
Definition accumulate_pixel (pixels : list Z) (weight : Js.number)
    (i : nat) (buffer : list Js.number) : list Js.number :=
  match pixels !! i with
  | Some p =>
      alter (fun a => Js.Math_fround (a ⊕ inject_Z p ⊗ weight)) i buffer
  | None => buffer
  end.

Definition accumulateMotionBlurSample (weight : Js.number) (this : Stage)
    : Stage :=
  match accumulationBuffer this with
  | None => this
  | Some buffer =>
      let size := canvasSize this in
      let pixels :=
        getImageData (context this)
          (Vector2.width size) (Vector2.height size) in
      (* Accumulate weighted pixel values *)
      let buffer :=
        for_index (length pixels) (accumulate_pixel pixels weight) buffer in
      set_accumulationSamples (accumulationSamples this + 1)
        (set_accumulationBuffer (Some buffer) this)
  end.

(** [pixels[i] = Math.round(Math.min(255, Math.max(0, buffer[i])))] on a
    [Uint8ClampedArray].  A read beyond the buffer gives [undefined], the
    arithmetic then gives [NaN], and a store of [NaN] writes [0]. *)
Definition finalize_pixel (buffer : list Js.number) (i : nat)
    (pixels : list Z) : list Z :=
  let value :=
    match buffer !! i with
    | Some a =>
        Js.ToUint8Clamp
          (Js.Math_round (Js.Math_min 255 (Js.Math_max 0 a)))
    | None => 0%Z
    end in
  <[ i := value ]> pixels.

Definition finalizeMotionBlur (this : Stage) : Stage :=
  match accumulationBuffer this with
  | None => this
  | Some buffer =>
      if (accumulationSamples this =? 0)%Z then this
      else
        let size := canvasSize this in
        let pixels :=
          createImageData (context this)
            (Vector2.width size) (Vector2.height size) in
        (* Convert accumulated values back to 8-bit pixels *)
        let pixels :=
          for_index (length pixels) (finalize_pixel buffer) pixels in
        (* Write the blurred result to the final buffer *)
        set_contexts
          (putImageData pixels (context this))
          (currentContext this) (previousContext this) this
  end.

(** *** The sub-frame loop

    [renderWithMotionBlur] is sequential code over the Stage and a
    caller-supplied callback that may change the Stage in any way.  It is
    written in a state monad whose state is the Stage together with a log
    of the calls [renderWithMotionBlur] makes, so that the order of the
    calls can be stated. *)

Inductive Call :=
| CallBegin
| CallRender (timeOffset : Js.number)
| CallAccumulate (weight : Js.number)
| CallFinalize.

Record World := { stage : Stage; calls : list Call }.

Definition M (A : Type) : Type := World -> A * World.

Definition ret {A : Type} (a : A) : M A := fun w => (a, w).

Definition bind {A B : Type} (m : M A) (k : A -> M B) : M B :=
  fun w => let (a, w') := m w in k a w'.

(** One call: it is logged, then it acts on the Stage. *)
Definition invoke (c : Call) (f : Stage -> Stage) : M unit :=
  fun w => (tt, {| stage := f (stage w); calls := calls w ++ [c] |}).

(** [for (let i = 0; i < n; i++) { await body(i) }] from index [i] for [n]
    iterations. *)
Fixpoint for_await (n : nat) (i : nat) (body : nat -> M unit) : M unit :=
  match n with
  | O => ret tt
  | S n' => bind (body i) (fun _ => for_await n' (S i) body)
  end.

Definition renderWithMotionBlur
    (renderCallback : Js.number -> Stage -> Stage)
    (subframeOffsets weights : list Js.number) : M unit :=
  if (length subframeOffsets =? 0)%nat
     || negb (length subframeOffsets =? length weights)%nat
  then ret tt
  else
    bind (invoke CallBegin beginMotionBlurAccumulation) (fun _ =>
    bind (for_await (length subframeOffsets) 0 (fun i =>
            (* Render subframe *)
            bind (invoke (CallRender (array_get subframeOffsets i))
                    (renderCallback (array_get subframeOffsets i))) (fun _ =>
            (* Accumulate this sample *)
            invoke (CallAccumulate (array_get weights i))
              (accumulateMotionBlurSample (array_get weights i))))) (fun _ =>
    invoke CallFinalize finalizeMotionBlur)).

End StageAccumulation.

(** ** Reference instances

    A canvas that is just its bytes, and a rational stand-in for [Math.exp]
    (positive and non-decreasing), used to run the model on examples. *)

Definition pixel_count (w h : Js.number) : nat :=
  Z.to_nat (Qfloor w * Qfloor h * 4).

#[local] Instance bytes_canvas : CanvasApi := {|
  Context := list Z;
  Color := string;
  getContext := fun _ c => c;
  setCanvasSize := fun w h _ => repeat 0%Z (pixel_count w h);
  getImageData := fun c w h => take (pixel_count w h) (c ++ repeat 0%Z (pixel_count w h));
  createImageData := fun _ w h => repeat 0%Z (pixel_count w h);
  putImageData := fun d c => d ++ drop (length d) c;
  serialize := fun s => s
|}.

Definition rational_exp (x : Js.number) : Js.number :=
  if Js.lt x 0 then 1 / (1 - x) else 1 + x.

#[local] Instance rational_math : MathLib := {| Math_exp := rational_exp |}.

(** ** Example inputs *)

(** [{quality: 'ultra', samples: 0}] *)
Definition opts_quality_ultra_samples_0 : Opt.MotionBlurOptions := {|
  Opt.enabled := None;
  Opt.samples := Some 0;
  Opt.shutterAngle := None;
  Opt.shutterCurve := None;
  Opt.shutterPosition := None;
  Opt.adaptiveSampling := None;
  Opt.adaptiveMinSamples := None;
  Opt.shutterPhase := None;
  Opt.quality := Some ultra
|}.

(** [{shutterPhase: 0}] *)
Definition opts_phase_0 : Opt.MotionBlurOptions := {|
  Opt.enabled := None;
  Opt.samples := None;
  Opt.shutterAngle := None;
  Opt.shutterCurve := None;
  Opt.shutterPosition := None;
  Opt.adaptiveSampling := None;
  Opt.adaptiveMinSamples := None;
  Opt.shutterPhase := Some 0;
  Opt.quality := None
|}.

(** [{shutterPhase: 0, shutterPosition: 'end'}] *)
Definition opts_phase_0_position_end : Opt.MotionBlurOptions := {|
  Opt.enabled := None;
  Opt.samples := None;
  Opt.shutterAngle := None;
  Opt.shutterCurve := None;
  Opt.shutterPosition := Some end_;
  Opt.adaptiveSampling := None;
  Opt.adaptiveMinSamples := None;
  Opt.shutterPhase := Some 0;
  Opt.quality := None
|}.



(** [{samples: 5, shutterCurve: curve, adaptiveSampling: true}] *)
Definition opts_samples_5 (curve : ShutterCurve) : Opt.MotionBlurOptions := {|
  Opt.enabled := Some true;
  Opt.samples := Some 5;
  Opt.shutterAngle := None;
  Opt.shutterCurve := Some curve;
  Opt.shutterPosition := None;
  Opt.adaptiveSampling := Some true;
  Opt.adaptiveMinSamples := None;
  Opt.shutterPhase := None;
  Opt.quality := None
|}.

(** A 1x1 Stage over [bytes_canvas] that shows one opaque black pixel and
    has no accumulation buffer yet. *)
Definition example_stage : @Stage bytes_canvas := {|
  background := None;
  resolutionScale := 1;
  colorSpace := srgb;
  size := {| Vector2.x := 1; Vector2.y := 1 |};
  motionBlurConfig := DEFAULT_MOTION_BLUR_CONFIG;
  accumulationBuffer := None;
  accumulationSamples := 0;
  context := [0; 0; 0; 255]%Z;
  currentContext := [0; 0; 0; 0]%Z;
  previousContext := [0; 0; 0; 0]%Z
|}.

(** The same Stage in the middle of an accumulation: two samples added. *)
Definition example_accumulating : @Stage bytes_canvas :=
  set_accumulationSamples 2
    (set_accumulationBuffer (Some [101 # 2; -3; 300; 255]) example_stage).

(** A render callback that paints the red channel with 100 times the time
    offset. *)
Definition example_callback (timeOffset : Js.number)
    (st : @Stage bytes_canvas) : @Stage bytes_canvas :=
  set_contexts [Js.ToUint8Clamp (100 * timeOffset); 0; 0; 255]%Z
    (currentContext st) (previousContext st) st.

(** [{colorSpace: 'display-p3', background: '#000', motionBlur: {shutterPhase: 0}}] *)
Definition settings_same_size : @Settings.t bytes_canvas := {|
  Settings.size := None;
  Settings.resolutionScale := Some 1;
  Settings.colorSpace := Some display_p3;
  Settings.background := Some (BgString "#000");
  Settings.motionBlur := Some opts_phase_0
|}.

(** [{size: new Vector2(2, 1)}] *)
Definition settings_resize : @Settings.t bytes_canvas := {|
  Settings.size := Some {| Vector2.x := 2; Vector2.y := 1 |};
  Settings.resolutionScale := None;
  Settings.colorSpace := None;
  Settings.background := None;
  Settings.motionBlur := None
|}.

(** ** Stage.ts: construction and the motion-blur configuration *)

(** [new Stage()].  The three canvases come from
    [document.createElement('canvas')]; they are given here by the contexts
    that stand for them. *)
Definition Stage_new `{CanvasApi}
    (finalBuffer currentBuffer previousBuffer : Context) : Stage := {|
  background := None;
  resolutionScale := 1;
  colorSpace := srgb;
  size := Vector2.zero;
  motionBlurConfig := DEFAULT_MOTION_BLUR_CONFIG;
  accumulationBuffer := None;
  accumulationSamples := 0;
  context := getContext srgb finalBuffer;
  currentContext := getContext srgb currentBuffer;
  previousContext := getContext srgb previousBuffer
|}.

Definition getMotionBlurConfig `{CanvasApi} (this : Stage) : MotionBlurConfig :=
  motionBlurConfig this.

(** The ranges a [MotionBlurConfig] is documented to lie in (samples 1-64,
    shutter angle 0-720, shutter phase -360 to 360), with the floor of 1 that
    the resolver puts under [adaptiveMinSamples]. *)
Definition config_in_range (c : MotionBlurConfig) : Prop :=
  Js.is_integer (samples c) /\ 1 <= samples c <= 64
  /\ 0 <= shutterAngle c <= 720
  /\ -360 <= shutterPhase c <= 360
  /\ 1 <= adaptiveMinSamples c.

(** The weighted sum of channel [i] over a sequence of frames (pixel data
    paired with a weight), added up in the order and in the way
    [accumulateMotionBlurSample] does: in double precision, kept in single
    precision after every frame. *)
Definition weighted_channel_sum (frames : list (list Z * Js.number)) (i : nat)
    : Js.number :=
  foldl
    (fun a fw =>
       Js.Math_fround (a ⊕ inject_Z (default 0%Z (fst fw !! i)) ⊗ snd fw))
    0 frames.

(** The weighted sum of channel [i] over the same frames in exact
    arithmetic, which the accumulated value is compared with. *)
Definition exact_channel_sum (frames : list (list Z * Js.number)) (i : nat)
    : Q :=
  exact_sum
    (map (fun fw => inject_Z (default 0%Z (fst fw !! i)) * snd fw) frames).
(** ** PlaybackStatus.ts *)

(** The part of [PlaybackManager] that [PlaybackStatus] reads.  The class is
    not among the sources; [State] stands for its [PlaybackState]. *)
Module PlaybackManager.

Record t {State : Type} := {
  frame : Js.number;
  fps : Js.number;
  speed : Js.number;
  state : State
}.

Arguments t : clear implicits.

End PlaybackManager.

Module PlaybackStatus.

Section Methods.

Context {State : Type}.

Record t := {
  playback : PlaybackManager.t State;
  subframeOffsetValue : Js.number
}.

(** [new PlaybackStatus(playback)] *)
Definition new (playback : PlaybackManager.t State) : t :=
  {| playback := playback; subframeOffsetValue := 0 |}.

Definition setSubframeOffset (offset : Js.number) (this : t) : t :=
  {| playback := playback this; subframeOffsetValue := offset |}.

Definition resetSubframeOffset (this : t) : t :=
  {| playback := playback this; subframeOffsetValue := 0 |}.

Definition subframeOffset (this : t) : Js.number := subframeOffsetValue this.

(** [Math.ceil(seconds * this.playback.fps)] *)
Definition secondsToFrames (this : t) (seconds : Js.number) : Js.number :=
  Js.Math_ceil (seconds ⊗ PlaybackManager.fps (playback this)).

Definition framesToSeconds (this : t) (frames : Js.number) : Js.number :=
  frames ⊘ PlaybackManager.fps (playback this).

Definition time (this : t) : Js.number :=
  framesToSeconds this (PlaybackManager.frame (playback this))
  ⊕ subframeOffsetValue this.

Definition frame (this : t) : Js.number :=
  PlaybackManager.frame (playback this).

Definition speed (this : t) : Js.number :=
  PlaybackManager.speed (playback this).

Definition fps (this : t) : Js.number := PlaybackManager.fps (playback this).

Definition state (this : t) : State := PlaybackManager.state (playback this).

Definition deltaTime (this : t) : Js.number :=
  framesToSeconds this 1 ⊗ speed this.

End Methods.

Arguments t : clear implicits.

End PlaybackStatus.

(** ** MotionBlur.ts: the description of a configuration *)

(** The conversion of a number to text in a template literal
    ([`${config.samples}`]); the decimal form JavaScript prints for a
    non-integer has no counterpart on rationals, so it is a parameter. *)
Class NumberFormat := { Number_toString : Js.number -> string }.

Definition ShutterCurve_toString (curve : ShutterCurve) : string :=
  match curve with
  | box => "box"
  | triangle => "triangle"
  | gaussian => "gaussian"
  end.

Definition ShutterPosition_toString (position : ShutterPosition) : string :=
  match position with
  | center => "center"
  | start => "start"
  | end_ => "end"
  end.

Definition ShutterCurve_eqb (a b : ShutterCurve) : bool :=
  match a, b with
  | box, box | triangle, triangle | gaussian, gaussian => true
  | _, _ => false
  end.

Definition ShutterPosition_eqb (a b : ShutterPosition) : bool :=
  match a, b with
  | center, center | start, start | end_, end_ => true
  | _, _ => false
  end.

(** [parts.filter(Boolean)] on an array of strings and [null]s: [null] and
    the empty string are dropped. *)
Fixpoint filter_Boolean (parts : list (option string)) : list string :=
  match parts with
  | [] => []
  | Some s :: parts' =>
      if String.eqb s "" then filter_Boolean parts'
      else s :: filter_Boolean parts'
  | None :: parts' => filter_Boolean parts'
  end.

Definition describeMotionBlurConfig `{NumberFormat} (config : MotionBlurConfig)
    : string :=
  if negb (enabled config) then "Motion blur disabled"%string
  else
    let parts :=
      filter_Boolean
        [ Some (Number_toString (samples config) ++ " samples")%string;
          Some (Number_toString (shutterAngle config) ++ "° shutter")%string;
          if negb (ShutterCurve_eqb (shutterCurve config) box)
          then Some (ShutterCurve_toString (shutterCurve config) ++ " curve")%string
          else None;
          if negb (ShutterPosition_eqb (shutterPosition config) center)
          then Some (ShutterPosition_toString (shutterPosition config)
                     ++ " position")%string
          else None;
          if adaptiveSampling config then Some "adaptive"%string else None ] in
    ("Motion blur: " ++ String.concat ", " parts)%string.

(** ** validation.ts: JavaScript values *)

(** A request body is an arbitrary JavaScript value.  Numbers here keep
    [NaN] and the infinities, which the validator tests for. *)
Module Value.

Inductive JsNumber :=
| Finite (q : Q)
| PosInfinity
| NegInfinity
| NaN.

(** An object is the list of its own properties, each key once. *)
#[local] Unset Elimination Schemes.
Inductive t :=
| VUndefined
| VNull
| VBoolean (b : bool)
| VNumber (n : JsNumber)
| VString (s : string)
| VArray (items : list t)
| VObject (props : list (string * t)).
#[local] Set Elimination Schemes.

(** The results of [typeof] that can arise for these values. *)
Inductive TypeOf :=
| type_undefined
| type_object
| type_boolean
| type_number
| type_string.

Definition typeof (v : t) : TypeOf :=
  match v with
  | VUndefined => type_undefined
  | VNull | VArray _ | VObject _ => type_object
  | VBoolean _ => type_boolean
  | VNumber _ => type_number
  | VString _ => type_string
  end.

Definition TypeOf_eqb (a b : TypeOf) : bool :=
  match a, b with
  | type_undefined, type_undefined
  | type_object, type_object
  | type_boolean, type_boolean
  | type_number, type_number
  | type_string, type_string => true
  | _, _ => false
  end.

(** Truthiness: [undefined], [null], [false], [0], [NaN] and [""] are
    falsy. *)
Definition truthy (v : t) : bool :=
  match v with
  | VUndefined | VNull => false
  | VBoolean b => b
  | VNumber (Finite q) => negb (Qeq_bool q 0)
  | VNumber NaN => false
  | VNumber _ => true
  | VString s => negb (String.eqb s "")
  | VArray _ | VObject _ => true
  end.

Definition is_undefined (v : t) : bool :=
  match v with
  | VUndefined => true
  | _ => false
  end.

Definition is_null (v : t) : bool :=
  match v with
  | VNull => true
  | _ => false
  end.

Fixpoint lookup_property (key : string) (props : list (string * t)) : t :=
  match props with
  | [] => VUndefined
  | (k, v) :: props' =>
      if String.eqb k key then v else lookup_property key props'
  end.

(** [v.key] for a key that is neither an index nor [length]: a property of
    an object, [undefined] on an array.  The validator only reads properties
    of values whose [typeof] is ['object'] and that are not [null]. *)
Definition get (v : t) (key : string) : t :=
  match v with
  | VObject props => lookup_property key props
  | _ => VUndefined
  end.

(** [a < b] and [a <= b]; every comparison with [NaN] is false. *)
Definition lt (a b : JsNumber) : bool :=
  match a, b with
  | NaN, _ | _, NaN => false
  | Finite x, Finite y => Js.lt x y
  | NegInfinity, NegInfinity => false
  | NegInfinity, _ => true
  | _, NegInfinity => false
  | PosInfinity, _ => false
  | Finite _, PosInfinity => true
  end.

Definition le (a b : JsNumber) : bool :=
  match a, b with
  | NaN, _ | _, NaN => false
  | Finite x, Finite y => Qle_bool x y
  | NegInfinity, _ => true
  | _, NegInfinity => false
  | _, PosInfinity => true
  | PosInfinity, _ => false
  end.

Definition Number_isInteger (v : t) : bool :=
  match v with
  | VNumber (Finite q) => Js.is_integerb q
  | _ => false
  end.

(** [isFinite(n)] for a number [n]. *)
Definition isFinite (n : JsNumber) : bool :=
  match n with
  | Finite _ => true
  | _ => false
  end.

(** [s.endsWith(suffix)] *)
Definition endsWith (s suffix : string) : bool :=
  (String.length suffix <=? String.length s)%nat
  && String.eqb
       (substring (String.length s - String.length suffix)
          (String.length suffix) s)
       suffix.

(** [list.includes(s)] on an array of strings. *)
Definition includes (list : list string) (s : string) : bool :=
  existsb (String.eqb s) list.

End Value.

(** ** validation.ts: the validator *)

(** [new URL(url).protocol], or [None] when the constructor throws. *)
Class UrlApi := { URL_protocol : string -> option string }.

Module Validation.

Import Value.

Record ValidationError := { field : string; message : string }.

Record ValidationResult := { valid : bool; errors : list ValidationError }.

Definition isValidUrl `{UrlApi} (url : string) : bool :=
  match URL_protocol url with
  | Some protocol =>
      String.eqb protocol "http:" || String.eqb protocol "https:"
  | None => false
  end.

Definition isValidOutFile (outFile : string) : bool :=
  endsWith outFile ".mp4" || endsWith outFile ".webm"
  || endsWith outFile ".mov".

Definition validExporters : list string :=
  ["@revideo/core/wasm"; "@revideo/core/ffmpeg";
   "@revideo/core/image-sequence"]%string.

Definition validFormats : list string := ["mp4"; "webm"; "proRes"]%string.

(** The exporter part of [validateProjectSettings]. *)
Definition validateExporter (exporter : t) : list ValidationError :=
  if negb (TypeOf_eqb (typeof exporter) type_object) || is_null exporter
  then
    [{| field := "settings.projectSettings.exporter";
        message := "exporter must be an object" |}]
  else
    let name := get exporter "name" in
    let options := get exporter "options" in
    (if negb (is_undefined name)
     then
       if match name with
          | VString s => negb (includes validExporters s)
          | _ => true
          end
       then
         [{| field := "settings.projectSettings.exporter.name";
             message :=
               "exporter.name must be one of: "
               ++ String.concat ", " validExporters |}]
       else []
     else [])
    ++
    (if negb (is_undefined options)
     then
       if negb (TypeOf_eqb (typeof options) type_object) || is_null options
       then
         [{| field := "settings.projectSettings.exporter.options";
             message := "exporter.options must be an object" |}]
       else
         let format := get options "format" in
         if negb (is_undefined format)
         then
           if match format with
              | VString s => negb (includes validFormats s)
              | _ => true
              end
           then
             [{| field := "settings.projectSettings.exporter.options.format";
                 message :=
                   "format must be one of: "
                   ++ String.concat ", " validFormats |}]
           else []
         else []
     else []).

(** The size part of [validateProjectSettings]. *)
Definition validateSize (size : t) : list ValidationError :=
  if negb (TypeOf_eqb (typeof size) type_object) || is_null size
  then
    [{| field := "settings.projectSettings.size";
        message := "size must be an object with x and y properties" |}]
  else
    (if match get size "x" with
        | VNumber x => le x (Finite 0)
        | _ => true
        end
     then
       [{| field := "settings.projectSettings.size.x";
           message := "size.x must be a positive number" |}]
     else [])
    ++
    (if match get size "y" with
        | VNumber y => le y (Finite 0)
        | _ => true
        end
     then
       [{| field := "settings.projectSettings.size.y";
           message := "size.y must be a positive number" |}]
     else []).

(** The range part of [validateProjectSettings]; [first] and [second] are
    the [start] and [end] that the array is destructured into. *)
Definition validateRange (range : t) : list ValidationError :=
  match range with
  | VArray [first; second] =>
      (if match first with
          | VNumber s => lt s (Finite 0)
          | _ => true
          end
       then
         [{| field := "settings.projectSettings.range[0]";
             message := "range start must be a non-negative number" |}]
       else [])
      ++
      match second with
      | VNumber e =>
          if isFinite e
             && match first with
                | VNumber s => lt e s
                | _ => false
                end
          then
            [{| field := "settings.projectSettings.range";
                message :=
                  "range end must be greater than or equal to start" |}]
          else []
      | _ =>
          [{| field := "settings.projectSettings.range[1]";
              message := "range end must be a number" |}]
      end
  | _ =>
      [{| field := "settings.projectSettings.range";
          message := "range must be an array of two numbers [start, end]" |}]
  end.

Definition validateProjectSettings (projectSettings : t)
    : list ValidationError :=
  if negb (TypeOf_eqb (typeof projectSettings) type_object)
     || is_null projectSettings
  then
    [{| field := "settings.projectSettings";
        message := "projectSettings must be an object" |}]
  else
    let ps := projectSettings in
    (if negb (is_undefined (get ps "exporter"))
     then validateExporter (get ps "exporter")
     else [])
    ++
    (if negb (is_undefined (get ps "background"))
        && negb (TypeOf_eqb (typeof (get ps "background")) type_string)
     then
       [{| field := "settings.projectSettings.background";
           message := "background must be a string (color value)" |}]
     else [])
    ++
    (if negb (is_undefined (get ps "size"))
     then validateSize (get ps "size")
     else [])
    ++
    (if negb (is_undefined (get ps "range"))
     then validateRange (get ps "range")
     else []).

(** The check that [validateSettings] makes, in the same words, of
    [workers] and of [viteBasePort]: an integer within [lo, hi]. *)
Definition validateIntegerInRange
    (value : t) (lo hi : Q) (field integerMessage rangeMessage : string)
    : list ValidationError :=
  if negb (is_undefined value)
  then
    if negb (TypeOf_eqb (typeof value) type_number)
       || negb (Number_isInteger value)
    then [{| field := field; message := integerMessage |}]
    else
      if match value with
         | VNumber n => lt n (Finite lo) || lt (Finite hi) n
         | _ => false
         end
      then [{| field := field; message := rangeMessage |}]
      else []
  else [].

Definition validateSettings (settings : t) : list ValidationError :=
  if negb (TypeOf_eqb (typeof settings) type_object) || is_null settings
  then [{| field := "settings"; message := "settings must be an object" |}]
  else
    let s := settings in
    (if negb (is_undefined (get s "outFile"))
     then
       match get s "outFile" with
       | VString outFile =>
           if negb (isValidOutFile outFile)
           then
             [{| field := "settings.outFile";
                 message := "outFile must end with .mp4, .webm, or .mov" |}]
           else []
       | _ =>
           [{| field := "settings.outFile";
               message := "outFile must be a string" |}]
       end
     else [])
    ++
    (if negb (is_undefined (get s "outDir"))
        && negb (TypeOf_eqb (typeof (get s "outDir")) type_string)
     then
       [{| field := "settings.outDir"; message := "outDir must be a string" |}]
     else [])
    ++
    validateIntegerInRange (get s "workers") 1 32 "settings.workers"
      "workers must be an integer" "workers must be between 1 and 32"
    ++
    (if negb (is_undefined (get s "logProgress"))
        && negb (TypeOf_eqb (typeof (get s "logProgress")) type_boolean)
     then
       [{| field := "settings.logProgress";
           message := "logProgress must be a boolean" |}]
     else [])
    ++
    validateIntegerInRange (get s "viteBasePort") 1 65535
      "settings.viteBasePort" "viteBasePort must be an integer"
      "viteBasePort must be a valid port number (1-65535)"
    ++
    (if negb (is_undefined (get s "projectSettings"))
     then validateProjectSettings (get s "projectSettings")
     else []).

(** [validateRenderRequest(req)], given [req.body]. *)
Definition validateRenderRequest `{UrlApi} (body : t) : ValidationResult :=
  if negb (truthy body) || negb (TypeOf_eqb (typeof body) type_object)
  then
    {| valid := false;
       errors :=
         [{| field := "body";
             message := "Request body must be a JSON object" |}] |}
  else
    let callbackUrl := get body "callbackUrl" in
    let variables := get body "variables" in
    let settings := get body "settings" in
    let streamProgress := get body "streamProgress" in
    let errors :=
      (if negb (is_undefined callbackUrl)
       then
         match callbackUrl with
         | VString url =>
             if negb (isValidUrl url)
             then
               [{| field := "callbackUrl";
                   message := "callbackUrl must be a valid URL" |}]
             else []
         | _ =>
             [{| field := "callbackUrl";
                 message := "callbackUrl must be a string" |}]
         end
       else [])
      ++
      (if negb (is_undefined variables)
       then
         if negb (TypeOf_eqb (typeof variables) type_object)
            || is_null variables
         then
           [{| field := "variables";
               message := "variables must be an object" |}]
         else []
       else [])
      ++
      (if negb (is_undefined streamProgress)
          && negb (TypeOf_eqb (typeof streamProgress) type_boolean)
       then
         [{| field := "streamProgress";
             message := "streamProgress must be a boolean" |}]
       else [])
      ++
      (if negb (is_undefined settings)
       then validateSettings settings
       else []) in
    {| valid := (length errors =? 0)%nat; errors := errors |}.

End Validation.

(** Every field an error can be reported on, in the order in which
    [validateRenderRequest] reports them. *)
Definition validation_fields : list string :=
  [ "body"; "callbackUrl"; "variables"; "streamProgress";
    "settings"; "settings.outFile"; "settings.outDir"; "settings.workers";
    "settings.logProgress"; "settings.viteBasePort";
    "settings.projectSettings";
    "settings.projectSettings.exporter";
    "settings.projectSettings.exporter.name";
    "settings.projectSettings.exporter.options";
    "settings.projectSettings.exporter.options.format";
    "settings.projectSettings.background";
    "settings.projectSettings.size";
    "settings.projectSettings.size.x";
    "settings.projectSettings.size.y";
    "settings.projectSettings.range[0]";
    "settings.projectSettings.range[1]";
    "settings.projectSettings.range" ]%string.

(** ** More reference instances and example inputs *)


(** A playback at frame 48 of a 24 fps project. *)
Definition example_playback : PlaybackStatus.t unit :=
  PlaybackStatus.new
    {| PlaybackManager.frame := 48;
       PlaybackManager.fps := 24;
       PlaybackManager.speed := 1;
       PlaybackManager.state := tt |}.

(** A stand-in for the URL parser that only looks at the scheme. *)
#[local] Instance scheme_urls : UrlApi := {|
  URL_protocol := fun url =>
    if String.prefix "http://" url then Some "http:"%string
    else if String.prefix "https://" url then Some "https:"%string
    else if String.prefix "ftp://" url then Some "ftp:"%string
    else None
|}.

(** Numbers printed as whole decimal numbers (the fraction is dropped):
    right for the integers of a resolved configuration. *)
#[local] Instance whole_number_format : NumberFormat := {|
  Number_toString := fun q => NilZero.string_of_int (Z.to_int (Qfloor q))
|}.

(** [{callbackUrl: 'https://example.com/callback', streamProgress: true,
      settings: {outFile: 'video.mp4', workers: 4, viteBasePort: 9000,
        projectSettings: {exporter: {name: '@revideo/core/ffmpeg'},
          size: {x: 1920, y: 1080}, range: [0, Infinity]}}}] *)
Definition example_request : Value.t :=
  Value.VObject
    [ ("callbackUrl", Value.VString "https://example.com/callback");
      ("streamProgress", Value.VBoolean true);
      ("settings",
       Value.VObject
         [ ("outFile", Value.VString "video.mp4");
           ("workers", Value.VNumber (Value.Finite 4));
           ("viteBasePort", Value.VNumber (Value.Finite 9000));
           ("projectSettings",
            Value.VObject
              [ ("exporter",
                 Value.VObject
                   [("name", Value.VString "@revideo/core/ffmpeg")]);
                ("size",
                 Value.VObject
                   [ ("x", Value.VNumber (Value.Finite 1920));
                     ("y", Value.VNumber (Value.Finite 1080)) ]);
                ("range",
                 Value.VArray
                   [ Value.VNumber (Value.Finite 0);
                     Value.VNumber Value.PosInfinity ]) ]) ]) ]%string.

(** [{callbackUrl: 123, settings: {workers: 2.5, outFile: 'video.avi',
      projectSettings: {size: {x: -1}, range: [5, 1]}}}] *)
Definition example_bad_request : Value.t :=
  Value.VObject
    [ ("callbackUrl", Value.VNumber (Value.Finite 123));
      ("settings",
       Value.VObject
         [ ("workers", Value.VNumber (Value.Finite (5 # 2)));
           ("outFile", Value.VString "video.avi");
           ("projectSettings",
            Value.VObject
              [ ("size",
                 Value.VObject [("x", Value.VNumber (Value.Finite (-1)))]);
                ("range",
                 Value.VArray
                   [ Value.VNumber (Value.Finite 5);
                     Value.VNumber (Value.Finite 1) ]) ]) ]) ]%string.

(** A complete configuration that did not go through the resolver:
    [{...DEFAULT_MOTION_BLUR_CONFIG, enabled: true, samples, shutterCurve}]. *)
Definition config_unresolved (samples : Js.number) (curve : ShutterCurve)
    : MotionBlurConfig := {|
  enabled := true;
  samples := samples;
  shutterAngle := 180;
  shutterCurve := curve;
  shutterPosition := center;
  adaptiveSampling := false;
  adaptiveMinSamples := 2;
  shutterPhase := -90
|}.






(** [{samples: 26, adaptiveSampling: true, adaptiveMinSamples: 1}] *)
Definition opts_samples_26_adaptive_min_1 : Opt.MotionBlurOptions := {|
  Opt.enabled := None;
  Opt.samples := Some 26;
  Opt.shutterAngle := None;
  Opt.shutterCurve := None;
  Opt.shutterPosition := None;
  Opt.adaptiveSampling := Some true;
  Opt.adaptiveMinSamples := Some 1;
  Opt.shutterPhase := None;
  Opt.quality := None
|}.

(** [{samples: 4, shutterAngle: 270, shutterPosition: 'center'}] *)
Definition opts_angle_270_center : Opt.MotionBlurOptions := {|
  Opt.enabled := None;
  Opt.samples := Some 4;
  Opt.shutterAngle := Some 270;
  Opt.shutterCurve := None;
  Opt.shutterPosition := Some center;
  Opt.adaptiveSampling := None;
  Opt.adaptiveMinSamples := None;
  Opt.shutterPhase := None;
  Opt.quality := None
|}.

(** * Properties *)

(** ** Numbers *)

Ltac q_minmax :=
  unfold Js.Math_max, Js.Math_min in *;
  repeat match goal with
  | |- context [Qmax ?a ?b] =>
      let m := fresh "m" in
      pose proof (Q.max_spec a b); set (m := Qmax a b) in *; clearbody m
  | |- context [Qmin ?a ?b] =>
      let m := fresh "m" in
      pose proof (Q.min_spec a b); set (m := Qmin a b) in *; clearbody m
  | _ : context [Qmax ?a ?b] |- _ =>
      let m := fresh "m" in
      pose proof (Q.max_spec a b); set (m := Qmax a b) in *; clearbody m
  | _ : context [Qmin ?a ?b] |- _ =>
      let m := fresh "m" in
      pose proof (Q.min_spec a b); set (m := Qmin a b) in *; clearbody m
  end.

Lemma Qfloor_unique (x : Q) (z : Z) :
  inject_Z z <= x -> x < inject_Z (z + 1) -> Qfloor x = z.
Proof.
  intros Hlo Hhi.
  pose proof (Qfloor_le x) as Hf.
  pose proof (Qlt_floor x) as Hc.
  assert (inject_Z z < inject_Z (Qfloor x + 1)) as H1 by lra.
  assert (inject_Z (Qfloor x) < inject_Z (z + 1)) as H2 by lra.
  rewrite <- Zlt_Qlt in H1, H2. lia.
Qed.

Lemma Math_round_inject_Z (z : Z) : Js.Math_round (inject_Z z) = inject_Z z.
Proof.
  unfold Js.Math_round. f_equal. apply Qfloor_unique.
  - lra.
  - rewrite inject_Z_plus. change (inject_Z 1) with 1. lra.
Qed.

#[local] Instance Math_round_Proper : Proper (Qeq ==> Qeq) Js.Math_round.
Proof.
  intros x y Hxy. unfold Js.Math_round.
  assert (x + (1 # 2) == y + (1 # 2)) as E by lra.
  now rewrite (Qfloor_comp _ _ E).
Qed.

#[local] Instance is_integer_Proper : Proper (Qeq ==> iff) Js.is_integer.
Proof.
  intros x y Hxy. unfold Js.is_integer.
  rewrite (Qfloor_comp _ _ Hxy). now rewrite Hxy.
Qed.

Lemma is_integer_inject_Z (z : Z) : Js.is_integer (inject_Z z).
Proof. unfold Js.is_integer. now rewrite Qfloor_Z. Qed.

Lemma is_integer_exists (x : Q) : Js.is_integer x <-> exists z, x == inject_Z z.
Proof.
  split.
  - intros Hx. exists (Qfloor x). symmetry. exact Hx.
  - intros [z Hz]. rewrite Hz. apply is_integer_inject_Z.
Qed.

Lemma is_integer_max (x y : Q) :
  Js.is_integer x -> Js.is_integer y -> Js.is_integer (Js.Math_max x y).
Proof.
  intros Hx Hy. unfold Js.Math_max.
  destruct (Q.max_spec x y) as [[_ E] | [_ E]]; now rewrite E.
Qed.

Lemma is_integer_min (x y : Q) :
  Js.is_integer x -> Js.is_integer y -> Js.is_integer (Js.Math_min x y).
Proof.
  intros Hx Hy. unfold Js.Math_min.
  destruct (Q.min_spec x y) as [[_ E] | [_ E]]; now rewrite E.
Qed.

Lemma Math_round_is_integer (x : Q) : Js.is_integer (Js.Math_round x).
Proof. apply is_integer_inject_Z. Qed.

Lemma Math_round_integer (x : Q) : Js.is_integer x -> Js.Math_round x == x.
Proof.
  unfold Js.is_integer. intros Hx. rewrite <- Hx at 1.
  rewrite Math_round_inject_Z. exact Hx.
Qed.

Lemma Math_round_le (x y : Q) : x <= y -> Js.Math_round x <= Js.Math_round y.
Proof.
  intros Hxy. unfold Js.Math_round. rewrite <- Zle_Qle.
  apply Qfloor_resp_le. lra.
Qed.

Lemma truthy_number_Some (x : Q) :
  Js.truthy_number (Some x) = true <-> ~ x == 0.
Proof.
  unfold Js.truthy_number. rewrite negb_true_iff. split.
  - intros Hb. now apply Qeq_bool_neq.
  - intros Hx. destruct (Qeq_bool x 0) eqn:E; [|reflexivity].
    apply Qeq_bool_eq in E. contradiction.
Qed.

Lemma truthy_number_Some_false (x : Q) :
  Js.truthy_number (Some x) = false <-> x == 0.
Proof.
  unfold Js.truthy_number. rewrite negb_false_iff. apply Qeq_bool_iff.
Qed.

(** ** Binary floating point *)

(** *** Powers of two *)

Lemma pow2_pos (e : Z) : 0 < Js.pow2 e.
Proof. apply Qpower_0_lt. reflexivity. Qed.

Lemma pow2_plus (a b : Z) : Js.pow2 (a + b) == Js.pow2 a * Js.pow2 b.
Proof. apply Qpower_plus. discriminate. Qed.

Lemma pow2_opp (a : Z) : Js.pow2 (- a) == / Js.pow2 a.
Proof. apply Qpower_opp. Qed.

Lemma pow2_cancel (a : Z) : Js.pow2 a * Js.pow2 (- a) == 1.
Proof.
  rewrite <- pow2_plus. replace (a + - a)%Z with 0%Z by lia. reflexivity.
Qed.

Lemma pow2_le (a b : Z) : (a <= b)%Z -> Js.pow2 a <= Js.pow2 b.
Proof. intros H. apply Qpower_le_compat_l; [exact H | discriminate]. Qed.


Lemma pow2_inject (a : Z) : (0 <= a)%Z -> Js.pow2 a == inject_Z (2 ^ a).
Proof. intros H. unfold Js.pow2. now rewrite Zpower_Qpower. Qed.

Lemma pow2_succ (a : Z) : Js.pow2 (a + 1) == 2 * Js.pow2 a.
Proof. rewrite pow2_plus. change (Js.pow2 1) with 2. ring. Qed.

(** *** The exponent of a number *)

Lemma Qmake_inject (n : Z) (d : positive) :
  n # d == inject_Z n / inject_Z (Z.pos d).
Proof. apply Qmake_Qdiv. Qed.

Lemma floor_log2_spec (x : Q) :
  0 < x -> Js.pow2 (Js.floor_log2 x) <= x < Js.pow2 (Js.floor_log2 x + 1).
Proof.
  intros Hx. unfold Js.floor_log2.
  destruct x as [n d]. cbn [Qnum Qden].
  assert (0 < n)%Z as Hn by (unfold Qlt in Hx; cbn in Hx; lia).
  set (a := Z.log2 n). set (b := Z.log2 (Z.pos d)).
  destruct (Z.log2_spec n Hn) as [Ha1 Ha2]. fold a in Ha1, Ha2.
  destruct (Z.log2_spec (Z.pos d) (Pos2Z.is_pos d)) as [Hb1 Hb2].
  fold b in Hb1, Hb2.
  assert (0 <= a)%Z as Ha0 by apply Z.log2_nonneg.
  assert (0 <= b)%Z as Hb0 by apply Z.log2_nonneg.
  assert (Js.pow2 (a - b - 1) < n # d < Js.pow2 (a - b + 1)) as [Hlo Hhi].
  { assert (Js.pow2 (a - b - 1) == inject_Z (2 ^ a) / inject_Z (2 ^ (b + 1))) as ->.
    { rewrite <- !pow2_inject by lia. unfold Qdiv. rewrite <- pow2_opp, <- pow2_plus.
      replace (a + - (b + 1))%Z with (a - b - 1)%Z by lia. reflexivity. }
    assert (Js.pow2 (a - b + 1) == inject_Z (2 ^ (a + 1)) / inject_Z (2 ^ b)) as ->.
    { rewrite <- !pow2_inject by lia. unfold Qdiv. rewrite <- pow2_opp, <- pow2_plus.
      replace (a + 1 + - b)%Z with (a - b + 1)%Z by lia. reflexivity. }
    unfold Qdiv, Qlt, Qinv, Qmult, inject_Z. cbn [Qnum Qden].
    assert (0 < 2 ^ b)%Z by lia. assert (0 < 2 ^ (b + 1))%Z by lia.
    destruct (2 ^ b)%Z as [|pb|pb] eqn:Eb; try lia.
    destruct (2 ^ (b + 1))%Z as [|pb1|pb1] eqn:Eb1; try lia.
    cbn [Qnum Qden]. rewrite !Z.mul_1_r, !Pos.mul_1_l. split; nia. }
  destruct (Qle_bool (Js.pow2 (a - b)) (n # d)) eqn:E.
  - apply Qle_bool_iff in E. split; [exact E | exact Hhi].
  - assert (n # d < Js.pow2 (a - b)) as Hlt.
    { apply Qnot_le_lt. intros H. apply Qle_bool_iff in H. congruence. }
    split.
    + apply Qlt_le_weak. exact Hlo.
    + replace (a - b - 1 + 1)%Z with (a - b)%Z by lia. exact Hlt.
Qed.

Lemma floor_log2_unique (x : Q) (k : Z) :
  Js.pow2 k <= x < Js.pow2 (k + 1) -> Js.floor_log2 x = k.
Proof.
  intros [Hlo Hhi].
  assert (0 < x) as Hx by (eapply Qlt_le_trans; [apply (pow2_pos k) | exact Hlo]).
  destruct (floor_log2_spec x Hx) as [Hlo' Hhi'].
  destruct (Z.lt_trichotomy (Js.floor_log2 x) k) as [Hlt | [Heq | Hgt]];
    [exfalso | exact Heq | exfalso].
  - assert (Js.pow2 (Js.floor_log2 x + 1) <= Js.pow2 k) by (apply pow2_le; lia). lra.
  - assert (Js.pow2 (k + 1) <= Js.pow2 (Js.floor_log2 x)) by (apply pow2_le; lia). lra.
Qed.

Lemma floor_log2_comp (x y : Q) : 0 < x -> x == y -> Js.floor_log2 x = Js.floor_log2 y.
Proof.
  intros Hx E. symmetry. apply floor_log2_unique. rewrite <- E.
  now apply floor_log2_spec.
Qed.

Lemma floor_log2_le (x y : Q) : 0 < x -> x <= y -> (Js.floor_log2 x <= Js.floor_log2 y)%Z.
Proof.
  intros Hx Hxy.
  destruct (floor_log2_spec x Hx) as [Hlo _].
  destruct (floor_log2_spec y) as [_ Hhi]; [lra|].
  destruct (Z.le_gt_cases (Js.floor_log2 x) (Js.floor_log2 y)) as [H | H]; [exact H|].
  exfalso. assert (Js.pow2 (Js.floor_log2 y + 1) <= Js.pow2 (Js.floor_log2 x)) by (apply pow2_le; lia).
  lra.
Qed.

Lemma floor_log2_scale (x : Q) (k : Z) :
  0 < x -> Js.floor_log2 (x * Js.pow2 k) = (Js.floor_log2 x + k)%Z.
Proof.
  intros Hx. apply floor_log2_unique.
  destruct (floor_log2_spec x Hx) as [Hlo Hhi].
  replace (Js.floor_log2 x + k + 1)%Z with (Js.floor_log2 x + 1 + k)%Z by lia.
  rewrite (pow2_plus (Js.floor_log2 x) k), (pow2_plus (Js.floor_log2 x + 1) k).
  pose proof (pow2_pos k). split.
  - apply Qmult_le_compat_r; lra.
  - apply Qmult_lt_compat_r; lra.
Qed.

(** *** Rounding to the nearest integer, ties to even *)

Lemma round_half_even_comp (x y : Q) :
  x == y -> Js.round_half_even x = Js.round_half_even y.
Proof.
  intros E. unfold Js.round_half_even. rewrite (Qfloor_comp _ _ E).
  assert (x - inject_Z (Qfloor y) == y - inject_Z (Qfloor y)) as E'
    by (rewrite E; reflexivity).
  rewrite (Qcompare_comp _ _ E' _ _ (Qeq_refl (1 # 2))). reflexivity.
Qed.

Lemma Qfloor_fraction (x : Q) : 0 <= x - inject_Z (Qfloor x) < 1.
Proof.
  pose proof (Qfloor_le x). pose proof (Qlt_floor x) as Hlt.
  rewrite inject_Z_plus in Hlt. change (inject_Z 1) with 1 in Hlt. lra.
Qed.

Lemma round_half_even_cases (x : Q) :
  let f := Qfloor x in
  let r := x - inject_Z f in
  (r < 1 # 2 /\ Js.round_half_even x = f)
  \/ (1 # 2 < r /\ Js.round_half_even x = (f + 1)%Z)
  \/ (r == 1 # 2 /\ Js.round_half_even x = if Z.even f then f else (f + 1)%Z).
Proof.
  cbn zeta. unfold Js.round_half_even.
  destruct (Qcompare_spec (x - inject_Z (Qfloor x)) (1 # 2)) as [E | E | E].
  - right. right. split; [exact E | reflexivity].
  - left. split; [exact E | reflexivity].
  - right. left. split; [exact E | reflexivity].
Qed.

Lemma round_half_even_error (x : Q) :
  Qabs (inject_Z (Js.round_half_even x) - x) <= 1 # 2.
Proof.
  pose proof (Qfloor_fraction x) as Hr.
  apply Qabs_Qle_condition.
  destruct (round_half_even_cases x) as [[H ->] | [[H ->] | [H ->]]].
  - lra.
  - rewrite inject_Z_plus. change (inject_Z 1) with 1. lra.
  - destruct (Z.even (Qfloor x)).
    + lra.
    + rewrite inject_Z_plus. change (inject_Z 1) with 1. lra.
Qed.

Lemma round_half_even_inject (z : Z) : Js.round_half_even (inject_Z z) = z.
Proof.
  destruct (round_half_even_cases (inject_Z z)) as [[H E] | [[H E] | [H E]]];
    rewrite Qfloor_Z in *.
  - exact E.
  - exfalso. lra.
  - exfalso. lra.
Qed.

Lemma round_half_even_integer (x : Q) (z : Z) :
  x == inject_Z z -> Js.round_half_even x = z.
Proof.
  intros E. rewrite (round_half_even_comp _ _ E). apply round_half_even_inject.
Qed.

Lemma round_half_even_mono (x y : Q) :
  x <= y -> (Js.round_half_even x <= Js.round_half_even y)%Z.
Proof.
  intros Hxy.
  pose proof (Qfloor_resp_le x y Hxy) as Hf.
  pose proof (Qfloor_fraction x) as Hrx. pose proof (Qfloor_fraction y) as Hry.
  assert (Qfloor x <= Js.round_half_even x <= Qfloor x + 1)%Z as Hx.
  { destruct (round_half_even_cases x) as [[_ ->] | [[_ ->] | [_ ->]]];
      try destruct (Z.even _); lia. }
  assert (Qfloor y <= Js.round_half_even y <= Qfloor y + 1)%Z as Hy.
  { destruct (round_half_even_cases y) as [[_ ->] | [[_ ->] | [_ ->]]];
      try destruct (Z.even _); lia. }
  destruct (Z.eq_dec (Qfloor x) (Qfloor y)) as [Heq | Hne]; [|lia].
  assert (x - inject_Z (Qfloor x) <= y - inject_Z (Qfloor y)) as Hr
    by (rewrite Heq; lra).
  destruct (round_half_even_cases x) as [[Hx1 Ex] | [[Hx1 Ex] | [Hx1 Ex]]];
  destruct (round_half_even_cases y) as [[Hy1 Ey] | [[Hy1 Ey] | [Hy1 Ey]]];
    rewrite Ex, Ey, ?Heq; try destruct (Z.even (Qfloor y)); try lia;
    exfalso; lra.
Qed.

Lemma Qfloor_opp_integer (x : Q) :
  x == inject_Z (Qfloor x) -> Qfloor (- x) = (- Qfloor x)%Z.
Proof.
  intros E.
  assert (- x == inject_Z (- Qfloor x)) as E'
    by (rewrite inject_Z_opp, <- E; reflexivity).
  rewrite (Qfloor_comp _ _ E'). apply Qfloor_Z.
Qed.

Lemma Qfloor_opp_fraction (x : Q) :
  ~ x == inject_Z (Qfloor x) -> Qfloor (- x) = (- Qfloor x - 1)%Z.
Proof.
  intros Hne. pose proof (Qfloor_fraction x) as Hr.
  pose proof (Qfloor_fraction (- x)) as Hr'.
  assert (0 < x - inject_Z (Qfloor x)) as Hpos.
  { apply Qnot_le_lt. intros H. apply Hne. lra. }
  assert (inject_Z (Qfloor (- x)) < inject_Z (- Qfloor x)) as H1
    by (rewrite inject_Z_opp; lra).
  assert (inject_Z (- Qfloor x - 1 - 1) < inject_Z (Qfloor (- x))) as H2.
  { unfold Z.sub. rewrite !inject_Z_plus, !inject_Z_opp.
    change (inject_Z 1) with 1. lra. }
  rewrite <- Zlt_Qlt in H1, H2. lia.
Qed.

Lemma round_half_even_opp (x : Q) :
  Js.round_half_even (- x) = (- Js.round_half_even x)%Z.
Proof.
  pose proof (Qfloor_fraction x) as Hr.
  destruct (Qeq_dec x (inject_Z (Qfloor x))) as [E | Hne].
  - rewrite (round_half_even_integer x _ E).
    apply round_half_even_integer. rewrite inject_Z_opp, <- E. reflexivity.
  - pose proof (Qfloor_opp_fraction x Hne) as Hf.
    assert (- x - inject_Z (Qfloor (- x)) == 1 - (x - inject_Z (Qfloor x))) as Er.
    { rewrite Hf. unfold Z.sub. rewrite !inject_Z_plus, !inject_Z_opp.
      change (inject_Z 1) with 1. ring. }
    destruct (round_half_even_cases x) as [[Hx Ex] | [[Hx Ex] | [Hx Ex]]];
    destruct (round_half_even_cases (- x)) as [[Hy Ey] | [[Hy Ey] | [Hy Ey]]];
      rewrite Er in Hy; rewrite Ex, Ey, Hf; try (exfalso; lra); try lia.
    replace (- Qfloor x - 1)%Z with (- (Qfloor x + 1))%Z by lia.
    rewrite Z.even_opp. change (Qfloor x + 1)%Z with (Z.succ (Qfloor x)).
    rewrite Z.even_succ, <- Z.negb_even.
    destruct (Z.even (Qfloor x)); cbn [negb]; lia.
Qed.

Lemma Qabs_nonzero (x : Q) : ~ x == 0 -> 0 < Qabs x.
Proof.
  intros Hne. pose proof (Qabs_nonneg x) as Hge.
  apply Qnot_le_lt. intros Hle. apply Hne.
  assert (Qabs x == 0) as E0 by lra.
  revert E0. apply Qabs_case; intros; lra.
Qed.

Lemma Qnonzero_pos (x : Q) : ~ x == 0 -> x <= 0 -> 0 < - x.
Proof. intros Hne Hle. apply Qnot_le_lt. intros H. apply Hne. lra. Qed.

(** *** Rounding to a precision *)

Section Rounding.

Variable p : Z.
Hypothesis p_pos : (1 <= p)%Z.

Lemma round_to_0 : Js.round_to p 0 = 0.
Proof. reflexivity. Qed.

Lemma round_to_zero (x : Q) : x == 0 -> Js.round_to p x = 0.
Proof.
  intros E. unfold Js.round_to. apply Qeq_bool_iff in E. now rewrite E.
Qed.

Lemma round_to_comp (x y : Q) : x == y -> Js.round_to p x = Js.round_to p y.
Proof.
  intros E. unfold Js.round_to.
  destruct (Qeq_bool x 0) eqn:Ex, (Qeq_bool y 0) eqn:Ey.
  - reflexivity.
  - apply Qeq_bool_iff in Ex. rewrite E in Ex. apply Qeq_bool_iff in Ex.
    congruence.
  - apply Qeq_bool_iff in Ey. rewrite <- E in Ey. apply Qeq_bool_iff in Ey.
    congruence.
  - assert (0 < Qabs x) as Hpos
      by (apply Qabs_nonzero; now apply Qeq_bool_neq).
    assert (Qabs x == Qabs y) as Ea by (rewrite E; reflexivity).
    rewrite (floor_log2_comp _ _ Hpos Ea).
    apply Qred_complete.
    set (e := (Js.floor_log2 (Qabs y) - (p - 1))%Z).
    assert (x * Js.pow2 (- e) == y * Js.pow2 (- e)) as Ey' by (rewrite E; reflexivity).
    rewrite (round_half_even_comp _ _ Ey'). reflexivity.
Qed.

Lemma round_to_positive (x : Q) :
  0 < x ->
  let e := (Js.floor_log2 x - (p - 1))%Z in
  let m := Js.round_half_even (x * Js.pow2 (- e)) in
  Js.round_to p x == inject_Z m * Js.pow2 e
  /\ (2 ^ (p - 1) <= m <= 2 ^ p)%Z
  /\ Qabs (inject_Z m - x * Js.pow2 (- e)) <= 1 # 2
  /\ Js.pow2 (p - 1 + e) <= x < Js.pow2 (p + e).
Proof.
  intros Hx e m.
  destruct (floor_log2_spec x Hx) as [Hlo Hhi].
  assert (Js.round_to p x == inject_Z m * Js.pow2 e) as Hr.
  { unfold Js.round_to.
    destruct (Qeq_bool x 0) eqn:Ex.
    - apply Qeq_bool_iff in Ex. lra.
    - rewrite Qred_correct.
      assert (Qabs x == x) as Ea by (apply Qabs_pos; lra).
      assert (0 < Qabs x) as Hpos by (rewrite Ea; exact Hx).
      rewrite (floor_log2_comp _ _ Hpos Ea). reflexivity. }
  split; [exact Hr|].
  assert (Js.pow2 (p - 1) <= x * Js.pow2 (- e) < Js.pow2 p) as [Hylo Hyhi].
  { pose proof (pow2_pos (- e)) as He.
    assert (Js.pow2 (p - 1) == Js.pow2 (Js.floor_log2 x) * Js.pow2 (- e)) as ->.
    { rewrite <- pow2_plus. unfold e.
      replace (Js.floor_log2 x + - (Js.floor_log2 x - (p - 1)))%Z with (p - 1)%Z by lia.
      reflexivity. }
    assert (Js.pow2 p == Js.pow2 (Js.floor_log2 x + 1) * Js.pow2 (- e)) as ->.
    { rewrite <- pow2_plus. unfold e.
      replace (Js.floor_log2 x + 1 + - (Js.floor_log2 x - (p - 1)))%Z with p by lia.
      reflexivity. }
    split.
    - apply Qmult_le_compat_r; [exact Hlo | apply Qlt_le_weak, He].
    - apply Qmult_lt_compat_r; [exact He | exact Hhi]. }
  split; [|split].
  - split.
    + rewrite <- (round_half_even_inject (2 ^ (p - 1))).
      apply round_half_even_mono. rewrite <- pow2_inject by lia. exact Hylo.
    + rewrite <- (round_half_even_inject (2 ^ p)).
      apply round_half_even_mono. rewrite <- pow2_inject by lia.
      apply Qlt_le_weak, Hyhi.
  - apply round_half_even_error.
  - replace (p - 1 + e)%Z with (Js.floor_log2 x) by (unfold e; lia).
    replace (p + e)%Z with (Js.floor_log2 x + 1)%Z by (unfold e; lia).
    split; assumption.
Qed.

Lemma round_to_opp (x : Q) : Js.round_to p (- x) == - Js.round_to p x.
Proof.
  unfold Js.round_to.
  destruct (Qeq_bool x 0) eqn:Ex.
  - apply Qeq_bool_iff in Ex.
    assert (Qeq_bool (- x) 0 = true) as -> by (apply Qeq_bool_iff; lra).
    reflexivity.
  - assert (Qeq_bool (- x) 0 = false) as ->.
    { apply Qeq_bool_neq in Ex.
      destruct (Qeq_bool (- x) 0) eqn:E; [|reflexivity].
      apply Qeq_bool_iff in E. exfalso. apply Ex. lra. }
    assert (0 < Qabs x) as Hpos
      by (apply Qabs_nonzero; now apply Qeq_bool_neq).
    assert (0 < Qabs (- x)) as Hpos' by (rewrite Qabs_opp; exact Hpos).
    rewrite (floor_log2_comp _ _ Hpos' (Qabs_opp x)).
    rewrite !Qred_correct.
    set (e := (Js.floor_log2 (Qabs x) - (p - 1))%Z).
    assert (- x * Js.pow2 (- e) == - (x * Js.pow2 (- e))) as E by ring.
    rewrite (round_half_even_comp _ _ E), round_half_even_opp, inject_Z_opp.
    ring.
Qed.

Lemma round_to_pos (x : Q) : 0 < x -> 0 < Js.round_to p x.
Proof.
  intros Hx.
  destruct (round_to_positive x Hx) as (-> & [Hm _] & _).
  assert (0 < 2 ^ (p - 1))%Z by (apply Z.pow_pos_nonneg; lia).
  apply Qmult_lt_0_compat; [|apply pow2_pos].
  change 0 with (inject_Z 0). rewrite <- Zlt_Qlt. lia.
Qed.

Lemma round_to_nonneg (x : Q) : 0 <= x -> 0 <= Js.round_to p x.
Proof.
  intros Hx. destruct (Qeq_dec x 0) as [E | Hne].
  - rewrite (round_to_zero x E). lra.
  - apply Qlt_le_weak, round_to_pos.
    apply Qnot_le_lt. intros Hle. apply Hne. lra.
Qed.

Lemma round_to_nonpos (x : Q) : x <= 0 -> Js.round_to p x <= 0.
Proof.
  intros Hx. assert (0 <= Js.round_to p (- x)) by (apply round_to_nonneg; lra).
  rewrite round_to_opp in H. lra.
Qed.

Lemma round_to_mono_pos (x y : Q) :
  0 < x -> x <= y -> Js.round_to p x <= Js.round_to p y.
Proof.
  intros Hx Hxy. assert (0 < y) as Hy by lra.
  destruct (round_to_positive x Hx) as (-> & [_ Hmx] & _ & _).
  destruct (round_to_positive y Hy) as (-> & [Hmy _] & _ & _).
  pose proof (floor_log2_le x y Hx Hxy) as Hle.
  set (ex := (Js.floor_log2 x - (p - 1))%Z) in *.
  set (ey := (Js.floor_log2 y - (p - 1))%Z) in *.
  destruct (Z.eq_dec ex ey) as [E | Hne].
  - rewrite <- E. apply Qmult_le_compat_r; [|apply Qlt_le_weak, pow2_pos].
    rewrite <- Zle_Qle. apply round_half_even_mono.
    apply Qmult_le_compat_r; [exact Hxy | apply Qlt_le_weak, pow2_pos].
  - assert (ex + 1 <= ey)%Z as Hlt by (unfold ex, ey in *; lia).
    apply Qle_trans with (inject_Z (2 ^ p) * Js.pow2 ex).
    { apply Qmult_le_compat_r; [|apply Qlt_le_weak, pow2_pos].
      rewrite <- Zle_Qle. exact Hmx. }
    apply Qle_trans with (inject_Z (2 ^ (p - 1)) * Js.pow2 ey).
    2:{ apply Qmult_le_compat_r; [|apply Qlt_le_weak, pow2_pos].
        rewrite <- Zle_Qle. exact Hmy. }
    rewrite <- !pow2_inject by lia. rewrite <- !pow2_plus.
    apply pow2_le. lia.
Qed.

Lemma round_to_mono (x y : Q) : x <= y -> Js.round_to p x <= Js.round_to p y.
Proof.
  intros Hxy.
  destruct (Qlt_le_dec 0 x) as [Hx | Hx].
  - now apply round_to_mono_pos.
  - destruct (Qlt_le_dec y 0) as [Hy | Hy].
    + assert (Js.round_to p (- y) <= Js.round_to p (- x)) as H
        by (apply round_to_mono_pos; lra).
      rewrite !round_to_opp in H. lra.
    + pose proof (round_to_nonpos x Hx). pose proof (round_to_nonneg y Hy). lra.
Qed.

Lemma round_to_error_pos (x : Q) :
  0 < x -> Qabs (Js.round_to p x - x) <= Js.pow2 (- p) * x.
Proof.
  intros Hx.
  destruct (round_to_positive x Hx) as (-> & _ & Herr & [Hlo _]).
  set (e := (Js.floor_log2 x - (p - 1))%Z) in *.
  set (m := Js.round_half_even (x * Js.pow2 (- e))) in *.
  assert (inject_Z m * Js.pow2 e - x == (inject_Z m - x * Js.pow2 (- e)) * Js.pow2 e) as ->.
  { assert (Js.pow2 (- e) * Js.pow2 e == 1) as E
      by (rewrite Qmult_comm; apply pow2_cancel).
    rewrite <- (Qmult_1_r x) at 1. rewrite <- E. ring. }
  rewrite Qabs_Qmult, (Qabs_pos (Js.pow2 e)) by apply Qlt_le_weak, pow2_pos.
  apply Qle_trans with ((1 # 2) * Js.pow2 e).
  { apply Qmult_le_compat_r; [exact Herr | apply Qlt_le_weak, pow2_pos]. }
  apply Qle_trans with (Js.pow2 (- p) * Js.pow2 (p - 1 + e)).
  - rewrite <- pow2_plus. replace (- p + (p - 1 + e))%Z with (-1 + e)%Z by lia.
    rewrite pow2_plus. change (Js.pow2 (-1)) with (1 # 2). lra.
  - rewrite !(Qmult_comm (Js.pow2 (- p))).
    apply Qmult_le_compat_r; [exact Hlo | apply Qlt_le_weak, pow2_pos].
Qed.

Lemma round_to_error (x : Q) :
  Qabs (Js.round_to p x - x) <= Js.pow2 (- p) * Qabs x.
Proof.
  destruct (Qlt_le_dec 0 x) as [Hx | Hx].
  - rewrite (Qabs_pos x) by lra. now apply round_to_error_pos.
  - destruct (Qeq_dec x 0) as [E | Hne].
    + rewrite (round_to_zero x E), E. change (Qabs (0 - 0)) with 0.
      change (Qabs 0) with 0. rewrite Qmult_0_r. apply Qle_refl.
    + assert (0 < - x) as Hx' by now apply Qnonzero_pos.
      pose proof (round_to_error_pos (- x) Hx') as H.
      rewrite round_to_opp in H.
      rewrite (Qabs_neg x) by lra.
      assert (- Js.round_to p x - - x == - (Js.round_to p x - x)) as E by ring.
      rewrite E, Qabs_opp in H. exact H.
Qed.

Lemma round_to_exact_pos (x : Q) (m e : Z) :
  (0 < m < 2 ^ p)%Z -> x == inject_Z m * Js.pow2 e -> Js.round_to p x == x.
Proof.
  intros Hm E.
  assert (0 < x) as Hx.
  { rewrite E. apply Qmult_lt_0_compat; [|apply pow2_pos].
    change 0 with (inject_Z 0). rewrite <- Zlt_Qlt. lia. }
  destruct (round_to_positive x Hx) as (-> & _ & _ & [Hlo _]).
  set (e0 := (Js.floor_log2 x - (p - 1))%Z) in *.
  assert (e0 <= e)%Z as Hle.
  { destruct (Z.le_gt_cases e0 e) as [H | H]; [exact H | exfalso].
    assert (x < Js.pow2 (p + e)) as Hlt.
    { rewrite E, pow2_plus. apply Qmult_lt_compat_r; [apply pow2_pos|].
      rewrite pow2_inject by lia. rewrite <- Zlt_Qlt. lia. }
    assert (Js.pow2 (p + e) <= Js.pow2 (p - 1 + e0)) by (apply pow2_le; lia).
    lra. }
  assert (x * Js.pow2 (- e0) == inject_Z (m * 2 ^ (e - e0))) as Ey.
  { rewrite E, inject_Z_mult, <- pow2_inject by lia.
    rewrite <- Qmult_assoc, <- pow2_plus.
    replace (e + - e0)%Z with (e - e0)%Z by lia. reflexivity. }
  rewrite (round_half_even_integer _ _ Ey), E, inject_Z_mult.
  rewrite <- pow2_inject by lia. rewrite <- Qmult_assoc, <- pow2_plus.
  replace (e - e0 + e0)%Z with e by lia. reflexivity.
Qed.

Lemma round_to_exact (x : Q) (m e : Z) :
  (Z.abs m <= 2 ^ p)%Z -> x == inject_Z m * Js.pow2 e -> Js.round_to p x == x.
Proof.
  intros Hm E.
  assert (forall y n, (0 < n <= 2 ^ p)%Z -> y == inject_Z n * Js.pow2 e ->
                      Js.round_to p y == y) as Hpos.
  { intros y n Hn Ey.
    destruct (Z.eq_dec n (2 ^ p)%Z) as [-> | Hne].
    - apply (round_to_exact_pos y 1 (p + e)).
      + split; [lia|]. apply Z.pow_gt_1; lia.
      + rewrite Ey, pow2_plus, (pow2_inject p) by lia. ring.
    - apply (round_to_exact_pos y n e); [lia | exact Ey]. }
  destruct (Z.lt_trichotomy m 0) as [Hneg | [-> | Hp]].
  - assert (Js.round_to p (- x) == - x) as H.
    { apply (Hpos (- x) (- m)%Z); [lia|]. rewrite E, inject_Z_opp. ring. }
    rewrite round_to_opp in H. lra.
  - assert (x == 0) as E0 by (rewrite E; ring).
    rewrite (round_to_zero x E0), E0. reflexivity.
  - apply (Hpos x m); [lia | exact E].
Qed.

Lemma round_to_representable (x : Q) :
  exists m e, (Z.abs m <= 2 ^ p)%Z /\ Js.round_to p x == inject_Z m * Js.pow2 e.
Proof.
  destruct (Qlt_le_dec 0 x) as [Hx | Hx].
  - destruct (round_to_positive x Hx) as (E & Hm & _).
    eexists _, _. split; [|exact E]. lia.
  - destruct (Qeq_dec x 0) as [E | Hne].
    + exists 0%Z, 0%Z. split; [lia|]. rewrite (round_to_zero x E). reflexivity.
    + assert (0 < - x) as Hx' by now apply Qnonzero_pos.
      destruct (round_to_positive (- x) Hx') as (E & Hm & _).
      rewrite round_to_opp in E.
      eexists (- _)%Z, _. split; [|rewrite inject_Z_opp].
      2:{ assert (forall a b, - a == b -> a == - b) as Hflip by (intros; lra).
          rewrite (Hflip _ _ E). ring. }
      lia.
Qed.

Lemma round_to_idem (x : Q) : Js.round_to p (Js.round_to p x) == Js.round_to p x.
Proof.
  destruct (round_to_representable x) as (m & e & Hm & E).
  exact (round_to_exact _ m e Hm E).
Qed.

Lemma round_to_scale (x : Q) (k : Z) :
  Js.round_to p (x * Js.pow2 k) == Js.round_to p x * Js.pow2 k.
Proof.
  assert (forall y, 0 < y -> Js.round_to p (y * Js.pow2 k) == Js.round_to p y * Js.pow2 k)
    as Hpos.
  { intros y Hy.
    assert (0 < y * Js.pow2 k) as Hy'
      by (apply Qmult_lt_0_compat; [exact Hy | apply pow2_pos]).
    destruct (round_to_positive y Hy) as (-> & _).
    destruct (round_to_positive _ Hy') as (-> & _).
    rewrite (floor_log2_scale y k Hy).
    set (e := (Js.floor_log2 y - (p - 1))%Z).
    replace (Js.floor_log2 y + k - (p - 1))%Z with (e + k)%Z by (unfold e; lia).
    assert (y * Js.pow2 k * Js.pow2 (- (e + k)) == y * Js.pow2 (- e)) as Ey.
    { rewrite <- Qmult_assoc, <- pow2_plus.
      replace (k + - (e + k))%Z with (- e)%Z by lia. reflexivity. }
    rewrite (round_half_even_comp _ _ Ey), pow2_plus. ring. }
  destruct (Qlt_le_dec 0 x) as [Hx | Hx]; [now apply Hpos|].
  destruct (Qeq_dec x 0) as [E | Hne].
  - assert (x * Js.pow2 k == 0) as E' by (rewrite E; ring).
    rewrite (round_to_zero _ E'), (round_to_zero _ E). ring.
  - assert (0 < - x) as Hx' by now apply Qnonzero_pos.
    pose proof (Hpos (- x) Hx') as H.
    assert (- x * Js.pow2 k == - (x * Js.pow2 k)) as E by ring.
    rewrite (round_to_comp _ _ E), !round_to_opp in H. lra.
Qed.

End Rounding.

(** *** Doubles and their arithmetic *)

Lemma binary64_precision : (1 <= 53)%Z.
Proof. lia. Qed.

Lemma binary32_precision : (1 <= 24)%Z.
Proof. lia. Qed.

#[local] Instance binary64_Proper : Proper (Qeq ==> Qeq) Js.binary64.
Proof.
  intros x y E. unfold Js.binary64. now rewrite (round_to_comp 53 x y E).
Qed.

#[local] Instance Math_fround_Proper : Proper (Qeq ==> Qeq) Js.Math_fround.
Proof.
  intros x y E. unfold Js.Math_fround. now rewrite (round_to_comp 24 x y E).
Qed.

#[local] Instance add_Proper : Proper (Qeq ==> Qeq ==> Qeq) Js.add.
Proof. intros x x' Ex y y' Ey. unfold Js.add. now rewrite Ex, Ey. Qed.

#[local] Instance sub_Proper : Proper (Qeq ==> Qeq ==> Qeq) Js.sub.
Proof. intros x x' Ex y y' Ey. unfold Js.sub. now rewrite Ex, Ey. Qed.

#[local] Instance mul_Proper : Proper (Qeq ==> Qeq ==> Qeq) Js.mul.
Proof. intros x x' Ex y y' Ey. unfold Js.mul. now rewrite Ex, Ey. Qed.

#[local] Instance div_Proper : Proper (Qeq ==> Qeq ==> Qeq) Js.div.
Proof. intros x x' Ex y y' Ey. unfold Js.div. now rewrite Ex, Ey. Qed.

#[local] Instance is_double_Proper : Proper (Qeq ==> iff) Js.is_double.
Proof. intros x y E. unfold Js.is_double. now rewrite E. Qed.

Lemma binary64_mono (x y : Q) : x <= y -> Js.binary64 x <= Js.binary64 y.
Proof. apply round_to_mono, binary64_precision. Qed.

Lemma binary64_opp (x : Q) : Js.binary64 (- x) == - Js.binary64 x.
Proof. apply round_to_opp. Qed.

Lemma binary64_nonneg (x : Q) : 0 <= x -> 0 <= Js.binary64 x.
Proof. apply round_to_nonneg, binary64_precision. Qed.

Lemma binary64_nonpos (x : Q) : x <= 0 -> Js.binary64 x <= 0.
Proof. apply round_to_nonpos, binary64_precision. Qed.

Lemma binary64_pos (x : Q) : 0 < x -> 0 < Js.binary64 x.
Proof. apply round_to_pos, binary64_precision. Qed.

Lemma binary64_neg (x : Q) : x < 0 -> Js.binary64 x < 0.
Proof.
  intros Hx. assert (0 < Js.binary64 (- x)) as H by (apply binary64_pos; lra).
  rewrite binary64_opp in H. lra.
Qed.

Lemma binary64_0 : Js.binary64 0 = 0.
Proof. reflexivity. Qed.

Lemma binary64_zero (x : Q) : x == 0 -> Js.binary64 x == 0.
Proof. intros E. now rewrite E. Qed.

Lemma binary64_error (x : Q) :
  Qabs (Js.binary64 x - x) <= Js.unit_roundoff * Qabs x.
Proof. apply (round_to_error 53 binary64_precision). Qed.

Lemma binary64_bounds (x : Q) :
  x - Js.unit_roundoff * Qabs x <= Js.binary64 x
  <= x + Js.unit_roundoff * Qabs x.
Proof.
  pose proof (binary64_error x) as H. apply Qabs_Qle_condition in H. lra.
Qed.

Lemma binary64_bounds_nonneg (x : Q) :
  0 <= x ->
  (1 - Js.unit_roundoff) * x <= Js.binary64 x <= (1 + Js.unit_roundoff) * x.
Proof.
  intros Hx. pose proof (binary64_bounds x) as H.
  rewrite (Qabs_pos x Hx) in H. lra.
Qed.

Lemma Math_fround_mono (x y : Q) :
  x <= y -> Js.Math_fround x <= Js.Math_fround y.
Proof. apply round_to_mono, binary32_precision. Qed.

Lemma Math_fround_error (x : Q) :
  Qabs (Js.Math_fround x - x) <= Js.unit_roundoff32 * Qabs x.
Proof. apply (round_to_error 24 binary32_precision). Qed.

Lemma Math_fround_bounds (x : Q) :
  x - Js.unit_roundoff32 * Qabs x <= Js.Math_fround x
  <= x + Js.unit_roundoff32 * Qabs x.
Proof.
  pose proof (Math_fround_error x) as H. apply Qabs_Qle_condition in H. lra.
Qed.

Lemma Math_fround_nonneg (x : Q) : 0 <= x -> 0 <= Js.Math_fround x.
Proof. apply round_to_nonneg, binary32_precision. Qed.

(** Which rationals are doubles. *)

Lemma is_double_binary64 (x : Q) : Js.is_double (Js.binary64 x).
Proof. apply (round_to_idem 53 binary64_precision). Qed.

Lemma is_double_intro (x : Q) (m e : Z) :
  (Z.abs m <= 2 ^ 53)%Z -> x == inject_Z m * Js.pow2 e -> Js.is_double x.
Proof. apply (round_to_exact 53 binary64_precision). Qed.

Lemma is_double_inject_Z (z : Z) :
  (Z.abs z <= 2 ^ 53)%Z -> Js.is_double (inject_Z z).
Proof.
  intros Hz. apply (is_double_intro _ z 0 Hz). change (Js.pow2 0) with 1. ring.
Qed.

Lemma is_double_integer (x : Q) :
  Js.is_integer x -> Qabs x <= 9007199254740992 -> Js.is_double x.
Proof.
  intros Hi Hb. unfold Js.is_integer in Hi. rewrite <- Hi.
  apply is_double_inject_Z.
  rewrite <- Hi in Hb. apply Qabs_Qle_condition in Hb.
  change 9007199254740992 with (inject_Z (2 ^ 53)) in Hb.
  rewrite <- inject_Z_opp in Hb. rewrite <- !Zle_Qle in Hb. lia.
Qed.

Lemma is_double_scale (x : Q) (k : Z) :
  Js.is_double x -> Js.is_double (x * Js.pow2 k).
Proof.
  unfold Js.is_double, Js.binary64. intros Hx.
  rewrite (round_to_scale 53 binary64_precision), Hx. reflexivity.
Qed.

Lemma is_double_half (x : Q) : Js.is_double x -> Js.is_double (x / 2).
Proof.
  intros Hx. assert (x / 2 == x * Js.pow2 (-1)) as -> by (cbn; field).
  now apply is_double_scale.
Qed.

Lemma is_double_twice (x : Q) : Js.is_double x -> Js.is_double (2 * x).
Proof.
  intros Hx. assert (2 * x == x * Js.pow2 1) as -> by (cbn; ring).
  now apply is_double_scale.
Qed.

Lemma is_double_opp (x : Q) : Js.is_double x -> Js.is_double (- x).
Proof. unfold Js.is_double. intros Hx. now rewrite binary64_opp, Hx. Qed.

Lemma is_double_abs (x : Q) : Js.is_double x -> Js.is_double (Qabs x).
Proof.
  intros Hx. apply Qabs_case; intros _; [exact Hx | now apply is_double_opp].
Qed.

Lemma is_double_max (x y : Q) :
  Js.is_double x -> Js.is_double y -> Js.is_double (Js.Math_max x y).
Proof.
  intros Hx Hy. unfold Js.Math_max.
  destruct (Q.max_spec x y) as [[_ E] | [_ E]]; now rewrite E.
Qed.

Lemma is_double_min (x y : Q) :
  Js.is_double x -> Js.is_double y -> Js.is_double (Js.Math_min x y).
Proof.
  intros Hx Hy. unfold Js.Math_min.
  destruct (Q.min_spec x y) as [[_ E] | [_ E]]; now rewrite E.
Qed.


Lemma binary64_le_double (x y : Q) :
  x <= y -> Js.is_double y -> Js.binary64 x <= y.
Proof.
  intros Hxy Hy. unfold Js.is_double in Hy.
  apply Qle_trans with (Js.binary64 y); [now apply binary64_mono|].
  rewrite Hy. apply Qle_refl.
Qed.

Lemma binary64_ge_double (x y : Q) :
  y <= x -> Js.is_double y -> y <= Js.binary64 x.
Proof.
  intros Hxy Hy. unfold Js.is_double in Hy.
  apply Qle_trans with (Js.binary64 y); [|now apply binary64_mono].
  rewrite Hy. apply Qle_refl.
Qed.

(** The operations on doubles: results are doubles, operations that do not
    need rounding are exact. *)

Lemma is_double_add (x y : Q) : Js.is_double (x ⊕ y).
Proof. apply is_double_binary64. Qed.

Lemma is_double_sub (x y : Q) : Js.is_double (x ⊖ y).
Proof. apply is_double_binary64. Qed.


Lemma is_double_div (x y : Q) : Js.is_double (x ⊘ y).
Proof. apply is_double_binary64. Qed.

Lemma add_0_r (x : Q) : Js.is_double x -> x ⊕ 0 == x.
Proof. intros Hx. unfold Js.add. now rewrite Qplus_0_r. Qed.

Lemma add_0_l (x : Q) : Js.is_double x -> 0 ⊕ x == x.
Proof. intros Hx. unfold Js.add. now rewrite Qplus_0_l. Qed.

Lemma sub_0_r (x : Q) : Js.is_double x -> x ⊖ 0 == x.
Proof.
  intros Hx. unfold Js.sub. assert (x - 0 == x) as -> by ring. exact Hx.
Qed.



Lemma mul_1_r (x : Q) : Js.is_double x -> x ⊗ 1 == x.
Proof. intros Hx. unfold Js.mul. now rewrite Qmult_1_r. Qed.



Lemma div_2 (x : Q) : Js.is_double x -> x ⊘ 2 == x / 2.
Proof. intros Hx. unfold Js.div. now apply is_double_half. Qed.






Lemma div_mono_pos (x y z : Q) : 0 < z -> x <= y -> x ⊘ z <= y ⊘ z.
Proof.
  intros Hz Hxy. apply binary64_mono. unfold Qdiv.
  apply Qmult_le_compat_r; [exact Hxy|].
  apply Qlt_le_weak, Qinv_lt_0_compat, Hz.
Qed.


Lemma div_nonneg (x y : Q) : 0 <= x -> 0 < y -> 0 <= x ⊘ y.
Proof.
  intros Hx Hy. apply binary64_nonneg. unfold Qdiv.
  apply Qmult_le_0_compat; [exact Hx|].
  apply Qlt_le_weak, Qinv_lt_0_compat, Hy.
Qed.

Lemma div_pos (x y : Q) : 0 < x -> 0 < y -> 0 < x ⊘ y.
Proof.
  intros Hx Hy. apply binary64_pos. unfold Qdiv.
  apply Qmult_lt_0_compat; [exact Hx|]. apply Qinv_lt_0_compat, Hy.
Qed.

(** Integers up to [2^53] are added and subtracted without error. *)
Lemma sub_integers (a b : Z) :
  (Z.abs (a - b) <= 2 ^ 53)%Z -> inject_Z a ⊖ inject_Z b == inject_Z (a - b).
Proof.
  intros H. unfold Js.sub.
  assert (inject_Z a - inject_Z b == inject_Z (a - b)) as ->
    by (unfold Z.sub; rewrite inject_Z_plus, inject_Z_opp; ring).
  now apply is_double_inject_Z.
Qed.

Lemma add_integers (a b : Z) :
  (Z.abs (a + b) <= 2 ^ 53)%Z -> inject_Z a ⊕ inject_Z b == inject_Z (a + b).
Proof.
  intros H. unfold Js.add. rewrite <- inject_Z_plus.
  now apply is_double_inject_Z.
Qed.

Lemma mul_integers (a b : Z) :
  (Z.abs (a * b) <= 2 ^ 53)%Z -> inject_Z a ⊗ inject_Z b == inject_Z (a * b).
Proof.
  intros H. unfold Js.mul. rewrite <- inject_Z_mult.
  now apply is_double_inject_Z.
Qed.
(** ** Configuration resolution *)

Lemma clampSamples_range (s : Q) :
  Js.is_integer (clampSamples s) /\ 1 <= clampSamples s <= 64.
Proof.
  split.
  - unfold clampSamples. apply is_integer_max; [apply (is_integer_inject_Z 1)|].
    apply is_integer_min; [apply (is_integer_inject_Z 64)|].
    apply Math_round_is_integer.
  - unfold clampSamples. q_minmax. lra.
Qed.

Lemma clampSamples_fixpoint (s : Q) :
  Js.is_integer s -> 1 <= s <= 64 -> clampSamples s == s.
Proof.
  intros Hi Hr. unfold clampSamples. rewrite (Math_round_integer s Hi).
  q_minmax. lra.
Qed.

Lemma clampShutterAngle_range (a : Q) : 0 <= clampShutterAngle a <= 720.
Proof. unfold clampShutterAngle. q_minmax. lra. Qed.

Lemma clampShutterAngle_fixpoint (a : Q) :
  0 <= a <= 720 -> clampShutterAngle a == a.
Proof. intros Hr. unfold clampShutterAngle. q_minmax. lra. Qed.

Lemma clampShutterPhase_range (p : Q) : -360 <= clampShutterPhase p <= 360.
Proof. unfold clampShutterPhase. q_minmax. lra. Qed.

Lemma clampShutterPhase_fixpoint (p : Q) :
  -360 <= p <= 360 -> clampShutterPhase p == p.
Proof. intros Hr. unfold clampShutterPhase. q_minmax. lra. Qed.

(** How the sample count is chosen, case by case. *)

Lemma resolve_samples_explicit (o : Opt.MotionBlurOptions) (s : Q) :
  Opt.samples o = Some s -> ~ s == 0 ->
  samples (resolveMotionBlurConfig (Some o)) = clampSamples s.
Proof.
  intros Hs Hnz. cbn. unfold resolve_samples. rewrite Hs.
  apply truthy_number_Some in Hnz. rewrite Hnz. cbn.
  now destruct (Opt.quality o).
Qed.

Lemma resolve_samples_explicit_no_quality (o : Opt.MotionBlurOptions) (s : Q) :
  Opt.samples o = Some s -> Opt.quality o = None ->
  samples (resolveMotionBlurConfig (Some o)) = clampSamples s.
Proof.
  intros Hs Hq. cbn. unfold resolve_samples. now rewrite Hs, Hq.
Qed.

Lemma resolve_samples_quality (o : Opt.MotionBlurOptions) (q : MotionBlurQuality) :
  Opt.samples o = None -> Opt.quality o = Some q ->
  samples (resolveMotionBlurConfig (Some o)) = clampSamples (QUALITY_SAMPLES q).
Proof.
  intros Hs Hq. cbn. unfold resolve_samples. now rewrite Hs, Hq.
Qed.

Lemma resolve_samples_zero_quality
    (o : Opt.MotionBlurOptions) (s : Q) (q : MotionBlurQuality) :
  Opt.samples o = Some s -> s == 0 -> Opt.quality o = Some q ->
  samples (resolveMotionBlurConfig (Some o)) = QUALITY_SAMPLES q.
Proof.
  intros Hs Hz Hq. cbn. unfold resolve_samples. rewrite Hs, Hq.
  apply truthy_number_Some_false in Hz. rewrite Hz. cbn.
  now destruct q.
Qed.

(** C1, at the input [{quality: 'ultra', samples: 0}]: the explicit sample
    count [0] is treated as absent, so the result is the preset [32] and not
    [max(1, min(64, round(0))) = 1]. *)
Theorem resolve_zero_samples_takes_preset :
  samples (resolveMotionBlurConfig (Some opts_quality_ultra_samples_0)) == 32
  /\ Js.Math_max 1 (Js.Math_min 64 (Js.Math_round 0)) == 1
  /\ ~ samples (resolveMotionBlurConfig (Some opts_quality_ultra_samples_0))
       == Js.Math_max 1 (Js.Math_min 64 (Js.Math_round 0)).
Proof.
  repeat split; try (vm_compute; reflexivity).
  intros E. vm_compute in E. discriminate E.
Qed.

(** How the shutter phase is chosen, case by case. *)

Lemma resolve_phase_explicit (o : Opt.MotionBlurOptions) (p : Q) :
  Opt.shutterPhase o = Some p -> ~ p == 0 ->
  shutterPhase (resolveMotionBlurConfig (Some o)) = clampShutterPhase p.
Proof.
  intros Hp Hnz. cbn. unfold resolve_phase. rewrite Hp.
  apply truthy_number_Some in Hnz. rewrite Hnz. cbn.
  now destruct (Opt.shutterPosition o).
Qed.

Lemma resolve_phase_explicit_no_position (o : Opt.MotionBlurOptions) (p : Q) :
  Opt.shutterPhase o = Some p -> Opt.shutterPosition o = None ->
  shutterPhase (resolveMotionBlurConfig (Some o)) = clampShutterPhase p.
Proof.
  intros Hp Hpos. cbn. unfold resolve_phase. now rewrite Hp, Hpos.
Qed.


Lemma resolve_phase_default (o : Opt.MotionBlurOptions) :
  Opt.shutterPhase o = None -> Opt.shutterPosition o = None ->
  shutterPhase (resolveMotionBlurConfig (Some o)) = clampShutterPhase (-90).
Proof.
  intros Hp Hpos. cbn. unfold resolve_phase. now rewrite Hp, Hpos.
Qed.

Lemma resolve_phase_zero_position
    (o : Opt.MotionBlurOptions) (p : Q) (pos : ShutterPosition) :
  Opt.shutterPhase o = Some p -> p == 0 -> Opt.shutterPosition o = Some pos ->
  shutterPhase (resolveMotionBlurConfig (Some o))
  = clampShutterPhase
      (calculatePhaseFromPosition pos (Opt.shutterAngle o ?? 180)).
Proof.
  intros Hp Hz Hpos. cbn. unfold resolve_phase. rewrite Hp, Hpos.
  apply truthy_number_Some_false in Hz. now rewrite Hz.
Qed.

(** C3, at the input [{shutterPhase: 0, shutterPosition: 'end'}]: the explicit
    phase [0] is treated as absent, so the phase is derived from the position
    ([-180]) instead of being the supplied [0] clamped. *)
Theorem resolve_zero_phase_derives_from_position :
  shutterPhase (resolveMotionBlurConfig (Some opts_phase_0_position_end)) == -180
  /\ clampShutterPhase 0 == 0
  /\ ~ shutterPhase (resolveMotionBlurConfig (Some opts_phase_0_position_end))
       == clampShutterPhase 0.
Proof.
  repeat split; try (vm_compute; reflexivity).
  intros E. vm_compute in E. discriminate E.
Qed.

(** Resolving a resolved configuration again changes nothing, unless its
    phase is [0] while its position and angle would derive another phase. *)
Lemma resolve_idempotent_unless_zero_phase (o : option Opt.MotionBlurOptions) :
  let c := resolveMotionBlurConfig o in
  ~ shutterPhase c == 0 \/ shutterPosition c = start \/ shutterAngle c == 0 ->
  config_eq (resolveMotionBlurConfig (Some (options_of_config c))) c.
Proof.
  intros c Hc.
  assert (Js.is_integer (samples c) /\ 1 <= samples c <= 64) as Hs.
  { destruct o; [apply clampSamples_range|].
    split; [apply (is_integer_inject_Z 8) | cbn; lra]. }
  assert (0 <= shutterAngle c <= 720) as Ha.
  { destruct o; [apply clampShutterAngle_range | cbn; lra]. }
  assert (-360 <= shutterPhase c <= 360) as Hp.
  { destruct o; [apply clampShutterPhase_range | cbn; lra]. }
  assert (1 <= adaptiveMinSamples c) as Hm.
  { destruct o; [|cbn; lra]. cbn. q_minmax. lra. }
  unfold config_eq. cbn -[c].
  repeat split; try reflexivity.
  - apply clampSamples_fixpoint; tauto.
  - apply clampShutterAngle_fixpoint; tauto.
  - q_minmax. lra.
  - unfold resolve_phase. cbn -[c].
    destruct (Qeq_bool (shutterPhase c) 0) eqn:E; cbn -[c].
    + apply Qeq_bool_eq in E.
      assert (calculatePhaseFromPosition (shutterPosition c) (shutterAngle c)
              == 0) as E0.
      { destruct Hc as [Hc | [Hc | Hc]]; [contradiction | now rewrite Hc |].
        destruct (shutterPosition c); cbn; try reflexivity.
        - rewrite Hc. reflexivity.
        - rewrite Hc. reflexivity. }
      unfold clampShutterPhase. rewrite E0.
      change (Js.Math_max (-360) (Js.Math_min 360 0)) with 0 at 1.
      now rewrite E.
    + apply clampShutterPhase_fixpoint; tauto.
Qed.

(** C2, at the input [{shutterPhase: 0}]: the resolved configuration has
    phase [0] and position ['center']; resolving it again treats the phase as
    absent and derives [-90], so the second resolution differs from the
    first. *)
Theorem resolve_twice_differs_at_zero_phase :
  let c := resolveMotionBlurConfig (Some opts_phase_0) in
  shutterPhase c == 0
  /\ shutterPhase (resolveMotionBlurConfig (Some (options_of_config c))) == -90
  /\ ~ config_eq (resolveMotionBlurConfig (Some (options_of_config c))) c.
Proof.
  repeat split; try (vm_compute; reflexivity).
  intros (_ & _ & _ & _ & _ & _ & _ & E). vm_compute in E. discriminate E.
Qed.



(** ** Sub-frame offsets *)

Lemma map_fmap {A B} (f : A -> B) (l : list A) : map f l = f <$> l.
Proof. reflexivity. Qed.

Lemma lt_bound_iff (j : nat) (b : Q) :
  Js.lt (inject_Z (Z.of_nat j)) b = true <-> (j < loop_fuel b)%nat.
Proof.
  unfold Js.lt, loop_fuel. rewrite negb_true_iff.
  pose proof (Qceiling_lt b) as Hlo. pose proof (Qle_ceiling b) as Hhi.
  split.
  - intros Hb.
    assert (inject_Z (Z.of_nat j) < b) as Hlt.
    { destruct (Qlt_le_dec (inject_Z (Z.of_nat j)) b) as [|Hle]; [assumption|].
      apply Qle_bool_iff in Hle. congruence. }
    assert (inject_Z (Z.of_nat j) < inject_Z (Qceiling b)) as Hz by lra.
    rewrite <- Zlt_Qlt in Hz. lia.
  - intros Hj.
    destruct (Qle_bool b (inject_Z (Z.of_nat j))) eqn:E; [|reflexivity].
    apply Qle_bool_iff in E.
    assert (inject_Z (Qceiling b - 1) < inject_Z (Z.of_nat j)) as Hz by lra.
    rewrite <- Zlt_Qlt in Hz. lia.
Qed.

Lemma push_loop_from (fuel j : nat) (b : Q) (body : Q -> Q) (out : list Q) :
  (loop_fuel b - j <= fuel)%nat ->
  push_loop fuel b body (Z.of_nat j) out
  = out ++ map (fun i => body (inject_Z (Z.of_nat i))) (seq j (loop_fuel b - j)).
Proof.
  revert j out. induction fuel as [|fuel IH]; intros j out Hfuel.
  - replace (loop_fuel b - j)%nat with 0%nat by lia. cbn. now rewrite app_nil_r.
  - cbn [push_loop].
    destruct (Js.lt (inject_Z (Z.of_nat j)) b) eqn:E.
    + apply lt_bound_iff in E.
      replace (Z.of_nat j + 1)%Z with (Z.of_nat (S j)) by lia.
      rewrite IH by lia.
      replace (loop_fuel b - j)%nat with (S (loop_fuel b - S j)) by lia.
      cbn [seq map]. now rewrite <- app_assoc.
    + assert (~ (j < loop_fuel b)%nat) as Hj.
      { rewrite <- lt_bound_iff. congruence. }
      replace (loop_fuel b - j)%nat with 0%nat by lia. cbn. now rewrite app_nil_r.
Qed.

Lemma push_loop_spec (fuel : nat) (b : Q) (body : Q -> Q) :
  (loop_fuel b <= fuel)%nat ->
  push_loop fuel b body 0%Z []
  = map (fun i => body (inject_Z (Z.of_nat i))) (seq 0 (loop_fuel b)).
Proof.
  intros Hfuel. change 0%Z with (Z.of_nat 0).
  rewrite push_loop_from by lia. cbn [app]. now rewrite Nat.sub_0_r.
Qed.

Lemma loop_fuel_integer (s : Q) :
  Js.is_integer s -> 0 <= s -> inject_Z (Z.of_nat (loop_fuel s)) == s.
Proof.
  intros Hi Hs. unfold loop_fuel. unfold Js.is_integer in Hi.
  rewrite <- (Qceiling_comp _ _ Hi), Qceiling_Z.
  assert (0 <= Qfloor s)%Z as Hz.
  { rewrite Zle_Qle. change (inject_Z 0) with 0. lra. }
  rewrite Z2Nat.id by assumption. exact Hi.
Qed.

Lemma lookup_map_seq {B} (f : nat -> B) (n i : nat) :
  map f (seq 0 n) !! i = if decide (i < n)%nat then Some (f i) else None.
Proof.
  rewrite map_fmap, list_lookup_fmap.
  destruct (decide (i < n)%nat) as [Hi|Hi].
  - now rewrite lookup_seq_lt.
  - rewrite lookup_seq_ge by lia. reflexivity.
Qed.

Lemma offsets_unfold (c : MotionBlurConfig) (d : Q) :
  calculateSubframeOffsets c d
  = map (fun i : nat =>
           (shutterPhase c ⊘ 360) ⊗ d
           ⊕ (if Js.strict_eq (samples c) 1 then 1 # 2
              else inject_Z (Z.of_nat i) ⊘ (samples c ⊖ 1))
             ⊗ (d ⊗ (shutterAngle c ⊘ 360))
           ⊖ (d ⊗ (shutterAngle c ⊘ 360)) ⊘ 2)
      (seq 0 (loop_fuel (samples c))).
Proof. unfold calculateSubframeOffsets. now rewrite push_loop_spec. Qed.

Lemma inject_nat_S (i : nat) :
  inject_Z (Z.of_nat (S i)) == inject_Z (Z.of_nat i) + 1.
Proof. rewrite Nat2Z.inj_succ. unfold Z.succ. now rewrite inject_Z_plus. Qed.



Lemma inject_nat_nonneg (i : nat) : 0 <= inject_Z (Z.of_nat i).
Proof. change 0 with (inject_Z 0). rewrite <- Zle_Qle. lia. Qed.

Lemma inject_nat_le (i j : nat) :
  (i <= j)%nat -> inject_Z (Z.of_nat i) <= inject_Z (Z.of_nat j).
Proof. intros Hij. rewrite <- Zle_Qle. lia. Qed.

(** A sample count that is a whole number from 1 to 64, as a [nat]. *)
Lemma samples_nat (s : Q) :
  Js.is_integer s -> 1 <= s <= 64 ->
  inject_Z (Z.of_nat (loop_fuel s)) == s /\ (1 <= loop_fuel s <= 64)%nat.
Proof.
  intros Hi [Hlo Hhi].
  assert (inject_Z (Z.of_nat (loop_fuel s)) == s) as Hk
    by (apply loop_fuel_integer; [exact Hi | lra]).
  split; [exact Hk|].
  rewrite <- Hk in Hlo, Hhi.
  change 1 with (inject_Z 1) in Hlo. change 64 with (inject_Z 64) in Hhi.
  rewrite <- Zle_Qle in Hlo, Hhi. lia.
Qed.


(** *** The position of a sample within the exposure *)



(** *** The error of one offset *)


(** Rounding a value of magnitude at most [r]. *)
Lemma binary64_near (x r : Q) :
  Qabs x <= r ->
  Qabs (Js.binary64 x - x) <= Js.unit_roundoff * r
  /\ Qabs (Js.binary64 x) <= (1 + Js.unit_roundoff) * r.
Proof.
  intros Hx. pose proof (binary64_error x) as He.
  assert (Js.unit_roundoff * Qabs x <= Js.unit_roundoff * r) as Hur.
  { rewrite !(Qmult_comm Js.unit_roundoff).
    apply Qmult_le_compat_r; [exact Hx | discriminate]. }
  split; [lra|].
  assert (Js.binary64 x == (Js.binary64 x - x) + x) as -> by ring.
  eapply Qle_trans; [apply Qabs_triangle|]. lra.
Qed.





(** ** Sub-frame weights *)

Lemma Qdiv_le_mono (a b D : Q) : 0 < D -> a <= b -> a / D <= b / D.
Proof.
  intros HD Hab. unfold Qdiv. apply Qmult_le_compat_r; [assumption|].
  apply Qlt_le_weak, Qinv_lt_0_compat, HD.
Qed.

Lemma Qdiv_pos (a D : Q) : 0 < a -> 0 < D -> 0 < a / D.
Proof.
  intros Ha HD. unfold Qdiv. apply Qmult_lt_0_compat; [assumption|].
  apply Qinv_lt_0_compat, HD.
Qed.

Lemma Qdiv_nonneg' (a D : Q) : 0 <= a -> 0 < D -> 0 <= a / D.
Proof.
  intros Ha HD. unfold Qdiv. apply Qmult_le_0_compat; [assumption|].
  apply Qlt_le_weak, Qinv_lt_0_compat, HD.
Qed.

Lemma lt_true_iff (x y : Q) : Js.lt x y = true <-> x < y.
Proof.
  unfold Js.lt. rewrite negb_true_iff. split.
  - intros Hb. destruct (Qlt_le_dec x y) as [|Hle]; [assumption|].
    apply Qle_bool_iff in Hle. congruence.
  - intros Hlt. destruct (Qle_bool y x) eqn:E; [|reflexivity].
    apply Qle_bool_iff in E. lra.
Qed.

Lemma lt_false_iff (x y : Q) : Js.lt x y = false <-> y <= x.
Proof.
  unfold Js.lt. rewrite negb_false_iff. apply Qle_bool_iff.
Qed.

(** The reference [Math.exp] has the properties of the exponential that the
    weights rely on. *)
Lemma rational_exp_pos (x : Q) : 0 < rational_exp x.
Proof.
  unfold rational_exp. destruct (Js.lt x 0) eqn:E.
  - apply lt_true_iff in E. apply Qdiv_pos; lra.
  - apply lt_false_iff in E. lra.
Qed.

Lemma rational_exp_neg_le_1 (x : Q) : x < 0 -> 1 / (1 - x) <= 1.
Proof. intros Hx. apply Qle_shift_div_r; lra. Qed.

Lemma rational_exp_mono (x y : Q) : x <= y -> rational_exp x <= rational_exp y.
Proof.
  intros Hxy. unfold rational_exp.
  destruct (Js.lt x 0) eqn:Ex, (Js.lt y 0) eqn:Ey;
    try apply lt_true_iff in Ex; try apply lt_false_iff in Ex;
    try apply lt_true_iff in Ey; try apply lt_false_iff in Ey.
  - apply Qle_shift_div_l; [lra|].
    assert (1 / (1 - x) * (1 - y) == (1 - y) / (1 - x)) as -> by (field; lra).
    apply Qle_shift_div_r; lra.
  - pose proof (rational_exp_neg_le_1 x Ex). lra.
  - lra.
  - lra.
Qed.

Lemma rational_exp_zero : rational_exp 0 == 1.
Proof. reflexivity. Qed.

Lemma rational_exp_peak (x : Q) :
  -2 <= x <= - (1 # 512) -> rational_exp x <= 1023 # 1024.
Proof.
  intros [_ Hx]. unfold rational_exp.
  assert (Js.lt x 0 = true) as -> by (apply lt_true_iff; lra).
  apply Qle_shift_div_r; lra.
Qed.

(** *** Sums in double arithmetic *)

Lemma sum_weights_snoc (l : list Q) (x : Q) :
  sum_weights (l ++ [x]) = sum_weights l ⊕ x.
Proof. unfold sum_weights. now rewrite foldl_app. Qed.

Lemma exact_sum_app (l l' : list Q) :
  exact_sum (l ++ l') == exact_sum l + exact_sum l'.
Proof.
  induction l as [|a l IH]; cbn [app exact_sum foldr].
  - fold (exact_sum l'). ring.
  - fold (exact_sum (l ++ l')) (exact_sum l). rewrite IH. ring.
Qed.

Lemma exact_sum_snoc (l : list Q) (x : Q) :
  exact_sum (l ++ [x]) == exact_sum l + x.
Proof. rewrite exact_sum_app. cbn. ring. Qed.

Lemma exact_sum_cons (x : Q) (l : list Q) :
  exact_sum (x :: l) = x + exact_sum l.
Proof. reflexivity. Qed.

Lemma exact_sum_nonneg (l : list Q) :
  Forall (fun x => 0 <= x) l -> 0 <= exact_sum l.
Proof.
  induction 1 as [|x l Hx _ IH]; [cbn; lra|]. cbn beta in Hx.
  rewrite exact_sum_cons. lra.
Qed.

Lemma exact_sum_pos (l : list Q) :
  Forall (fun x => 0 < x) l -> l <> [] -> 0 < exact_sum l.
Proof.
  intros Hl Hne. destruct Hl as [|x l Hx Hl]; [contradiction|].
  rewrite exact_sum_cons.
  assert (0 <= exact_sum l); [|lra].
  apply exact_sum_nonneg. eapply Forall_impl; [exact Hl|].
  intros a Ha. cbn in Ha. lra.
Qed.

(** The sum of at most 64 non-negative numbers, added up from the left in
    double arithmetic, is within [2^-46] (relative) of their exact sum. *)
Lemma sum_weights_bound (l : list Q) (M : Q) :
  Forall (fun x => 0 <= x) l -> (length l <= 64)%nat -> exact_sum l <= M ->
  Qabs (sum_weights l - exact_sum l)
  <= inject_Z (Z.of_nat (length l)) * ((1 # 4503599627370496) * M).
Proof.
  induction l as [|x l IH] using rev_ind; intros Hl Hlen HM.
  - change (Qabs (0 - 0) <= 0 * ((1 # 4503599627370496) * M)).
    change (Qabs (0 - 0)) with 0. lra.
  - apply Forall_app in Hl as [Hl Hx]. apply Forall_inv in Hx.
    cbn beta in Hx.
    rewrite length_app in *. cbn [length] in *.
    rewrite exact_sum_snoc in HM. rewrite exact_sum_snoc.
    pose proof (exact_sum_nonneg l Hl) as HT.
    assert (0 <= M) as HM0 by lra.
    specialize (IH Hl ltac:(lia) ltac:(lra)).
    rewrite sum_weights_snoc.
    replace (length l + 1)%nat with (S (length l)) by lia.
    rewrite inject_nat_S.
    pose proof (inject_nat_nonneg (length l)) as Hk0.
    assert (inject_Z (Z.of_nat (length l)) <= 64) as Hk64.
    { change 64 with (inject_Z (Z.of_nat 64)). apply inject_nat_le. lia. }
    set (c := (1 # 4503599627370496) * M) in *.
    assert (0 <= c) as Hc by (unfold c; lra).
    assert (inject_Z (Z.of_nat (length l)) * c <= 64 * c) as Hkc
      by (apply Qmult_le_compat_r; assumption).
    set (X := inject_Z (Z.of_nat (length l)) * c) in *.
    assert ((inject_Z (Z.of_nat (length l)) + 1) * c == X + c) as ->
      by (unfold X; ring).
    apply Qabs_Qle_condition in IH.
    set (s := sum_weights l) in *. set (T := exact_sum l) in *.
    pose proof (binary64_bounds (s + x)) as Hb. fold (s ⊕ x) in Hb.
    assert (Qabs (s + x) <= T + x + 64 * c) as Ha.
    { apply Qabs_Qle_condition. lra. }
    assert (Js.unit_roundoff * Qabs (s + x)
            <= Js.unit_roundoff * (T + x + 64 * c)) as Hu.
    { rewrite !(Qmult_comm Js.unit_roundoff).
      apply Qmult_le_compat_r; [exact Ha | discriminate]. }
    apply Qabs_Qle_condition.
    unfold Js.unit_roundoff, c in *. lra.
Qed.

Lemma sum_weights_error (l : list Q) :
  Forall (fun x => 0 <= x) l -> (length l <= 64)%nat ->
  Qabs (sum_weights l - exact_sum l) <= (1 # 70368744177664) * exact_sum l.
Proof.
  intros Hl Hlen.
  pose proof (sum_weights_bound l (exact_sum l) Hl Hlen (Qle_refl _)) as H.
  pose proof (exact_sum_nonneg l Hl) as HT.
  assert (inject_Z (Z.of_nat (length l)) <= 64) as Hk64.
  { change 64 with (inject_Z (Z.of_nat 64)). apply inject_nat_le. lia. }
  set (c := (1 # 4503599627370496) * exact_sum l) in *.
  assert (0 <= c) as Hc by (unfold c; lra).
  assert (inject_Z (Z.of_nat (length l)) * c <= 64 * c) as Hkc
    by (apply Qmult_le_compat_r; assumption).
  unfold c in *. lra.
Qed.

(** Dividing every number of a list by [S], in double arithmetic. *)
Lemma normalized_sum_error (l : list Q) (S : Q) :
  Forall (fun x => 0 <= x) l -> 0 < S ->
  Qabs (exact_sum (map (fun w => w ⊘ S) l) - exact_sum l / S)
  <= Js.unit_roundoff * (exact_sum l / S).
Proof.
  intros Hl HS. induction Hl as [|x l Hx Hl IH]; cbn beta in *.
  - cbn. assert (0 - 0 / S == 0) as -> by (unfold Qdiv; ring).
    assert (0 / S == 0) as -> by (unfold Qdiv; ring). cbn. lra.
  - cbn [map]. rewrite !exact_sum_cons.
    assert ((x + exact_sum l) / S == x / S + exact_sum l / S) as ->
      by (unfold Qdiv; ring).
    pose proof (binary64_bounds (x / S)) as Hb. fold (x ⊘ S) in Hb.
    rewrite (Qabs_pos (x / S)) in Hb by now apply Qdiv_nonneg'.
    apply Qabs_Qle_condition in IH. apply Qabs_Qle_condition. lra.
Qed.

(** *** Normalising positive raw weights *)

Lemma normalize_spec (raw : list Q) :
  Forall (fun x => 0 < x) raw -> (1 <= length raw <= 64)%nat ->
  let S := sum_weights raw in
  let ws := map (fun w => w ⊘ S) raw in
  0 < S
  /\ length ws = length raw
  /\ (forall i w, ws !! i = Some w ->
        exists g, raw !! i = Some g /\ w = g ⊘ S /\ 0 < w)
  /\ Qabs (exact_sum ws - 1) <= 1 # 17592186044416
  /\ Qabs (sum_weights ws - 1) <= 1 # 17592186044416.
Proof.
  intros Hpos Hlen S ws.
  assert (Forall (fun x => 0 <= x) raw) as Hnonneg.
  { eapply Forall_impl; [exact Hpos|]. intros a Ha. cbn in Ha. lra. }
  assert (raw <> []) as Hne by (intros ->; cbn in Hlen; lia).
  pose proof (exact_sum_pos raw Hpos Hne) as HT.
  pose proof (sum_weights_error raw Hnonneg (proj2 Hlen)) as HS.
  fold S in HS. apply Qabs_Qle_condition in HS.
  set (T := exact_sum raw) in *.
  assert (0 < S) as HS0 by lra.
  split; [exact HS0|].
  split; [unfold ws; now rewrite length_map|].
  assert (forall i w, ws !! i = Some w ->
            exists g, raw !! i = Some g /\ w = g ⊘ S /\ 0 < w) as Hget.
  { intros i w Hw. unfold ws in Hw. rewrite map_fmap, list_lookup_fmap in Hw.
    destruct (raw !! i) as [g|] eqn:Hg; [|discriminate].
    injection Hw as <-. exists g. split; [reflexivity|]. split; [reflexivity|].
    apply div_pos; [|exact HS0].
    exact (proj1 (Forall_lookup _ raw) Hpos i g Hg). }
  split; [exact Hget|].
  (* the quotient of the exact sum by the computed one is close to 1 *)
  set (r := T / S).
  assert (r * S == T) as Hr by (unfold r; field; lra).
  assert (0 < r) as Hr0 by (apply Qdiv_pos; assumption).
  assert ((1 - (1 # 70368744177664)) * r <= 1
          /\ 1 <= (1 + (1 # 70368744177664)) * r) as [Hr1 Hr2].
  { split.
    - apply (Qmult_le_r _ _ S HS0). rewrite <- Qmult_assoc, Hr. lra.
    - apply (Qmult_le_r _ _ S HS0). rewrite <- Qmult_assoc, Hr. lra. }
  pose proof (normalized_sum_error raw S Hnonneg HS0) as HW.
  fold ws T r in HW. apply Qabs_Qle_condition in HW.
  assert (Forall (fun x => 0 <= x) ws) as Hws.
  { apply Forall_lookup. intros i w Hw.
    destruct (Hget i w Hw) as (_ & _ & _ & H0). cbn. lra. }
  assert (length ws <= 64)%nat as Hwlen
    by (unfold ws; rewrite length_map; lia).
  pose proof (sum_weights_error ws Hws Hwlen) as HJ.
  apply Qabs_Qle_condition in HJ.
  unfold Js.unit_roundoff in *.
  split; apply Qabs_Qle_condition; lra.
Qed.

Lemma sum_weights_ones (k : nat) :
  (k <= 64)%nat ->
  sum_weights (map (fun _ => 1) (seq 0 k)) == inject_Z (Z.of_nat k).
Proof.
  induction k as [|k IH]; intros Hk.
  - reflexivity.
  - rewrite seq_S, map_app. cbn [map]. rewrite sum_weights_snoc.
    rewrite IH by lia. change 1 with (inject_Z 1) at 1.
    rewrite add_integers by lia. rewrite Nat2Z.inj_succ. reflexivity.
Qed.

Lemma repeat_map_seq {A} (a : A) (j k : nat) :
  repeat a k = map (fun _ => a) (seq j k).
Proof.
  revert j. induction k as [|k IH]; intros j; cbn; [reflexivity|].
  now rewrite (IH (S j)).
Qed.

Lemma inject_nat_odd (m : nat) :
  inject_Z (Z.of_nat (2 * m + 1)) == 2 * inject_Z (Z.of_nat m) + 1.
Proof.
  rewrite Nat2Z.inj_add, Nat2Z.inj_mul, inject_Z_plus, inject_Z_mult.
  reflexivity.
Qed.

Lemma box_weights_unfold (s : Q) :
  Js.is_integer s -> 1 <= s <= 64 ->
  calculateBoxWeights s = Some (map (fun _ => 1) (seq 0 (loop_fuel s))).
Proof.
  intros Hi Hs. unfold calculateBoxWeights, Js.Array_fill.
  assert (Js.is_integerb s = true) as ->.
  { unfold Js.is_integerb. now apply Qeq_eq_bool. }
  assert (Qle_bool 0 s = true) as -> by (apply Qle_bool_iff; lra).
  assert (Js.lt s 4294967296 = true) as -> by (apply lt_true_iff; lra).
  cbn [andb]. f_equal.
  assert (Z.to_nat (Qfloor s) = loop_fuel s) as ->.
  { unfold loop_fuel. unfold Js.is_integer in Hi.
    now rewrite <- (Qceiling_comp _ _ Hi), Qceiling_Z. }
  apply repeat_map_seq.
Qed.

(** Two quotients by the same positive number stay apart after rounding
    when the dividends are apart by one part in 1024. *)
Lemma div_lt_separated (x y S : Q) :
  0 < S -> 0 <= x -> 0 < y -> x <= (1023 # 1024) * y -> x ⊘ S < y ⊘ S.
Proof.
  intros HS Hx Hy Hxy.
  assert (0 <= x / S) as HX by now apply Qdiv_nonneg'.
  assert (0 < y / S) as HY by now apply Qdiv_pos.
  assert (x / S <= (1023 # 1024) * (y / S)) as Hq.
  { assert ((1023 # 1024) * (y / S) == ((1023 # 1024) * y) / S) as ->
      by (unfold Qdiv; ring).
    now apply Qdiv_le_mono. }
  pose proof (binary64_bounds_nonneg (x / S) HX) as [_ Hbx].
  pose proof (binary64_bounds_nonneg (y / S) (Qlt_le_weak _ _ HY)) as [Hby _].
  unfold Js.div, Js.unit_roundoff in *. lra.
Qed.

(** *** The raw weights of the triangle and gaussian curves *)

Section RawWeights.

Context `{MathLib}.
Hypothesis exp_pos : forall x, -2 <= x <= 0 -> 0 < Math_exp x.
Hypothesis exp_mono :
  forall x y, -2 <= x <= y -> y <= 0 -> Math_exp x <= Math_exp y.
Hypothesis exp_zero : Math_exp 0 == 1.
Hypothesis exp_peak :
  forall x, -2 <= x <= - (1 # 512) -> Math_exp x <= 1023 # 1024.

Variable s : Q.
Variable k : nat.
Hypothesis s_k : inject_Z (Z.of_nat k) == s.
Hypothesis k_range : (1 <= k <= 64)%nat.

Local Abbreviation triangle_raw i :=
  (1 ⊖ Js.Math_abs (inject_Z (Z.of_nat i) ⊖ (s ⊖ 1) ⊘ 2) ⊘ (s ⊘ 2)).

Local Abbreviation gaussian_arg i :=
  (- ((inject_Z (Z.of_nat i) ⊖ (s ⊖ 1) ⊘ 2)
      ⊗ (inject_Z (Z.of_nat i) ⊖ (s ⊖ 1) ⊘ 2))
   ⊘ (2 ⊗ (s ⊘ 4) ⊗ (s ⊘ 4))).

Local Abbreviation gaussian_raw i := (Math_exp (gaussian_arg i)).

(** Twice the distance of index [i] from the centre, with its sign: the
    centre [(samples - 1) / 2] and the differences [i - center] are
    half-integers, which the code computes without rounding. *)
Local Abbreviation twice_deviation i :=
  (2 * Z.of_nat i + 1 - Z.of_nat k)%Z.

Lemma s_range : 1 <= s <= 64.
Proof.
  rewrite <- s_k. change 1 with (inject_Z 1) at 1.
  change 64 with (inject_Z 64). rewrite <- !Zle_Qle. lia.
Qed.

Lemma deviation_exact (i : nat) :
  (i < k)%nat ->
  inject_Z (Z.of_nat i) ⊖ (s ⊖ 1) ⊘ 2 == inject_Z (twice_deviation i) / 2.
Proof.
  intros Hi.
  assert (s ⊖ 1 == inject_Z (Z.of_nat k - 1)) as ->.
  { rewrite <- s_k. change 1 with (inject_Z 1). apply sub_integers. lia. }
  rewrite div_2 by (apply is_double_inject_Z; lia).
  unfold Js.sub.
  assert (inject_Z (Z.of_nat i) - inject_Z (Z.of_nat k - 1) / 2
          == inject_Z (twice_deviation i) / 2) as ->.
  { unfold Z.sub.
    rewrite !inject_Z_plus, !inject_Z_opp, inject_Z_mult. field. }
  apply is_double_half, is_double_inject_Z. lia.
Qed.

Lemma triangle_raw_eq (i : nat) :
  (i < k)%nat ->
  triangle_raw i
  == Js.binary64 (1 - Js.binary64 (inject_Z (Z.abs (twice_deviation i)) / s)).
Proof.
  intros Hi. pose proof s_range as Hs.
  unfold Js.Math_abs. rewrite (deviation_exact i Hi).
  assert (s ⊘ 2 == s / 2) as ->.
  { apply div_2. rewrite <- s_k. apply is_double_inject_Z. lia. }
  unfold Js.sub at 1. unfold Js.div at 1.
  assert (Qabs (inject_Z (twice_deviation i) / 2) / (s / 2)
          == inject_Z (Z.abs (twice_deviation i)) / s) as ->; [|reflexivity].
  unfold Qdiv at 2. rewrite Qabs_Qmult.
  change (Qabs (/ 2)) with (1 # 2).
  change (Qabs (inject_Z (twice_deviation i)))
    with (inject_Z (Z.abs (twice_deviation i))).
  field. lra.
Qed.

Lemma triangle_raw_bounds (i : nat) :
  (i < k)%nat -> 1 # 64 <= triangle_raw i <= 1.
Proof.
  intros Hi. pose proof s_range as Hs. rewrite (triangle_raw_eq i Hi).
  set (a := inject_Z (Z.abs (twice_deviation i))).
  assert (0 <= a) as Ha0.
  { unfold a. change 0 with (inject_Z 0). rewrite <- Zle_Qle. lia. }
  assert (a <= s - 1) as Ha1.
  { unfold a. rewrite <- s_k. change 1 with (inject_Z 1).
    unfold Qminus. rewrite <- inject_Z_opp, <- inject_Z_plus, <- Zle_Qle. lia. }
  assert (0 <= a / s <= 63 # 64) as [Hq0 Hq1].
  { split; [apply Qdiv_nonneg'; lra|]. apply Qle_shift_div_r; lra. }
  assert (0 <= Js.binary64 (a / s) <= 63 # 64) as [Hb0 Hb1].
  { split; [now apply binary64_nonneg|].
    apply binary64_le_double; [exact Hq1|].
    apply (is_double_intro _ 63 (-6)); [lia | reflexivity]. }
  split.
  - apply binary64_ge_double; [lra|].
    apply (is_double_intro _ 1 (-6)); [lia | reflexivity].
  - apply binary64_le_double; [lra|].
    apply (is_double_inject_Z 1). lia.
Qed.

Lemma triangle_raw_shape (m i j : nat) :
  k = (2 * m + 1)%nat -> (j < k)%nat ->
  ((i <= j <= m)%nat -> triangle_raw i <= triangle_raw j)
  /\ ((m <= i <= j)%nat -> triangle_raw j <= triangle_raw i).
Proof.
  intros Hm Hj. pose proof s_range as Hs.
  assert (forall a b : nat, (a < k)%nat -> (b < k)%nat ->
            (Z.abs (twice_deviation b) <= Z.abs (twice_deviation a))%Z ->
            triangle_raw a <= triangle_raw b) as Hmono.
  { intros a b Ha Hb Hab. rewrite (triangle_raw_eq a Ha), (triangle_raw_eq b Hb).
    apply binary64_mono.
    assert (Js.binary64 (inject_Z (Z.abs (twice_deviation b)) / s)
            <= Js.binary64 (inject_Z (Z.abs (twice_deviation a)) / s));
      [|lra].
    apply binary64_mono, Qdiv_le_mono; [lra|]. now rewrite <- Zle_Qle. }
  split; intros [Hij Hjm]; apply Hmono; lia.
Qed.

Lemma triangle_raw_peak (m i : nat) :
  k = (2 * m + 1)%nat -> (i < k)%nat ->
  triangle_raw m == 1 /\ (i <> m -> triangle_raw i <= 1023 # 1024).
Proof.
  intros Hm Hi. pose proof s_range as Hs. split.
  - rewrite (triangle_raw_eq m) by lia.
    replace (twice_deviation m) with 0%Z by lia.
    change (inject_Z (Z.abs 0)) with 0.
    assert (0 / s == 0) as -> by (unfold Qdiv; ring). reflexivity.
  - intros Hne. rewrite (triangle_raw_eq i Hi).
    set (a := inject_Z (Z.abs (twice_deviation i))).
    assert (2 <= a) as Ha.
    { unfold a. change 2 with (inject_Z 2). rewrite <- Zle_Qle. lia. }
    assert (1 # 32 <= a / s) as Hq by (apply Qle_shift_div_l; lra).
    assert (1 # 32 <= Js.binary64 (a / s)) as Hb.
    { apply binary64_ge_double; [exact Hq|].
      apply (is_double_intro _ 1 (-5)); [lia | reflexivity]. }
    apply Qle_trans with (31 # 32); [|discriminate].
    apply binary64_le_double; [lra|].
    apply (is_double_intro _ 31 (-5)); [lia | reflexivity].
Qed.

(** The argument of [Math.exp]: the square and the products are computed
    without rounding, the quotient is rounded once. *)
Lemma gaussian_arg_eq (i : nat) :
  (i < k)%nat ->
  gaussian_arg i
  = Js.binary64
      (- (2 * inject_Z (twice_deviation i * twice_deviation i) / (s * s))).
Proof.
  intros Hi. pose proof s_range as Hs.
  unfold Js.div at 1. unfold Js.binary64. apply round_to_comp.
  rewrite (deviation_exact i Hi).
  assert (inject_Z (twice_deviation i) / 2 ⊗ (inject_Z (twice_deviation i) / 2)
          == inject_Z (twice_deviation i * twice_deviation i) / 4) as ->.
  { unfold Js.mul.
    assert (inject_Z (twice_deviation i) / 2 * (inject_Z (twice_deviation i) / 2)
            == inject_Z (twice_deviation i * twice_deviation i) / 4) as ->
      by (rewrite inject_Z_mult; field).
    apply (is_double_intro _ (twice_deviation i * twice_deviation i) (-2));
      [nia | cbn; field]. }
  assert (s ⊘ 4 == s / 4) as ->.
  { unfold Js.div. apply (is_double_intro _ (Z.of_nat k) (-2)); [lia|].
    rewrite <- s_k. cbn. field. }
  assert (2 ⊗ (s / 4) == s / 2) as ->.
  { unfold Js.mul. assert (2 * (s / 4) == s / 2) as -> by field.
    apply (is_double_intro _ (Z.of_nat k) (-1)); [lia|].
    rewrite <- s_k. cbn. field. }
  assert (s / 2 ⊗ (s / 4) == s * s / 8) as ->.
  { unfold Js.mul. assert (s / 2 * (s / 4) == s * s / 8) as -> by field.
    apply (is_double_intro _ (Z.of_nat k * Z.of_nat k) (-3)); [nia|].
    rewrite <- s_k, inject_Z_mult. cbn. field. }
  field. lra.
Qed.

Lemma gaussian_quotient_bounds (z : Z) :
  (Z.abs z < Z.of_nat k)%Z -> 0 <= 2 * inject_Z (z * z) / (s * s) <= 2.
Proof.
  intros Hz. pose proof s_range as Hs.
  assert (0 < s * s) as Hss by nra.
  assert (0 <= inject_Z (z * z)) as H0.
  { change 0 with (inject_Z 0). rewrite <- Zle_Qle. nia. }
  assert (inject_Z (z * z) <= s * s) as H1.
  { rewrite <- s_k, <- inject_Z_mult, <- Zle_Qle. nia. }
  split.
  - apply Qdiv_nonneg'; lra.
  - apply Qle_shift_div_r; lra.
Qed.

Lemma gaussian_arg_range (i : nat) :
  (i < k)%nat -> -2 <= gaussian_arg i <= 0.
Proof.
  intros Hi. rewrite (gaussian_arg_eq i Hi).
  destruct (gaussian_quotient_bounds (twice_deviation i)) as [H0 H2]; [lia|].
  split.
  - apply binary64_ge_double; [lra|]. apply (is_double_inject_Z (-2)). lia.
  - apply binary64_nonpos. lra.
Qed.

Lemma gaussian_raw_pos (i : nat) : (i < k)%nat -> 0 < gaussian_raw i.
Proof. intros Hi. apply exp_pos, gaussian_arg_range, Hi. Qed.

Lemma gaussian_raw_shape (m i j : nat) :
  k = (2 * m + 1)%nat -> (j < k)%nat ->
  ((i <= j <= m)%nat -> gaussian_raw i <= gaussian_raw j)
  /\ ((m <= i <= j)%nat -> gaussian_raw j <= gaussian_raw i).
Proof.
  intros Hm Hj. pose proof s_range as Hs.
  assert (0 < s * s) as Hss by nra.
  assert (forall a b : nat, (a < k)%nat -> (b < k)%nat ->
            (Z.abs (twice_deviation b) <= Z.abs (twice_deviation a))%Z ->
            gaussian_raw a <= gaussian_raw b) as Hmono.
  { intros a b Ha Hb Hab.
    apply exp_mono; [|apply gaussian_arg_range, Hb].
    split; [apply gaussian_arg_range, Ha|].
    rewrite (gaussian_arg_eq a Ha), (gaussian_arg_eq b Hb).
    apply binary64_mono.
    assert (2 * inject_Z (twice_deviation b * twice_deviation b) / (s * s)
            <= 2 * inject_Z (twice_deviation a * twice_deviation a) / (s * s));
      [|lra].
    apply Qdiv_le_mono; [exact Hss|].
    assert (inject_Z (twice_deviation b * twice_deviation b)
            <= inject_Z (twice_deviation a * twice_deviation a));
      [rewrite <- Zle_Qle; nia | lra]. }
  split; intros [Hij Hjm]; apply Hmono; lia.
Qed.

Lemma gaussian_raw_peak (m i : nat) :
  k = (2 * m + 1)%nat -> (i < k)%nat ->
  gaussian_raw m == 1 /\ (i <> m -> gaussian_raw i <= 1023 # 1024).
Proof.
  intros Hm Hi. pose proof s_range as Hs.
  assert (0 < s * s) as Hss by nra. split.
  - rewrite (gaussian_arg_eq m) by lia.
    replace (twice_deviation m) with 0%Z by lia.
    unfold Js.binary64. rewrite round_to_zero; [exact exp_zero|].
    change (inject_Z (0 * 0)) with 0. unfold Qdiv. ring.
  - intros Hne. apply exp_peak.
    split; [apply gaussian_arg_range, Hi|].
    rewrite (gaussian_arg_eq i Hi).
    apply binary64_le_double;
      [|apply is_double_opp, (is_double_intro _ 1 (-9)); [lia | reflexivity]].
    assert (1 # 512
            <= 2 * inject_Z (twice_deviation i * twice_deviation i) / (s * s));
      [|lra].
    apply Qle_shift_div_l; [exact Hss|].
    assert (4 <= inject_Z (twice_deviation i * twice_deviation i)) as H4.
    { change 4 with (inject_Z 4). rewrite <- Zle_Qle. nia. }
    assert (s * s <= 4096) by nra. lra.
Qed.

End RawWeights.

Section WeightsSpec.

Context `{MathLib}.
Hypothesis exp_pos : forall x, -2 <= x <= 0 -> 0 < Math_exp x.
Hypothesis exp_mono :
  forall x y, -2 <= x <= y -> y <= 0 -> Math_exp x <= Math_exp y.
Hypothesis exp_zero : Math_exp 0 == 1.
Hypothesis exp_peak :
  forall x, -2 <= x <= - (1 # 512) -> Math_exp x <= 1023 # 1024.

(** The raw weights of every curve, before they are normalised. *)
Lemma raw_weights (c : MotionBlurConfig) :
  Js.is_integer (samples c) -> 1 <= samples c <= 64 ->
  let n := loop_fuel (samples c) in
  exists g : nat -> Q,
    calculateSubframeWeights c
    = Some (map (fun w => w ⊘ sum_weights (map g (seq 0 n)))
              (map g (seq 0 n)))
    /\ (forall i, (i < n)%nat -> 0 < g i)
    /\ (forall m i j, n = (2 * m + 1)%nat -> (j < n)%nat ->
          ((i <= j <= m)%nat -> g i <= g j)
          /\ ((m <= i <= j)%nat -> g j <= g i))
    /\ (forall m i, n = (2 * m + 1)%nat -> (i < n)%nat ->
          g m == 1 /\ (shutterCurve c <> box -> i <> m -> g i <= 1023 # 1024))
    /\ (shutterCurve c = box -> forall i, g i = 1).
Proof.
  intros Hi Hs n.
  destruct (samples_nat _ Hi Hs) as [Hk Hn]. fold n in Hk, Hn.
  unfold calculateSubframeWeights. destruct (shutterCurve c).
  - exists (fun _ => 1). rewrite box_weights_unfold by assumption. fold n.
    split; [reflexivity|]. split; [intros; lra|]. split; [|split].
    + intros m i j _ _. split; intros _; lra.
    + intros m i _ _. split; [reflexivity | congruence].
    + reflexivity.
  - eexists. unfold calculateTriangleWeights.
    rewrite push_loop_spec by reflexivity. fold n.
    split; [reflexivity|]. cbn beta. split; [|split; [|split]].
    + intros i Hlt.
      pose proof (triangle_raw_bounds (samples c) n Hk Hn i Hlt). lra.
    + intros m i j. apply (triangle_raw_shape (samples c) n Hk Hn).
    + intros m i Hm Hlt.
      destruct (triangle_raw_peak (samples c) n Hk Hn m i Hm Hlt) as [H1 H2].
      split; [exact H1 | intros _; exact H2].
    + discriminate.
  - eexists. unfold calculateGaussianWeights.
    rewrite push_loop_spec by reflexivity. fold n.
    split; [reflexivity|]. cbn beta. split; [|split; [|split]].
    + intros i. apply (gaussian_raw_pos exp_pos (samples c) n Hk Hn).
    + intros m i j. apply (gaussian_raw_shape exp_mono (samples c) n Hk Hn).
    + intros m i Hm Hlt.
      destruct (gaussian_raw_peak exp_zero exp_peak (samples c) n Hk Hn
                  m i Hm Hlt) as [H1 H2].
      split; [exact H1 | intros _; exact H2].
    + discriminate.
Qed.

(** C6: for a configuration whose sample count is an integer from 1 to 64
    (every resolved configuration), and a [Math.exp] that between -2 and 0
    is positive and non-decreasing, gives 1 at 0 and at most 1023/1024 up
    to -1/512, [calculateSubframeWeights] returns [samples] weights, all
    positive; their sum is 1 within [2^-44], both the exact sum and the sum
    in double arithmetic; box weights all equal the quotient [1 / samples]
    of double arithmetic, which is [1 / samples] within a relative [2^-53];
    a single sample has weight 1 whatever the curve; for an odd sample count
    [2 m + 1] the weights do not decrease up to the middle index [m] and do
    not increase after it; and for the triangle and gaussian curves the
    middle weight is strictly greater than every other weight. *)
Theorem calculateSubframeWeights_spec (c : MotionBlurConfig) :
  Js.is_integer (samples c) -> 1 <= samples c <= 64 ->
  exists weights,
    calculateSubframeWeights c = Some weights
    /\ inject_Z (Z.of_nat (length weights)) == samples c
    /\ (forall i w, weights !! i = Some w -> 0 < w)
    /\ Qabs (exact_sum weights - 1) <= 1 # 17592186044416
    /\ Qabs (sum_weights weights - 1) <= 1 # 17592186044416
    /\ (shutterCurve c = box ->
        forall i w, weights !! i = Some w ->
          w == 1 ⊘ samples c
          /\ Qabs (w - 1 / samples c) <= Js.unit_roundoff * (1 / samples c))
    /\ (samples c == 1 -> forall i w, weights !! i = Some w -> w == 1)
    /\ (forall m i j wi wj, length weights = (2 * m + 1)%nat ->
          weights !! i = Some wi -> weights !! j = Some wj ->
          ((i <= j <= m)%nat -> wi <= wj) /\ ((m <= i <= j)%nat -> wj <= wi))
    /\ (shutterCurve c <> box ->
        forall m i wi wm, length weights = (2 * m + 1)%nat -> i <> m ->
          weights !! i = Some wi -> weights !! m = Some wm -> wi < wm).
Proof.
  intros Hi Hs.
  destruct (samples_nat _ Hi Hs) as [Hk Hn].
  destruct (raw_weights c Hi Hs) as (g & Heq & Hpos & Hshape & Hpeak & Hbox).
  set (n := loop_fuel (samples c)) in *.
  set (raw := map g (seq 0 n)) in *.
  assert (length raw = n) as Hrawlen
    by (unfold raw; now rewrite length_map, length_seq).
  assert (forall i x, raw !! i = Some x -> (i < n)%nat /\ x = g i) as Hraw.
  { intros i x Hx. unfold raw in Hx. rewrite lookup_map_seq in Hx.
    destruct (decide (i < n)%nat); [|discriminate].
    injection Hx as <-. now split. }
  assert (Forall (fun x => 0 < x) raw) as Hrawpos.
  { apply Forall_lookup. intros i x Hx.
    destruct (Hraw i x Hx) as [Hlt ->]. now apply Hpos. }
  destruct (normalize_spec raw Hrawpos ltac:(lia))
    as (HS & Hlen & Hget & Hsum & Hjs).
  set (S := sum_weights raw) in *.
  set (ws := map (fun w => w ⊘ S) raw) in *.
  assert (forall i w, ws !! i = Some w ->
            (i < n)%nat /\ w = g i ⊘ S /\ 0 < w) as Hw.
  { intros i w Hiw. destruct (Hget i w Hiw) as (x & Hx & -> & Hpos').
    destruct (Hraw i x Hx) as [Hlt ->]. now repeat split. }
  exists ws. split; [exact Heq|].
  split; [now rewrite Hlen, Hrawlen|].
  split; [intros i w Hiw; now destruct (Hw i w Hiw) as (_ & _ & ?)|].
  split; [exact Hsum|]. split; [exact Hjs|].
  split; [|split; [|split]].
  - intros Hb i w Hiw. destruct (Hw i w Hiw) as (_ & -> & _).
    rewrite (Hbox Hb).
    assert (S == samples c) as ->.
    { rewrite <- Hk. unfold S, raw.
      assert (map g (seq 0 n) = map (fun _ => 1) (seq 0 n)) as ->.
      { apply map_ext. intros a. apply Hbox, Hb. }
      apply sum_weights_ones. lia. }
    split; [reflexivity|].
    pose proof (binary64_error (1 / samples c)) as He.
    rewrite (Qabs_pos (1 / samples c)) in He by (apply Qdiv_nonneg'; lra).
    exact He.
  - intros H1 i w Hiw. destruct (Hw i w Hiw) as (Hlt & -> & _).
    assert (n = 1%nat) as Hn1.
    { assert (inject_Z (Z.of_nat n) == inject_Z (Z.of_nat 1)) as E
        by (rewrite Hk, H1; reflexivity).
      apply (proj1 (inject_Z_injective _ _)) in E. lia. }
    assert (i = 0%nat) as -> by lia.
    destruct (Hpeak 0%nat 0%nat) as [Hg0 _]; [lia | lia |].
    assert (S == 1) as ->.
    { unfold S, raw. rewrite Hn1. cbn [seq map]. unfold sum_weights.
      cbn [foldl]. rewrite Hg0. reflexivity. }
    rewrite Hg0. reflexivity.
  - intros m i j wi wj Hm Hiwi Hjwj.
    destruct (Hw i wi Hiwi) as (Hilt & -> & _).
    destruct (Hw j wj Hjwj) as (Hjlt & -> & _).
    rewrite Hlen, Hrawlen in Hm.
    destruct (Hshape m i j Hm Hjlt) as [Hup Hdown].
    split; intros Hij; apply div_mono_pos; auto.
  - intros Hc m i wi wm Hm Hne Hiwi Hmwm.
    destruct (Hw i wi Hiwi) as (Hilt & -> & _).
    destruct (Hw m wm Hmwm) as (Hmlt & -> & _).
    rewrite Hlen, Hrawlen in Hm.
    destruct (Hpeak m i Hm Hilt) as [Hgm Hgi].
    apply div_lt_separated; [exact HS | | |].
    + apply Qlt_le_weak, Hpos, Hilt.
    + apply Hpos, Hmlt.
    + rewrite Hgm. pose proof (Hgi Hc Hne). lra.
Qed.

End WeightsSpec.

Lemma calculateSubframeWeights_spec_witness :
  let c := resolveMotionBlurConfig (Some (opts_samples_5 gaussian)) in
  Js.is_integer (samples c) /\ 1 <= samples c <= 64
  /\ exists weights,
       @calculateSubframeWeights rational_math c = Some weights
       /\ Qabs (exact_sum weights - 1) <= 1 # 17592186044416
       /\ (forall i wi wm, i <> 2%nat ->
             weights !! i = Some wi -> weights !! 2%nat = Some wm -> wi < wm).
Proof.
  intros c.
  assert (Js.is_integer (samples c)) as Hi by (vm_compute; reflexivity).
  assert (1 <= samples c <= 64) as Hs by (split; vm_compute; discriminate).
  split; [exact Hi|]. split; [exact Hs|].
  destruct (@calculateSubframeWeights_spec rational_math
              (fun x _ => rational_exp_pos x)
              (fun x y Hxy _ => rational_exp_mono x y (proj2 Hxy))
              rational_exp_zero rational_exp_peak c Hi Hs)
    as (ws & Heq & Hlen & _ & Hsum & _ & _ & _ & _ & Hpeak).
  exists ws. split; [exact Heq|]. split; [exact Hsum|].
  intros i wi wm Hne Hiwi Hmwm.
  apply (Hpeak ltac:(discriminate) 2%nat i wi wm); try assumption.
  assert (inject_Z (Z.of_nat (length ws)) == inject_Z (Z.of_nat 5)) as E
    by (rewrite Hlen; vm_compute; reflexivity).
  apply (proj1 (inject_Z_injective _ _)) in E. lia.
Defined.
(** ** Adaptive sample count *)






Lemma adaptive_unfold (c : MotionBlurConfig) (v : Q) (threshold : option Q) :
  adaptiveSampling c = true -> ~ threshold ?? 50 == 0 ->
  calculateAdaptiveSamples c v threshold
  = Some (Qmax (adaptiveMinSamples c)
            (Js.Math_round
               (adaptiveMinSamples c
                ⊕ (samples c ⊖ adaptiveMinSamples c)
                  ⊗ Qmin 1 (v ⊘ (threshold ?? 50))))).
Proof.
  intros Ha Ht. unfold calculateAdaptiveSamples. rewrite Ha. cbn [negb].
  destruct (Js.strict_eq (threshold ?? 50) 0) eqn:E; [|reflexivity].
  apply Qeq_bool_iff in E. contradiction.
Qed.



(** In double arithmetic the interpolation rounds before [Math.round]
    does: [{samples: 26, adaptiveSampling: true, adaptiveMinSamples: 1}] at
    velocity 29 gives 15, where [1 + 25 * 29 / 50] is 15.5. *)
Example test_adaptive_rounding :
  calculateAdaptiveSamples
    (resolveMotionBlurConfig (Some opts_samples_26_adaptive_min_1)) 29 None
  = Some 15.
Proof. vm_compute. reflexivity. Qed.


(** ** The sub-frame loop *)
Section RenderLoop.

Context `{CanvasApi}.

Variable renderCallback : Js.number -> Stage -> Stage.

(** One sub-frame: the callback, then the accumulation of its result. *)
Local Abbreviation subframe :=
  (fun (st : Stage) (ow : Js.number * Js.number) =>
     accumulateMotionBlurSample (snd ow) (renderCallback (fst ow) st)).

Local Abbreviation subframe_calls :=
  (fun ow : Js.number * Js.number =>
     [CallRender (fst ow); CallAccumulate (snd ow)]).

Lemma array_get_lookup (xs : list Js.number) (i : nat) (x : Js.number) :
  xs !! i = Some x -> array_get xs i = x.
Proof. intros Hx. unfold array_get. now rewrite Hx. Qed.

Lemma for_await_subframes (offs ws : list Js.number) (n i : nat) (w : World) :
  (i + n = length offs)%nat -> length offs = length ws ->
  for_await n i
    (fun i =>
       bind (invoke (CallRender (array_get offs i))
               (renderCallback (array_get offs i)))
         (fun _ =>
            invoke (CallAccumulate (array_get ws i))
              (accumulateMotionBlurSample (array_get ws i))))
    w
  = (tt,
     {| stage := foldl subframe (stage w) (combine (drop i offs) (drop i ws));
        calls :=
          calls w
          ++ flat_map subframe_calls (combine (drop i offs) (drop i ws)) |}).
Proof.
  revert i w. induction n as [|n IH]; intros i w Hn Hlen.
  - rewrite !drop_ge by lia. cbn. rewrite app_nil_r. now destruct w.
  - destruct (lookup_lt_is_Some_2 offs i) as [o Ho]; [lia|].
    destruct (lookup_lt_is_Some_2 ws i) as [x Hx]; [lia|].
    cbn [for_await]. unfold bind at 1 2. unfold invoke at 1 2.
    rewrite (array_get_lookup _ _ _ Ho), (array_get_lookup _ _ _ Hx).
    rewrite IH by lia. cbn [stage calls].
    rewrite (drop_S _ _ _ Ho), (drop_S _ _ _ Hx).
    cbn [combine foldl flat_map fst snd]. f_equal. f_equal.
    rewrite <- !app_assoc. reflexivity.
Qed.

(** C8: [renderWithMotionBlur] does nothing at all (no call is made and the
    Stage is unchanged) when the offsets are empty or their number differs
    from the number of weights.  Otherwise it calls begin once, then for
    each index in increasing order the callback with that offset followed
    by accumulate with that weight, then finalize once; the Stage is
    changed by exactly these calls in this order. *)
Theorem renderWithMotionBlur_spec (offs ws : list Js.number) (w : World) :
  (offs = [] \/ length offs <> length ws ->
   renderWithMotionBlur renderCallback offs ws w = (tt, w))
  /\ (offs <> [] -> length offs = length ws ->
      renderWithMotionBlur renderCallback offs ws w
      = (tt,
         {| stage :=
              finalizeMotionBlur
                (foldl subframe
                   (beginMotionBlurAccumulation (stage w))
                   (combine offs ws));
            calls :=
              calls w ++ [CallBegin]
              ++ flat_map subframe_calls (combine offs ws)
              ++ [CallFinalize] |})).
Proof.
  unfold renderWithMotionBlur. split.
  - intros [-> | Hne]; [reflexivity|].
    apply Nat.eqb_neq in Hne. rewrite Hne. cbn [negb]. now rewrite orb_true_r.
  - intros Hne Hlen.
    assert ((length offs =? 0)%nat = false) as ->.
    { apply Nat.eqb_neq. destruct offs; [contradiction | cbn; lia]. }
    rewrite (proj2 (Nat.eqb_eq _ _) Hlen). cbn [negb orb].
    unfold bind at 1. unfold invoke at 1.
    unfold bind at 1. rewrite for_await_subframes by (cbn; lia).
    unfold invoke. cbn [stage calls]. rewrite !drop_0.
    f_equal. f_equal. rewrite <- !app_assoc. reflexivity.
Qed.

End RenderLoop.

(** ** The accumulation buffer *)

Lemma ToUint8Clamp_byte (z : Z) :
  (0 <= z <= 255)%Z -> Js.ToUint8Clamp (inject_Z z) = z.
Proof.
  intros Hz. unfold Js.ToUint8Clamp.
  destruct (Qle_bool (inject_Z z) 0) eqn:E0.
  { apply Qle_bool_iff in E0. change 0 with (inject_Z 0) in E0.
    rewrite <- Zle_Qle in E0. lia. }
  destruct (Qle_bool 255 (inject_Z z)) eqn:E1.
  { apply Qle_bool_iff in E1. change 255 with (inject_Z 255) in E1.
    rewrite <- Zle_Qle in E1. lia. }
  rewrite Qfloor_Z.
  assert (Js.lt (inject_Z z + (1 # 2)) (inject_Z z) = false) as ->
    by (apply lt_false_iff; lra).
  assert (Js.lt (inject_Z z) (inject_Z z + (1 # 2)) = true) as ->
    by (apply lt_true_iff; lra).
  reflexivity.
Qed.

Lemma round_clamp_byte (a : Q) :
  exists z, (0 <= z <= 255)%Z
    /\ Js.Math_round (Js.Math_min 255 (Js.Math_max 0 a)) = inject_Z z.
Proof.
  exists (Qfloor (Js.Math_min 255 (Js.Math_max 0 a) + (1 # 2))).
  split; [|reflexivity].
  assert (0 <= Js.Math_min 255 (Js.Math_max 0 a) <= 255) as Hr
    by (q_minmax; lra).
  generalize dependent (Js.Math_min 255 (Js.Math_max 0 a)). intros x Hx.
  split.
  - change 0%Z with (Qfloor 0). apply Qfloor_resp_le. lra.
  - assert (Qfloor (x + (1 # 2)) <= Qfloor (255 + (1 # 2)))%Z as Hle
      by (apply Qfloor_resp_le; lra).
    exact Hle.
Qed.

Lemma for_index_S {S : Type} (n : nat) (body : nat -> S -> S) (s : S) :
  for_index (Datatypes.S n) body s = body n (for_index n body s).
Proof. unfold for_index. now rewrite seq_S, foldl_app. Qed.

Lemma finalize_loop (buffer : list Q) (pixels : list Z) (n : nat) :
  (n <= length pixels)%nat ->
  let out := for_index n (finalize_pixel buffer) pixels in
  length out = length pixels
  /\ (forall i, (i < n)%nat ->
        out !! i
        = Some match buffer !! i with
               | Some a =>
                   Js.ToUint8Clamp
                     (Js.Math_round (Js.Math_min 255 (Js.Math_max 0 a)))
               | None => 0%Z
               end)
  /\ (forall i, (n <= i)%nat -> out !! i = pixels !! i).
Proof.
  induction n as [|n IH]; intros Hn; cbn zeta.
  - split; [reflexivity|]. split; [intros i Hi; lia | reflexivity].
  - rewrite for_index_S. destruct IH as (Hlen & Hlo & Hhi); [lia|].
    unfold finalize_pixel at 1 3 5. split; [|split].
    + now rewrite length_insert.
    + intros i Hi. destruct (decide (i = n)) as [->|Hne].
      * rewrite list_lookup_insert_eq by lia. reflexivity.
      * rewrite list_lookup_insert_ne by lia. apply Hlo. lia.
    + intros i Hi. rewrite list_lookup_insert_ne by lia. apply Hhi. lia.
Qed.

Section Finalize.

Context `{CanvasApi}.

(** C9: [finalizeMotionBlur] returns without touching anything when there
    is no accumulation buffer or the sample counter is 0.  Otherwise it
    writes, with [putImageData], a pixel array in which every channel that
    has an accumulated value holds that value clamped to [0, 255] and
    rounded to the nearest integer; nothing else in the Stage changes. *)
Theorem finalizeMotionBlur_spec (this : Stage) :
  (accumulationBuffer this = None \/ accumulationSamples this = 0%Z ->
   finalizeMotionBlur this = this)
  /\ (forall buffer,
        accumulationBuffer this = Some buffer ->
        accumulationSamples this <> 0%Z ->
        exists pixels,
          finalizeMotionBlur this
          = set_contexts (putImageData pixels (context this))
              (currentContext this) (previousContext this) this
          /\ length pixels
             = length
                 (createImageData (context this)
                    (Vector2.width (canvasSize this))
                    (Vector2.height (canvasSize this)))
          /\ (forall i a, (i < length pixels)%nat -> buffer !! i = Some a ->
                exists z, pixels !! i = Some z
                  /\ (0 <= z <= 255)%Z
                  /\ inject_Z z
                     == Js.Math_round
                          (Js.Math_min 255 (Js.Math_max 0 a)))).
Proof.
  split.
  - intros [Hb | Hn]; unfold finalizeMotionBlur.
    + now rewrite Hb.
    + rewrite Hn. now destruct (accumulationBuffer this).
  - intros buffer Hb Hn. unfold finalizeMotionBlur. rewrite Hb.
    apply Z.eqb_neq in Hn. rewrite Hn.
    set (blank := createImageData _ _ _).
    destruct (finalize_loop buffer blank (length blank) (le_n _))
      as (Hlen & Hlo & _).
    eexists. split; [reflexivity|]. split; [exact Hlen|].
    intros i a Hi Ha. rewrite Hlen in Hi. rewrite (Hlo i Hi), Ha.
    destruct (round_clamp_byte a) as (z & Hz & ->).
    exists z. rewrite (ToUint8Clamp_byte z Hz). repeat split; try lia.
Qed.

(** C10: [configure] never changes the sample counter; it leaves the
    accumulation buffer as it is when the size and the resolution scale it
    is given (or defaults to) equal the current ones, whatever else it
    changes, and sets the buffer to [null] when either differs. *)
Theorem configure_accumulation (settings : Settings.t) (this : Stage) :
  let size' := Settings.size settings ?? size this in
  let scale' := Settings.resolutionScale settings ?? resolutionScale this in
  let same :=
    Vector2.x size' == Vector2.x (size this)
    /\ Vector2.y size' == Vector2.y (size this)
    /\ scale' == resolutionScale this in
  accumulationSamples (configure settings this) = accumulationSamples this
  /\ (same ->
      accumulationBuffer (configure settings this) = accumulationBuffer this)
  /\ (~ same -> accumulationBuffer (configure settings this) = None).
Proof.
  intros size' scale' same. unfold configure. fold size' scale'.
  set (this1 := if negb _ then _ else this).
  assert (size this1 = size this /\ resolutionScale this1 = resolutionScale this
          /\ accumulationBuffer this1 = accumulationBuffer this
          /\ accumulationSamples this1 = accumulationSamples this)
    as (Hsz & Hsc & Hbuf & Hcnt).
  { unfold this1. destruct (negb _); repeat split. }
  clearbody this1. rewrite Hsz, Hsc.
  assert (Vector2.exactlyEquals size' (size this)
          && Js.strict_eq scale' (resolutionScale this) = true <-> same)
    as Hsame.
  { unfold same, Vector2.exactlyEquals, Js.strict_eq.
    rewrite !andb_true_iff, !Qeq_bool_iff. tauto. }
  destruct (Vector2.exactlyEquals size' (size this)) eqn:E1,
           (Js.strict_eq scale' (resolutionScale this)) eqn:E2;
    cbn [negb orb andb] in *;
    (split; [destruct (Settings.motionBlur settings); cbn; congruence|]);
    (split; intros Hs;
      [ try (apply Hsame in Hs; discriminate Hs)
      | try (exfalso; apply Hs, Hsame; reflexivity) ]);
    destruct (Settings.motionBlur settings); cbn; congruence.
Qed.

End Finalize.

(** ** The model at work on the example Stage *)

Lemma renderWithMotionBlur_spec_witness :
  let w := {| stage := example_stage; calls := [] |} in
  let run := renderWithMotionBlur example_callback [0; 1] [1 # 2; 1 # 2] w in
  [0; 1] <> ([] : list Js.number)
  /\ length [0; 1] = length [1 # 2; 1 # 2]
  /\ calls (snd run)
     = [CallBegin;
        CallRender 0; CallAccumulate (1 # 2);
        CallRender 1; CallAccumulate (1 # 2);
        CallFinalize]
  /\ context (stage (snd run)) = [50; 0; 0; 255]%Z.
Proof.
  intros w run.
  assert ([0; 1] <> ([] : list Js.number)) as Hne by discriminate.
  assert (length [0; 1] = length [1 # 2; 1 # 2]) as Hlen by reflexivity.
  split; [exact Hne | split; [exact Hlen |]].
  unfold run.
  rewrite (proj2 (renderWithMotionBlur_spec example_callback
                    [0; 1] [1 # 2; 1 # 2] w) Hne Hlen).
  split; vm_compute; reflexivity.
Defined.

(** An empty plan, or one with more offsets than weights, is ignored. *)
Example renderWithMotionBlur_ignores_mismatch :
  let w := {| stage := example_accumulating; calls := [] |} in
  renderWithMotionBlur example_callback [] [] w = (tt, w)
  /\ renderWithMotionBlur example_callback [0; 1] [1] w = (tt, w).
Proof. split; reflexivity. Qed.

Lemma finalizeMotionBlur_spec_witness :
  accumulationBuffer example_accumulating = Some [101 # 2; -3; 300; 255]
  /\ accumulationSamples example_accumulating <> 0%Z
  /\ exists pixels,
       finalizeMotionBlur example_accumulating
       = set_contexts (putImageData pixels (context example_accumulating))
           (currentContext example_accumulating)
           (previousContext example_accumulating) example_accumulating.
Proof.
  assert (accumulationBuffer example_accumulating
          = Some [101 # 2; -3; 300; 255]) as Hb by reflexivity.
  assert (accumulationSamples example_accumulating <> 0%Z) as Hn
    by (vm_compute; discriminate).
  split; [exact Hb | split; [exact Hn |]].
  destruct (proj2 (finalizeMotionBlur_spec example_accumulating) _ Hb Hn)
    as (pixels & E & _).
  exists pixels. exact E.
Defined.

(** 50.5 rounds up to 51, -3 is raised to 0 and 300 is cut to 255. *)
Example finalizeMotionBlur_example :
  context (finalizeMotionBlur example_accumulating) = [51; 0; 255; 255]%Z.
Proof. vm_compute. reflexivity. Qed.

Lemma configure_accumulation_witness :
  (Vector2.x (Settings.size settings_same_size ?? size example_accumulating)
     == Vector2.x (size example_accumulating)
   /\ Vector2.y (Settings.size settings_same_size ?? size example_accumulating)
      == Vector2.y (size example_accumulating)
   /\ Settings.resolutionScale settings_same_size
        ?? resolutionScale example_accumulating
      == resolutionScale example_accumulating)
  /\ accumulationBuffer (configure settings_same_size example_accumulating)
     = accumulationBuffer example_accumulating.
Proof.
  assert (Vector2.x (Settings.size settings_same_size
                       ?? size example_accumulating)
            == Vector2.x (size example_accumulating)
          /\ Vector2.y (Settings.size settings_same_size
                          ?? size example_accumulating)
             == Vector2.y (size example_accumulating)
          /\ Settings.resolutionScale settings_same_size
               ?? resolutionScale example_accumulating
             == resolutionScale example_accumulating) as Hsame
    by (repeat split; vm_compute; reflexivity).
  split; [exact Hsame |].
  exact (proj1 (proj2 (configure_accumulation settings_same_size
                         example_accumulating)) Hsame).
Defined.

(** A resize drops the buffer and keeps the counter; a call that changes the
    colour space, the background and the motion-blur configuration, but not
    the size, keeps both. *)
Example configure_example :
  accumulationBuffer (configure settings_resize example_accumulating) = None
  /\ accumulationSamples (configure settings_resize example_accumulating) = 2%Z
  /\ accumulationBuffer (configure settings_same_size example_accumulating)
     = Some [101 # 2; -3; 300; 255]
  /\ colorSpace (configure settings_same_size example_accumulating) = display_p3.
Proof. repeat split. Qed.

(** ** The unit tests of MotionBlur.ts, replayed on the model

    Options are written with the record constructor, fields in the order
    enabled, samples, shutterAngle, shutterCurve, shutterPosition,
    adaptiveSampling, adaptiveMinSamples, shutterPhase, quality. *)

Example test_returns_defaults :
  resolveMotionBlurConfig None = DEFAULT_MOTION_BLUR_CONFIG
  /\ config_eq (resolveMotionBlurConfig (Some Opt.empty))
       DEFAULT_MOTION_BLUR_CONFIG.
Proof. split; [reflexivity | repeat split]. Qed.

(** [{samples: s}] for s = 0, -5, 100, 2.5 *)
Example test_clamps_samples :
  let only_samples s :=
    Opt.Build_MotionBlurOptions
      None (Some s) None None None None None None None in
  samples (resolveMotionBlurConfig (Some (only_samples 0))) == 1
  /\ samples (resolveMotionBlurConfig (Some (only_samples (-5)))) == 1
  /\ samples (resolveMotionBlurConfig (Some (only_samples 100))) == 64
  /\ samples (resolveMotionBlurConfig (Some (only_samples (5 # 2)))) == 3.
Proof. repeat split. Qed.

(** [{quality: q}] and [{quality: 'ultra', samples: 10}] *)
Example test_quality_presets :
  let only_quality q :=
    Opt.Build_MotionBlurOptions
      None None None None None None None None (Some q) in
  samples (resolveMotionBlurConfig (Some (only_quality low))) == 4
  /\ samples (resolveMotionBlurConfig (Some (only_quality medium))) == 8
  /\ samples (resolveMotionBlurConfig (Some (only_quality high))) == 16
  /\ samples (resolveMotionBlurConfig (Some (only_quality ultra))) == 32
  /\ samples
       (resolveMotionBlurConfig
          (Some (Opt.Build_MotionBlurOptions
                   None (Some 10) None None None None None None (Some ultra))))
     == 10.
Proof. repeat split. Qed.

(** [{shutterAngle: a}] and [{shutterPhase: p}] out of range *)
Example test_clamps_angle_and_phase :
  let only_angle a :=
    Opt.Build_MotionBlurOptions
      None None (Some a) None None None None None None in
  let only_phase p :=
    Opt.Build_MotionBlurOptions
      None None None None None None None (Some p) None in
  shutterAngle (resolveMotionBlurConfig (Some (only_angle (-10)))) == 0
  /\ shutterAngle (resolveMotionBlurConfig (Some (only_angle 800))) == 720
  /\ shutterPhase (resolveMotionBlurConfig (Some (only_phase (-400)))) == -360
  /\ shutterPhase (resolveMotionBlurConfig (Some (only_phase 400))) == 360.
Proof. repeat split. Qed.

(** [{shutterPosition: p}] *)
Example test_position_to_phase :
  let only_position p :=
    Opt.Build_MotionBlurOptions
      None None None None (Some p) None None None None in
  shutterPhase (resolveMotionBlurConfig (Some (only_position center))) == -90
  /\ shutterPhase (resolveMotionBlurConfig (Some (only_position start))) == 0
  /\ shutterPhase (resolveMotionBlurConfig (Some (only_position end_))) == -180.
Proof. repeat split. Qed.

(** 'allows overriding all options': a complete configuration with a
    non-zero phase resolves to itself. *)
Example test_overriding_all_options :
  let custom :=
    Build_MotionBlurConfig true 16 270 gaussian start true 4 (-135) in
  config_eq (resolveMotionBlurConfig (Some (options_of_config custom))) custom.
Proof. repeat split. Qed.

(** Four samples at 24 fps with the default 180 degree shutter and phase -90:
    the offsets run from half a frame's exposure before the frame time up to
    the frame time itself, and their range is the exposure time, within the
    tolerances of the test. *)
Example test_offsets_span_exposure :
  let config := Build_MotionBlurConfig true 4 180 box center false 2 (-90) in
  let fps24FrameDuration := 1 ⊘ 24 in
  let offsets := calculateSubframeOffsets config fps24FrameDuration in
  Forall2 (fun offset expected => Qabs (offset - expected) <= 1 # 10 ^ 17)
    offsets [- (1 # 48); - (1 # 72); - (1 # 144); 0]
  /\ Qabs (foldr Qmax (- (1)) offsets - foldr Qmin 1 offsets
           - fps24FrameDuration ⊗ (1 # 2)) < 5 # 10 ^ 6.
Proof.
  split.
  - vm_compute. repeat (constructor; [discriminate|]). constructor.
  - vm_compute. reflexivity.
Qed.

(** Zero shutter angle and phase: every offset is zero. *)
Example test_zero_shutter_angle :
  let config := Build_MotionBlurConfig true 4 0 box center false 2 0 in
  Forall2 Qeq (calculateSubframeOffsets config (1 ⊘ 24)) [0; 0; 0; 0].
Proof. vm_compute. repeat constructor. Qed.

(** Box weights for four samples, and triangle and gaussian weights for five
    samples and for one (with [rational_exp] in place of [Math.exp]): the
    middle weight is the highest. *)
Example test_weights :
  let config n curve :=
    Build_MotionBlurConfig true n 180 curve center false 2 (-90) in
  option_Forall2 (Forall2 Qeq)
    (@calculateSubframeWeights rational_math (config 4 box))
    (Some [1 # 4; 1 # 4; 1 # 4; 1 # 4])
  /\ option_Forall2
       (Forall2 (fun weight expected =>
                   Qabs (weight - expected) <= 1 # 10 ^ 15))
       (@calculateSubframeWeights rational_math (config 5 triangle))
       (Some [1 # 13; 3 # 13; 5 # 13; 3 # 13; 1 # 13])
  /\ (exists w0 w1 w2 w3 w4,
        @calculateSubframeWeights rational_math (config 5 triangle)
        = Some [w0; w1; w2; w3; w4] /\ w0 < w2 /\ w4 < w2)
  /\ (exists w0 w1 w2 w3 w4,
        @calculateSubframeWeights rational_math (config 5 gaussian)
        = Some [w0; w1; w2; w3; w4] /\ w0 < w2 /\ w4 < w2)
  /\ option_Forall2 (Forall2 Qeq)
       (@calculateSubframeWeights rational_math (config 1 gaussian))
       (Some [1]).
Proof.
  split; [vm_compute; repeat constructor|].
  split.
  { vm_compute. constructor. repeat (constructor; [discriminate|]).
    constructor. }
  split; [vm_compute; do 5 eexists; repeat split|].
  split; [vm_compute; do 5 eexists; repeat split|].
  vm_compute. repeat constructor.
Qed.

(** [Array(2.5)] throws. *)
Example test_box_weights_fractional_samples :
  let config := Build_MotionBlurConfig true (5 # 2) 180 box center false 2 0 in
  @calculateSubframeWeights rational_math config = None.
Proof. reflexivity. Qed.

(** Sixteen samples, minimum two, default threshold 50. *)
Example test_adaptive_samples :
  let config adaptive :=
    Build_MotionBlurConfig true 16 180 box center adaptive 2 (-90) in
  calculateAdaptiveSamples (config false) 100 None = Some 16
  /\ calculateAdaptiveSamples (config true) 100 (Some 50) = Some 16
  /\ calculateAdaptiveSamples (config true) 0 None = Some 2
  /\ calculateAdaptiveSamples (config true) 25 (Some 50) = Some 9.
Proof. repeat split. Qed.
(** ** The accumulation life cycle *)

Lemma map_const_repeat {A B : Type} (b : B) (l : list A) :
  map (fun _ => b) l = repeat b (length l).
Proof. induction l as [|a l IH]; cbn; [reflexivity | now rewrite IH]. Qed.

Section Lifecycle.

Context `{CanvasApi}.

(** The number of accumulators allocated for the current canvas size. *)
Local Abbreviation buffer_length this :=
  (Z.to_nat
     (Qfloor
        (Vector2.width (canvasSize this) ⊗ Vector2.height (canvasSize this)
         ⊗ 4))).

Lemma beginMotionBlurAccumulation_unfold (this : Stage) :
  beginMotionBlurAccumulation this
  = set_accumulationSamples 0
      (set_accumulationBuffer (Some (repeat 0 (buffer_length this))) this).
Proof.
  unfold beginMotionBlurAccumulation.
  destruct (accumulationBuffer this) as [buffer|]; [|reflexivity].
  destruct (Js.strict_eq _ _) eqn:E; [|reflexivity].
  cbn [negb]. apply Qeq_bool_eq in E.
  rewrite map_const_repeat.
  rewrite <- (Qfloor_comp _ _ E), Qfloor_Z, Nat2Z.id. reflexivity.
Qed.

(** X1: on a canvas of non-negative area, whatever was accumulated before,
    [beginMotionBlurAccumulation] leaves a buffer of zeros sized for the
    current canvas and a sample counter of 0, and changes nothing else;
    calling it twice is the same as calling it once; and finalizing right
    after it writes nothing. *)
Theorem beginMotionBlurAccumulation_resets (this : Stage) :
  0 <= Vector2.width (canvasSize this) * Vector2.height (canvasSize this) ->
  let begun := beginMotionBlurAccumulation this in
  begun
  = set_accumulationSamples 0
      (set_accumulationBuffer (Some (repeat 0 (buffer_length this))) this)
  /\ beginMotionBlurAccumulation begun = begun
  /\ finalizeMotionBlur begun = begun.
Proof.
  intros _. cbn zeta. split; [apply beginMotionBlurAccumulation_unfold|]. split.
  - rewrite (beginMotionBlurAccumulation_unfold (beginMotionBlurAccumulation this)).
    rewrite beginMotionBlurAccumulation_unfold. reflexivity.
  - rewrite beginMotionBlurAccumulation_unfold. reflexivity.
Qed.

(** X2: while there is no accumulation buffer, which is the case on a new
    Stage and after every [configure] that changes the size or the resolution
    scale, [accumulateMotionBlurSample] and [finalizeMotionBlur] leave the
    Stage as it is. *)
Theorem no_buffer_no_accumulation
    (finalBuffer currentBuffer previousBuffer : Context)
    (settings : Settings.t) (this : Stage) (weight : Js.number) :
  let fresh := Stage_new finalBuffer currentBuffer previousBuffer in
  let resized := configure settings this in
  (accumulateMotionBlurSample weight fresh = fresh
   /\ finalizeMotionBlur fresh = fresh)
  /\ (Vector2.exactlyEquals (Settings.size settings ?? size this) (size this)
      = false
      \/ Js.strict_eq
           (Settings.resolutionScale settings ?? resolutionScale this)
           (resolutionScale this)
         = false ->
      accumulateMotionBlurSample weight resized = resized
      /\ finalizeMotionBlur resized = resized).
Proof.
  cbn zeta. split; [split; reflexivity|].
  intros Hdiff.
  assert (accumulationBuffer (configure settings this) = None) as Hnone.
  { unfold configure.
    set (this1 := if negb (CanvasColorSpace_eqb _ _) then _ else this).
    assert (size this1 = size this /\ resolutionScale this1 = resolutionScale this)
      as [-> ->] by (unfold this1; destruct (negb _); split; reflexivity).
    destruct Hdiff as [-> | ->]; rewrite ?orb_true_r; cbn [negb orb];
      destruct (Settings.motionBlur settings); reflexivity. }
  unfold accumulateMotionBlurSample, finalizeMotionBlur. rewrite Hnone.
  split; reflexivity.
Qed.

End Lifecycle.

Lemma beginMotionBlurAccumulation_resets_witness :
  0 <= Vector2.width (canvasSize example_accumulating)
       * Vector2.height (canvasSize example_accumulating)
  /\ beginMotionBlurAccumulation example_accumulating
     = set_accumulationSamples 0
         (set_accumulationBuffer (Some [0; 0; 0; 0]) example_accumulating).
Proof.
  assert (0 <= Vector2.width (canvasSize example_accumulating)
               * Vector2.height (canvasSize example_accumulating)) as Harea
    by (vm_compute; discriminate).
  split; [exact Harea|].
  exact (proj1 (@beginMotionBlurAccumulation_resets bytes_canvas
                  example_accumulating Harea)).
Defined.

Lemma no_buffer_no_accumulation_witness :
  let resized := configure settings_resize example_accumulating in
  Vector2.exactlyEquals
    (Settings.size settings_resize ?? size example_accumulating)
    (size example_accumulating)
  = false
  /\ accumulateMotionBlurSample (1 # 2) resized = resized
  /\ finalizeMotionBlur resized = resized.
Proof.
  intros resized.
  assert (Vector2.exactlyEquals
            (Settings.size settings_resize ?? size example_accumulating)
            (size example_accumulating)
          = false) as Hsize by reflexivity.
  split; [exact Hsize|].
  exact (proj2 (@no_buffer_no_accumulation bytes_canvas [] [] []
                  settings_resize example_accumulating (1 # 2))
           (or_introl Hsize)).
Defined.
(** ** Accumulation as a weighted sum *)

Lemma accumulate_loop (pixels : list Z) (weight : Q) (buffer : list Q) (n : nat) :
  let out := for_index n (accumulate_pixel pixels weight) buffer in
  length out = length buffer
  /\ (forall i, (i < n)%nat ->
        out !! i
        = match pixels !! i with
          | Some p =>
              (fun a => Js.Math_fround (a ⊕ inject_Z p ⊗ weight))
                <$> buffer !! i
          | None => buffer !! i
          end)
  /\ (forall i, (n <= i)%nat -> out !! i = buffer !! i).
Proof.
  induction n as [|n IH]; cbn zeta.
  - split; [reflexivity|]. split; [intros i Hi; lia | reflexivity].
  - rewrite for_index_S. destruct IH as (Hlen & Hlo & Hhi).
    unfold accumulate_pixel at 1 3 5.
    destruct (pixels !! n) as [p|] eqn:Hp.
    + split; [|split].
      * now rewrite length_alter.
      * intros i Hi. destruct (decide (i = n)) as [->|Hne].
        -- rewrite list_lookup_alter_eq, Hp, Hhi by lia. reflexivity.
        -- rewrite list_lookup_alter_ne by lia. apply Hlo. lia.
      * intros i Hi. rewrite list_lookup_alter_ne by lia. apply Hhi. lia.
    + split; [exact Hlen|]. split.
      * intros i Hi. destruct (decide (i = n)) as [->|Hne].
        -- rewrite Hp. apply Hhi. lia.
        -- apply Hlo. lia.
      * intros i Hi. apply Hhi. lia.
Qed.

(** Rounding a value of magnitude at most [r] to single precision. *)
Lemma Math_fround_near (x r : Q) :
  Qabs x <= r -> Qabs (Js.Math_fround x - x) <= Js.unit_roundoff32 * r.
Proof.
  intros Hx. pose proof (Math_fround_error x) as He.
  assert (Js.unit_roundoff32 * Qabs x <= Js.unit_roundoff32 * r) as Hur.
  { rewrite !(Qmult_comm Js.unit_roundoff32).
    apply Qmult_le_compat_r; [exact Hx | discriminate]. }
  lra.
Qed.

(** One accumulation step against the exact sum: a product and a sum in
    double precision and a store in single precision. *)
Lemma accumulate_error (a x w : Q) :
  Qabs (Js.Math_fround (a ⊕ x ⊗ w) - (a + x * w))
  <= (1 # 8388608) * (Qabs a + Qabs (x * w)).
Proof.
  pose proof (Qabs_nonneg a) as HA. pose proof (Qabs_nonneg (x * w)) as HP.
  set (A := Qabs a) in *. set (P := Qabs (x * w)) in *.
  destruct (binary64_near (x * w) P (Qle_refl _)) as [Ht1 Ht2].
  fold (x ⊗ w) in Ht1, Ht2. set (t := x ⊗ w) in *.
  assert (Qabs (a + t) <= A + (1 + Js.unit_roundoff) * P) as Hs0.
  { eapply Qle_trans; [apply Qabs_triangle|]. fold A. lra. }
  destruct (binary64_near (a + t) _ Hs0) as [Hs1 Hs2].
  fold (a ⊕ t) in Hs1, Hs2. set (s := a ⊕ t) in *.
  pose proof (Math_fround_near s _ Hs2) as Hf.
  assert (Js.Math_fround s - (a + x * w)
          == (Js.Math_fround s - s) + ((s - (a + t)) + (t - x * w))) as ->
    by ring.
  eapply Qle_trans; [apply Qabs_triangle|].
  eapply Qle_trans;
    [apply Qplus_le_compat; [exact Hf | apply Qabs_triangle]|].
  unfold Js.unit_roundoff, Js.unit_roundoff32 in *. lra.
Qed.

Section Accumulation.

Context `{CanvasApi}.


End Accumulation.


(** The store into the [Float32Array] rounds: 29 times the double nearest
    to 0.1 is kept as 2.900000095367431640625. *)
Example test_accumulate_rounds :
  accumulate_pixel [29%Z] (1 ⊘ 10) 0 [0] = [6081741 # 2097152].
Proof. vm_compute. reflexivity. Qed.
(** ** The blurred frame *)

Lemma weighted_channel_sum_snoc
    (frames : list (list Z * Q)) (pixels : list Z) (weight : Q) (i : nat) :
  weighted_channel_sum (frames ++ [(pixels, weight)]) i
  = Js.Math_fround
      (weighted_channel_sum frames i
       ⊕ inject_Z (default 0%Z (pixels !! i)) ⊗ weight).
Proof. unfold weighted_channel_sum. now rewrite foldl_app. Qed.

Lemma exact_channel_sum_snoc
    (frames : list (list Z * Q)) (pixels : list Z) (weight : Q) (i : nat) :
  exact_channel_sum (frames ++ [(pixels, weight)]) i
  == exact_channel_sum frames i
     + inject_Z (default 0%Z (pixels !! i)) * weight.
Proof.
  unfold exact_channel_sum. rewrite map_app. cbn [map fst snd].
  apply exact_sum_snoc.
Qed.

(** The accumulated value of a channel against its exact weighted sum:
    with bytes for pixels, weights that are not negative and add up to at
    most 2, and at most 64 frames, every store adds an error of at most
    [2^-13]. *)
Lemma weighted_channel_sum_error (frames : list (list Z * Q)) (i : nat) :
  Forall (fun fw => 0 <= snd fw /\ (0 <= default 0 (fst fw !! i) <= 255)%Z)
    frames ->
  exact_sum (map snd frames) <= 2 -> (length frames <= 64)%nat ->
  (0 <= exact_channel_sum frames i
   /\ exact_channel_sum frames i <= 255 * exact_sum (map snd frames))
  /\ Qabs (weighted_channel_sum frames i - exact_channel_sum frames i)
     <= inject_Z (Z.of_nat (length frames)) * (1 # 8192).
Proof.
  induction frames as [|[pixels w] frames IH] using rev_ind;
    intros Hframes Hsum Hlen.
  - split; [split; cbn; lra|].
    change (Qabs (0 - 0) <= 0 * (1 # 8192)). change (Qabs (0 - 0)) with 0. lra.
  - apply Forall_app in Hframes as [Hframes Hfw]. apply Forall_inv in Hfw.
    cbn [fst snd] in Hfw. destruct Hfw as [Hw Hp].
    rewrite length_app in *. cbn [length] in *.
    rewrite map_app in *. cbn [map snd] in *.
    rewrite exact_sum_snoc in *.
    assert (0 <= exact_sum (map snd frames)) as HT.
    { apply exact_sum_nonneg. apply Forall_map.
      eapply Forall_impl; [exact Hframes|]. intros fw [H0 _]. exact H0. }
    destruct (IH Hframes ltac:(lra) ltac:(lia)) as ([HA0 HA1] & Herr).
    rewrite weighted_channel_sum_snoc, exact_channel_sum_snoc.
    set (p := inject_Z (default 0%Z (pixels !! i))) in *.
    assert (0 <= p <= 255) as Hp'.
    { unfold p. change 0 with (inject_Z 0). change 255 with (inject_Z 255).
      rewrite <- !Zle_Qle. exact Hp. }
    assert (0 <= p * w) as Hpw0 by (apply Qmult_le_0_compat; lra).
    assert (p * w <= 255 * w) as Hpw1
      by (apply Qmult_le_compat_r; lra).
    replace (length frames + 1)%nat with (S (length frames)) by lia.
    rewrite inject_nat_S.
    pose proof (inject_nat_nonneg (length frames)) as Hk0.
    assert (inject_Z (Z.of_nat (length frames)) <= 63) as Hk63.
    { change 63 with (inject_Z (Z.of_nat 63)). apply inject_nat_le. lia. }
    set (k := inject_Z (Z.of_nat (length frames))) in *.
    set (a := weighted_channel_sum frames i) in *.
    set (A := exact_channel_sum frames i) in *.
    set (T := exact_sum (map snd frames)) in *.
    split; [split; lra|].
    pose proof (accumulate_error a p w) as Hstep.
    rewrite (Qabs_pos (p * w) Hpw0) in Hstep.
    assert (Qabs a <= 511) as Ha.
    { apply Qabs_Qle_condition in Herr. apply Qabs_Qle_condition. lra. }
    assert (Js.Math_fround (a ⊕ p ⊗ w) - (A + p * w)
            == (Js.Math_fround (a ⊕ p ⊗ w) - (a + p * w)) + (a - A)) as ->
      by ring.
    eapply Qle_trans; [apply Qabs_triangle|]. lra.
Qed.


(** [Math.round] moves a number by at most one half. *)
Lemma Math_round_error (x : Q) : Qabs (Js.Math_round x - x) <= 1 # 2.
Proof.
  unfold Js.Math_round.
  pose proof (Qfloor_le (x + (1 # 2))) as Hlo.
  pose proof (Qlt_floor (x + (1 # 2))) as Hhi.
  rewrite inject_Z_plus in Hhi. change (inject_Z 1) with 1 in Hhi.
  apply Qabs_Qle_condition. lra.
Qed.

(** Clamping to [0, 255] and rounding, next to clamping alone. *)
Lemma round_clamp_near (a e d : Q) :
  Qabs (a - e) <= d ->
  Qabs (Js.Math_round (Js.Math_min 255 (Js.Math_max 0 a))
        - Js.Math_min 255 (Js.Math_max 0 e))
  <= d + (1 # 2).
Proof.
  intros Hd. apply Qabs_Qle_condition in Hd.
  pose proof (Math_round_error (Js.Math_min 255 (Js.Math_max 0 a))) as Hr.
  apply Qabs_Qle_condition in Hr.
  set (r := Js.Math_round _) in *. clearbody r.
  apply Qabs_Qle_condition. q_minmax. lra.
Qed.

Lemma lookup_repeat {A : Type} (a : A) (n i : nat) :
  (i < n)%nat -> repeat a n !! i = Some a.
Proof.
  revert i. induction n as [|n IH]; intros i Hi; [lia|].
  destruct i as [|i]; cbn; [reflexivity | apply IH; lia].
Qed.

Section BlurredFrame.

Context `{CanvasApi}.

Variable renderCallback : Js.number -> Stage -> Stage.

Lemma renderWithMotionBlur_run (offs ws : list Js.number) (w : World) :
  offs <> [] -> length offs = length ws ->
  stage (snd (renderWithMotionBlur renderCallback offs ws w))
  = finalizeMotionBlur
      (foldl
         (fun st ow =>
            accumulateMotionBlurSample (snd ow) (renderCallback (fst ow) st))
         (beginMotionBlurAccumulation (stage w))
         (combine offs ws)).
Proof.
  intros Hne Hlen. unfold renderWithMotionBlur.
  assert ((length offs =? 0)%nat = false) as ->.
  { apply Nat.eqb_neq. destruct offs; [contradiction | cbn; lia]. }
  rewrite (proj2 (Nat.eqb_eq _ _) Hlen). cbn [negb orb].
  unfold bind at 1. unfold invoke at 1.
  unfold bind at 1. rewrite for_await_subframes by (cbn; lia).
  unfold invoke. cbn [stage calls snd]. now rewrite !drop_0.
Qed.

(** The callback draws the frame for its time offset on the visible canvas
    and keeps away from the Stage's size and accumulation state. *)
Variable frame : Js.number -> list Z.
Variable this : Stage.

Local Abbreviation buffer_length :=
  (Z.to_nat
     (Qfloor
        (Vector2.width (canvasSize this) ⊗ Vector2.height (canvasSize this)
         ⊗ 4))).

Hypothesis callback_keeps :
  forall o st,
    size (renderCallback o st) = size st
    /\ resolutionScale (renderCallback o st) = resolutionScale st
    /\ accumulationBuffer (renderCallback o st) = accumulationBuffer st
    /\ accumulationSamples (renderCallback o st) = accumulationSamples st.

Hypothesis callback_draws :
  forall o st,
    size st = size this -> resolutionScale st = resolutionScale this ->
    getImageData (context (renderCallback o st))
      (Vector2.width (canvasSize this)) (Vector2.height (canvasSize this))
    = frame o.

Hypothesis frame_covers : forall o, (buffer_length <= length (frame o))%nat.

Lemma subframes_accumulate (plan : list (Js.number * Js.number)) :
  let st :=
    foldl
      (fun st ow =>
         accumulateMotionBlurSample (snd ow) (renderCallback (fst ow) st))
      (beginMotionBlurAccumulation this) plan in
  let frames := map (fun ow => (frame (fst ow), snd ow)) plan in
  size st = size this
  /\ resolutionScale st = resolutionScale this
  /\ accumulationSamples st = Z.of_nat (length plan)
  /\ exists buffer,
       accumulationBuffer st = Some buffer
       /\ length buffer = buffer_length
       /\ forall i, (i < buffer_length)%nat ->
            buffer !! i = Some (weighted_channel_sum frames i).
Proof.
  induction plan as [|[o w] plan IH] using rev_ind; cbn zeta.
  - rewrite beginMotionBlurAccumulation_unfold. cbn.
    split; [reflexivity|]. split; [reflexivity|]. split; [reflexivity|].
    eexists. split; [reflexivity|]. split; [apply repeat_length|].
    intros i Hi. now apply lookup_repeat.
  - cbn zeta in IH. rewrite foldl_app, map_app, length_app. cbn [foldl map fst snd length].
    set (st := foldl _ _ plan) in *.
    destruct IH as (Hsz & Hsc & Hcnt & buffer & Hb & Hlen & Hsum).
    destruct (callback_keeps o st) as (Ksz & Ksc & Kb & Kcnt).
    pose proof (callback_draws o st Hsz Hsc) as Hdraw.
    set (st1 := renderCallback o st) in *. clearbody st1 st.
    unfold accumulateMotionBlurSample. rewrite Kb, Hb.
    assert (canvasSize st1 = canvasSize this) as ->
      by (unfold canvasSize; now rewrite Ksz, Ksc, Hsz, Hsc).
    rewrite Hdraw.
    destruct (accumulate_loop (frame o) w buffer (length (frame o)))
      as (Alen & Alo & _).
    cbn [size resolutionScale accumulationSamples accumulationBuffer
         set_accumulationSamples set_accumulationBuffer].
    split; [now rewrite Ksz|]. split; [now rewrite Ksc|].
    split; [rewrite Kcnt, Hcnt; lia|].
    eexists. split; [reflexivity|]. split; [now rewrite Alen|].
    intros i Hi. pose proof (frame_covers o) as Hcov.
    destruct (lookup_lt_is_Some_2 (frame o) i) as [p Hp]; [lia|].
    rewrite Alo by lia. rewrite Hp, (Hsum i Hi). cbn.
    rewrite weighted_channel_sum_snoc. cbn [fst snd]. now rewrite Hp.
Qed.

Lemma blurred_pixels (offs ws : list Js.number) (w : World) :
  stage w = this -> offs <> [] -> length offs = length ws ->
  let frames := map (fun ow => (frame (fst ow), snd ow)) (combine offs ws) in
  exists pixels ctx,
    context (stage (snd (renderWithMotionBlur renderCallback offs ws w)))
    = putImageData pixels ctx
    /\ length pixels
       = length
           (createImageData ctx
              (Vector2.width (canvasSize this))
              (Vector2.height (canvasSize this)))
    /\ forall i, (i < length pixels)%nat -> (i < buffer_length)%nat ->
         exists z, pixels !! i = Some z
           /\ (0 <= z <= 255)%Z
           /\ inject_Z z
              == Js.Math_round
                   (Js.Math_min 255
                      (Js.Math_max 0 (weighted_channel_sum frames i))).
Proof.
  intros Hw Hne Hlen frames.
  rewrite renderWithMotionBlur_run, Hw by assumption.
  destruct (subframes_accumulate (combine offs ws))
    as (Hsz & Hsc & Hcnt & buffer & Hb & Hblen & Hsum).
  set (st := foldl _ _ (combine offs ws)) in *.
  unfold finalizeMotionBlur. rewrite Hb.
  assert ((accumulationSamples st =? 0)%Z = false) as ->.
  { apply Z.eqb_neq. rewrite Hcnt, length_combine.
    destruct offs; [contradiction|]. destruct ws; [discriminate|]. cbn. lia. }
  assert (canvasSize st = canvasSize this) as ->
    by (unfold canvasSize; now rewrite Hsz, Hsc).
  set (blank := createImageData (context st) _ _).
  destruct (finalize_loop buffer blank (length blank) (le_n _))
    as (Flen & Flo & _).
  eexists. exists (context st). split; [reflexivity|].
  split; [exact Flen|].
  intros i Hi HiL. rewrite Flen in Hi. rewrite (Flo i Hi), (Hsum i HiL).
  fold frames.
  destruct (round_clamp_byte (weighted_channel_sum frames i)) as (z & Hz & ->).
  exists z. rewrite (ToUint8Clamp_byte z Hz). repeat split; try lia.
Qed.

End BlurredFrame.

Lemma map_snd_combine {A B C : Type} (f : B -> C) (l : list A) (l' : list B) :
  length l = length l' -> map (fun ab => f (snd ab)) (combine l l') = map f l'.
Proof.
  revert l'. induction l as [|a l IH]; intros [|b l'] Hlen; cbn in *;
    try discriminate; [reflexivity|].
  f_equal. apply IH. lia.
Qed.

Lemma frames_weights {A : Type} (frame : Js.number -> A)
    (offs ws : list Js.number) :
  length offs = length ws ->
  map snd (map (fun ow => (frame (fst ow), snd ow)) (combine offs ws)) = ws.
Proof.
  intros Hlen. rewrite map_map. cbn [snd].
  rewrite (map_snd_combine (fun x => x) offs ws Hlen). apply map_id.
Qed.

Lemma frames_in_range (frame : Js.number -> list Z)
    (offs ws : list Js.number) (i : nat) :
  (forall o p, frame o !! i = Some p -> (0 <= p <= 255)%Z) ->
  Forall (fun x => 0 <= x) ws ->
  Forall (fun fw => 0 <= snd fw /\ (0 <= default 0 (fst fw !! i) <= 255)%Z)
    (map (fun ow => (frame (fst ow), snd ow)) (combine offs ws)).
Proof.
  intros Hbytes Hws. apply Forall_map. apply List.Forall_forall.
  intros [o x] Hin. cbn [fst snd]. split.
  - apply in_combine_r in Hin.
    exact (proj1 (List.Forall_forall _ ws) Hws x Hin).
  - destruct (frame o !! i) as [p|] eqn:Hp; cbn [default]; [|lia].
    exact (Hbytes o p Hp).
Qed.

(** X4: on a canvas of non-negative area, when the callback keeps away from
    the Stage's size and accumulation state and leaves, for each time
    offset, a frame that covers the canvas,
    [renderWithMotionBlur] ends with a [putImageData] of pixel data whose
    every channel is the weighted sum of that channel over the frames as
    the code accumulates it (every step in double precision, stored in
    single precision), clamped to [0, 255] and rounded to the nearest
    integer.  When the frames hold bytes and there are at most 64 weights,
    none negative, that add up to at most 2, the channel is within 65/128
    of the exact weighted sum, clamped. *)
Theorem renderWithMotionBlur_weighted_sum `{CanvasApi}
    (renderCallback : Js.number -> Stage -> Stage)
    (frame : Js.number -> list Z) (this : Stage)
    (offs ws : list Js.number) (w : World) :
  (forall o st,
     size (renderCallback o st) = size st
     /\ resolutionScale (renderCallback o st) = resolutionScale st
     /\ accumulationBuffer (renderCallback o st) = accumulationBuffer st
     /\ accumulationSamples (renderCallback o st) = accumulationSamples st) ->
  (forall o st,
     size st = size this -> resolutionScale st = resolutionScale this ->
     getImageData (context (renderCallback o st))
       (Vector2.width (canvasSize this)) (Vector2.height (canvasSize this))
     = frame o) ->
  (forall o,
     (Z.to_nat
        (Qfloor
           (Vector2.width (canvasSize this) ⊗ Vector2.height (canvasSize this)
            ⊗ 4))
      <= length (frame o))%nat) ->
  0 <= Vector2.width (canvasSize this) * Vector2.height (canvasSize this) ->
  stage w = this -> offs <> [] -> length offs = length ws ->
  let frames := map (fun ow => (frame (fst ow), snd ow)) (combine offs ws) in
  exists pixels ctx,
    context (stage (snd (renderWithMotionBlur renderCallback offs ws w)))
    = putImageData pixels ctx
    /\ length pixels
       = length
           (createImageData ctx
              (Vector2.width (canvasSize this))
              (Vector2.height (canvasSize this)))
    /\ forall i,
         (i < length pixels)%nat ->
         (i < Z.to_nat
                (Qfloor
                   (Vector2.width (canvasSize this)
                    ⊗ Vector2.height (canvasSize this) ⊗ 4)))%nat ->
         exists z, pixels !! i = Some z
           /\ (0 <= z <= 255)%Z
           /\ inject_Z z
              == Js.Math_round
                   (Js.Math_min 255
                      (Js.Math_max 0 (weighted_channel_sum frames i)))
           /\ ((forall o p, frame o !! i = Some p -> (0 <= p <= 255)%Z) ->
               Forall (fun x => 0 <= x) ws -> exact_sum ws <= 2 ->
               (length ws <= 64)%nat ->
               Qabs (inject_Z z
                     - Js.Math_min 255
                         (Js.Math_max 0 (exact_channel_sum frames i)))
               <= 65 # 128).
Proof.
  intros Hkeep Hdraw Hcover _ Hw Hne Hlen frames.
  destruct (blurred_pixels renderCallback frame this Hkeep Hdraw Hcover
              offs ws w Hw Hne Hlen)
    as (pixels & ctx & Hctx & Hplen & Hpix).
  exists pixels, ctx. split; [exact Hctx|]. split; [exact Hplen|].
  intros i Hi HiL. destruct (Hpix i Hi HiL) as (z & Hz & Hrange & Hval).
  exists z. split; [exact Hz|]. split; [exact Hrange|]. split; [exact Hval|].
  intros Hbytes Hws Hsum Hcount. fold frames in Hval. rewrite Hval.
  destruct (weighted_channel_sum_error frames i) as (_ & Herr).
  - now apply frames_in_range.
  - unfold frames. now rewrite frames_weights.
  - unfold frames. rewrite length_map, length_combine. lia.
  - assert (inject_Z (Z.of_nat (length frames)) <= 64) as Hk.
    { change 64 with (inject_Z (Z.of_nat 64)). apply inject_nat_le.
      unfold frames. rewrite length_map, length_combine. lia. }
    assert (Qabs (weighted_channel_sum frames i - exact_channel_sum frames i)
            <= 1 # 128) as Herr' by lra.
    pose proof (round_clamp_near _ _ _ Herr') as Hnear. lra.
Qed.



Lemma renderWithMotionBlur_weighted_sum_witness :
  let frame := fun o : Js.number => [Js.ToUint8Clamp (100 * o); 0; 0; 255]%Z in
  let w := {| stage := example_stage; calls := [] |} in
  let run := renderWithMotionBlur example_callback [0; 1] [1 # 2; 1 # 2] w in
  (forall o st,
     getImageData (context (example_callback o st))
       (Vector2.width (canvasSize example_stage))
       (Vector2.height (canvasSize example_stage))
     = frame o)
  /\ 0 <= Vector2.width (canvasSize example_stage)
          * Vector2.height (canvasSize example_stage)
  /\ exists pixels ctx,
       context (stage (snd run)) = putImageData pixels ctx
       /\ length pixels = 4%nat
       /\ exists z, pixels !! 0%nat = Some z
            /\ inject_Z z
               == Js.Math_round
                    (Js.Math_min 255
                       (Js.Math_max 0
                          (weighted_channel_sum
                             [(frame 0, 1 # 2); (frame 1, 1 # 2)] 0))).
Proof.
  intros frame w run.
  assert (forall o st,
            getImageData (context (example_callback o st))
              (Vector2.width (canvasSize example_stage))
              (Vector2.height (canvasSize example_stage))
            = frame o) as Hdraw by (intros o st; reflexivity).
  assert (0 <= Vector2.width (canvasSize example_stage)
               * Vector2.height (canvasSize example_stage)) as Harea
    by (vm_compute; discriminate).
  assert (Z.to_nat
            (Qfloor
               (Vector2.width (canvasSize example_stage)
                ⊗ Vector2.height (canvasSize example_stage) ⊗ 4))
          = 4%nat) as Hsize by (vm_compute; reflexivity).
  split; [exact Hdraw|]. split; [exact Harea|].
  destruct (@renderWithMotionBlur_weighted_sum bytes_canvas
              example_callback frame example_stage [0; 1] [1 # 2; 1 # 2] w)
    as (pixels & ctx & Hctx & Hlen & Hpix).
  - intros o st. repeat split.
  - intros o st _ _. apply Hdraw.
  - intros o. rewrite Hsize. apply le_n.
  - exact Harea.
  - reflexivity.
  - discriminate.
  - reflexivity.
  - exists pixels, ctx. split; [exact Hctx|].
    assert (length pixels = 4%nat) as Hlen4 by exact Hlen.
    split; [exact Hlen4|].
    destruct (Hpix 0%nat) as (z & Hz & _ & Hsum & _).
    + rewrite Hlen4. apply Nat.lt_0_succ.
    + rewrite Hsize. apply Nat.lt_0_succ.
    + exists z. split; [exact Hz | exact Hsum].
Defined.


(** ** The Stage's configuration *)

Lemma resolve_in_range (o : option Opt.MotionBlurOptions) :
  config_in_range (resolveMotionBlurConfig o).
Proof.
  unfold config_in_range. destruct o as [o|].
  - pose proof (clampSamples_range (resolve_samples o)) as [Hi Hr].
    pose proof (clampShutterAngle_range (Opt.shutterAngle o ?? 180)) as Ha.
    pose proof (clampShutterPhase_range (resolve_phase o)) as Hp.
    repeat split; try tauto. cbn. q_minmax. lra.
  - repeat split; cbn; try lra; reflexivity.
Qed.

Section StageConfiguration.

Context `{CanvasApi}.

Lemma configure_motionBlurConfig (settings : Settings.t) (this : Stage) :
  motionBlurConfig (configure settings this)
  = match Settings.motionBlur settings with
    | Some o => resolveMotionBlurConfig (Some o)
    | None => motionBlurConfig this
    end.
Proof.
  unfold configure.
  destruct (negb (CanvasColorSpace_eqb _ _)), (negb _ || negb _),
    (Settings.motionBlur settings); reflexivity.
Qed.

(** X6: the configuration held by a Stage is always within the documented
    ranges: it is on a new Stage, and [configure], [begin], [accumulate] and
    [finalize] keep it so; after a [configure] that supplies motion-blur
    options it is the resolved form of those options. *)
Theorem stage_config_in_range
    (finalBuffer currentBuffer previousBuffer : Context)
    (settings : Settings.t) (weight : Js.number) (this : Stage) :
  config_in_range
    (getMotionBlurConfig (Stage_new finalBuffer currentBuffer previousBuffer))
  /\ (config_in_range (getMotionBlurConfig this) ->
      config_in_range (getMotionBlurConfig (configure settings this))
      /\ config_in_range
           (getMotionBlurConfig (beginMotionBlurAccumulation this))
      /\ config_in_range
           (getMotionBlurConfig (accumulateMotionBlurSample weight this))
      /\ config_in_range (getMotionBlurConfig (finalizeMotionBlur this)))
  /\ (forall o, Settings.motionBlur settings = Some o ->
        getMotionBlurConfig (configure settings this)
        = resolveMotionBlurConfig (Some o)).
Proof.
  unfold getMotionBlurConfig. split; [apply (resolve_in_range None)|]. split.
  - intros Hin. split; [|split; [|split]].
    + rewrite configure_motionBlurConfig.
      destruct (Settings.motionBlur settings); [apply resolve_in_range | exact Hin].
    + rewrite beginMotionBlurAccumulation_unfold. exact Hin.
    + unfold accumulateMotionBlurSample.
      destruct (accumulationBuffer this); exact Hin.
    + unfold finalizeMotionBlur.
      destruct (accumulationBuffer this); [|exact Hin].
      destruct (accumulationSamples this =? 0)%Z; exact Hin.
  - intros o Ho. now rewrite configure_motionBlurConfig, Ho.
Qed.

Lemma CanvasColorSpace_eqb_refl (cs : CanvasColorSpace) :
  CanvasColorSpace_eqb cs cs = true.
Proof. now destruct cs. Qed.

Lemma exactlyEquals_refl (v : Vector2.t) : Vector2.exactlyEquals v v = true.
Proof.
  unfold Vector2.exactlyEquals, Js.strict_eq. now rewrite !Qeq_bool_refl.
Qed.

Lemma configure_dimensions (settings : Settings.t) (this : Stage) :
  Vector2.exactlyEquals
    (Settings.size settings ?? size (configure settings this))
    (size (configure settings this)) = true
  /\ Js.strict_eq
       (Settings.resolutionScale settings
          ?? resolutionScale (configure settings this))
       (resolutionScale (configure settings this)) = true.
Proof.
  unfold configure.
  set (this1 := if negb (CanvasColorSpace_eqb _ _) then _ else this).
  assert (size this1 = size this /\ resolutionScale this1 = resolutionScale this)
    as [Hsize Hscale] by (unfold this1; destruct (negb _); split; reflexivity).
  clearbody this1. rewrite Hsize, Hscale.
  destruct (negb (Vector2.exactlyEquals _ _) || negb (Js.strict_eq _ _)) eqn:E;
    destruct (Settings.motionBlur settings);
    cbn [size resolutionScale set_motionBlurConfig set_background
         set_accumulationBuffer set_contexts set_dimensions];
    try (destruct (Settings.size settings),
                  (Settings.resolutionScale settings);
         cbn [Js.nullish]; split;
         solve [apply exactlyEquals_refl
               | unfold Js.strict_eq; apply Qeq_bool_refl]);
    rewrite Hsize, Hscale;
    apply orb_false_iff in E as [E1 E2];
    apply negb_false_iff in E1, E2; split; assumption.
Qed.

Lemma configure_colorSpace (settings : Settings.t) (this : Stage) :
  CanvasColorSpace_eqb
    (Settings.colorSpace settings ?? colorSpace (configure settings this))
    (colorSpace (configure settings this)) = true.
Proof.
  assert (colorSpace (configure settings this)
          = Settings.colorSpace settings ?? colorSpace this) as ->.
  { unfold configure.
    destruct (CanvasColorSpace_eqb
                (Settings.colorSpace settings ?? colorSpace this)
                (colorSpace this)) eqn:E; cbn [negb];
      destruct (negb _ || negb _), (Settings.motionBlur settings);
      cbn; try reflexivity;
      destruct (Settings.colorSpace settings ?? colorSpace this),
               (colorSpace this); try reflexivity; discriminate E. }
  destruct (Settings.colorSpace settings); apply CanvasColorSpace_eqb_refl.
Qed.

Lemma configure_background (settings : Settings.t) (this : Stage) :
  background (configure settings this)
  = match
      Settings.background settings
        ?? match background this with
           | Some s => BgString s
           | None => BgNull
           end
    with
    | BgString s => Some s
    | BgColor c => Some (serialize c)
    | BgNull => None
    end.
Proof.
  unfold configure.
  destruct (negb (CanvasColorSpace_eqb _ _)), (negb _ || negb _),
    (Settings.motionBlur settings); reflexivity.
Qed.

Lemma configure_when_settled (settings : Settings.t) (this : Stage) :
  CanvasColorSpace_eqb (Settings.colorSpace settings ?? colorSpace this)
    (colorSpace this) = true ->
  Vector2.exactlyEquals (Settings.size settings ?? size this) (size this)
  = true ->
  Js.strict_eq (Settings.resolutionScale settings ?? resolutionScale this)
    (resolutionScale this) = true ->
  configure settings this
  = let this :=
      set_background
        match
          Settings.background settings
            ?? match background this with
               | Some s => BgString s
               | None => BgNull
               end
        with
        | BgString s => Some s
        | BgColor c => Some (serialize c)
        | BgNull => None
        end
        this in
    match Settings.motionBlur settings with
    | Some motionBlur =>
        set_motionBlurConfig (resolveMotionBlurConfig (Some motionBlur)) this
    | None => this
    end.
Proof.
  intros E1 E2 E3. unfold configure. rewrite E1. cbn [negb].
  rewrite E2, E3. reflexivity.
Qed.

(** X7: [configure] with no setting at all changes nothing, and applying
    the same settings a second time changes nothing more: the canvases are
    not fetched or resized again and an accumulation begun in between is
    not lost. *)
Theorem configure_settles (settings : Settings.t) (this : Stage) :
  configure
    {| Settings.size := None;
       Settings.resolutionScale := None;
       Settings.colorSpace := None;
       Settings.background := None;
       Settings.motionBlur := None |}
    this
  = this
  /\ configure settings (configure settings this) = configure settings this
  /\ accumulationBuffer
       (configure settings
          (beginMotionBlurAccumulation (configure settings this)))
     = accumulationBuffer
         (beginMotionBlurAccumulation (configure settings this)).
Proof.
  split; [|split].
  - rewrite configure_when_settled.
    + cbn [Settings.background Settings.motionBlur Js.nullish].
      destruct this as [bg ? ? ? ? ? ? ? ? ?]. now destruct bg.
    + apply CanvasColorSpace_eqb_refl.
    + apply exactlyEquals_refl.
    + unfold Js.strict_eq. apply Qeq_bool_refl.
  - destruct (configure_dimensions settings this) as [E2 E3].
    pose proof (configure_colorSpace settings this) as E1.
    pose proof (configure_background settings this) as Hbg.
    pose proof (configure_motionBlurConfig settings this) as Hmb.
    rewrite (configure_when_settled settings _ E1 E2 E3).
    destruct (configure settings this) as [bg sc cs sz mb b n c1 c2 c3].
    cbn [background motionBlurConfig] in Hbg, Hmb. cbn zeta.
    unfold set_background, set_motionBlurConfig.
    cbn [background resolutionScale colorSpace size motionBlurConfig
         accumulationBuffer accumulationSamples context currentContext
         previousContext].
    destruct (Settings.background settings) as [given|]; cbn [Js.nullish] in *.
    + rewrite <- Hbg. destruct (Settings.motionBlur settings);
        [rewrite <- Hmb|]; reflexivity.
    + assert (match match bg with
                    | Some s => BgString s
                    | None => BgNull
                    end with
              | BgColor c => Some (serialize c)
              | BgString s => Some s
              | BgNull => None
              end = bg) as -> by (now destruct bg).
      destruct (Settings.motionBlur settings); [rewrite <- Hmb|]; reflexivity.
  - destruct (configure_dimensions settings this) as [E2 E3].
    set (st := configure settings this) in *.
    rewrite beginMotionBlurAccumulation_unfold.
    unfold configure at 1.
    set (b := set_accumulationSamples _ _).
    change (size b) with (size st). change (resolutionScale b) with (resolutionScale st).
    set (this1 := if negb (CanvasColorSpace_eqb _ _) then _ else b).
    assert (size this1 = size st /\ resolutionScale this1 = resolutionScale st
            /\ accumulationBuffer this1 = accumulationBuffer b)
      as (-> & -> & Hb)
      by (unfold this1; destruct (negb _); repeat split).
    rewrite E2, E3. cbn [negb orb].
    destruct (Settings.motionBlur settings); cbn; exact Hb.
Qed.

End StageConfiguration.

Lemma stage_config_in_range_witness :
  config_in_range (getMotionBlurConfig example_stage)
  /\ config_in_range
       (getMotionBlurConfig (configure settings_same_size example_stage))
  /\ getMotionBlurConfig (configure settings_same_size example_stage)
     = resolveMotionBlurConfig (Some opts_phase_0).
Proof.
  assert (config_in_range (getMotionBlurConfig example_stage)) as Hin
    by (repeat split; vm_compute; discriminate).
  destruct (@stage_config_in_range bytes_canvas [] [] []
              settings_same_size 1 example_stage)
    as (_ & Hkeep & Hset).
  split; [exact Hin|]. split.
  - exact (proj1 (Hkeep Hin)).
  - exact (Hset opts_phase_0 eq_refl).
Defined.

(** ** More on the sub-frame offsets *)

Lemma loop_fuel_nonpositive (s : Q) : s <= 0 -> loop_fuel s = 0%nat.
Proof.
  intros Hs. unfold loop_fuel.
  assert (Qceiling s <= Qceiling 0)%Z as Hc by (now apply Qceiling_resp_le).
  change (Qceiling 0) with 0%Z in Hc. lia.
Qed.

(** X8: for any configuration, resolved or not, [calculateSubframeOffsets]
    returns as many offsets as there are whole numbers below [samples]: the
    sample count rounded up, and none at all when it is zero or negative. *)
Theorem calculateSubframeOffsets_length (c : MotionBlurConfig) (d : Q) :
  length (calculateSubframeOffsets c d) = Z.to_nat (Qceiling (samples c))
  /\ (samples c <= 0 -> calculateSubframeOffsets c d = []).
Proof.
  rewrite offsets_unfold. split.
  - now rewrite length_map, length_seq.
  - intros Hs. now rewrite loop_fuel_nonpositive.
Qed.





Lemma calculateSubframeOffsets_length_witness :
  samples (config_unresolved 0 box) <= 0
  /\ calculateSubframeOffsets (config_unresolved 0 box) (1 ⊘ 24) = []
  /\ length (calculateSubframeOffsets (config_unresolved (5 # 2) box) (1 ⊘ 24))
     = 3%nat.
Proof.
  assert (samples (config_unresolved 0 box) <= 0) as Hs
    by (vm_compute; discriminate).
  split; [exact Hs|]. split.
  - exact (proj2 (calculateSubframeOffsets_length
                    (config_unresolved 0 box) (1 ⊘ 24)) Hs).
  - exact (proj1 (calculateSubframeOffsets_length
                    (config_unresolved (5 # 2) box) (1 ⊘ 24))).
Defined.



(** The window is the one of double arithmetic: at 24 frames per second and
    a shutter angle of 270 degrees the first offset is the computed [-e],
    which is below the exact [-(d * (270 / 360))]. *)
Example test_exposure_window_rounds :
  let d := 1 ⊘ 24 in
  exists t,
    calculateSubframeOffsets
      (resolveMotionBlurConfig (Some opts_angle_270_center)) d !! 0%nat
    = Some t
    /\ t == - (d ⊗ (270 ⊘ 360))
    /\ t < - (d * (270 / 360)).
Proof. eexists. split; [vm_compute; reflexivity|]. split; reflexivity. Qed.
(** ** More on the sub-frame weights *)

Lemma Array_fill_None (n v : Q) :
  Js.Array_fill n v = None
  <-> ~ (Js.is_integer n /\ 0 <= n < 4294967296).
Proof.
  unfold Js.Array_fill.
  destruct (Js.is_integerb n && Qle_bool 0 n && Js.lt n 4294967296) eqn:E.
  - apply andb_true_iff in E as [E E1]. apply andb_true_iff in E as [Ei E0].
    apply Qeq_bool_iff in Ei. apply Qle_bool_iff in E0. apply lt_true_iff in E1.
    split; [discriminate|]. intros Hn. exfalso. apply Hn.
    unfold Js.is_integer. tauto.
  - split; [|reflexivity]. intros _ (Hi & H0 & H1).
    apply Qeq_bool_iff in Hi. apply Qle_bool_iff in H0. apply lt_true_iff in H1.
    unfold Js.is_integerb in E. rewrite Hi, H0, H1 in E. discriminate E.
Qed.

(** X11: [calculateSubframeWeights] fails (the [RangeError] of
    [Array(samples)]) exactly when the curve is ['box'] and the sample count
    is not a whole number from 0 up to 2^32 - 1; the triangle and gaussian
    curves never fail, and with them a sample count of zero or less gives no
    weights. *)
Theorem calculateSubframeWeights_failure `{MathLib} (c : MotionBlurConfig) :
  (calculateSubframeWeights c = None
   <-> shutterCurve c = box
       /\ ~ (Js.is_integer (samples c) /\ 0 <= samples c < 4294967296))
  /\ (shutterCurve c <> box -> samples c <= 0 ->
      calculateSubframeWeights c = Some []).
Proof.
  unfold calculateSubframeWeights, calculateBoxWeights,
    calculateTriangleWeights, calculateGaussianWeights.
  split.
  - destruct (shutterCurve c).
    + rewrite <- (Array_fill_None (samples c) 1).
      destruct (Js.Array_fill (samples c) 1).
      * split; [discriminate | intros [_ Hn]; discriminate Hn].
      * split; [intros _; split; reflexivity | reflexivity].
    + split; [discriminate | intros [Hb _]; discriminate Hb].
    + split; [discriminate | intros [Hb _]; discriminate Hb].
  - intros Hc Hs. destruct (shutterCurve c); [contradiction| |];
      rewrite push_loop_spec by reflexivity;
      now rewrite loop_fuel_nonpositive.
Qed.


(** ** More on the adaptive sample count *)

(** X13: with adaptive sampling, a configuration within the ranges of the
    resolver whose [adaptiveMinSamples] is a whole number (and a double), a
    positive threshold and a non-negative velocity, the result is a whole
    number that is at least [adaptiveMinSamples] and at most the larger of
    [adaptiveMinSamples] and [samples]. *)
Theorem calculateAdaptiveSamples_bounds
    (c : MotionBlurConfig) (v : Q) (threshold : option Q) :
  adaptiveSampling c = true -> config_in_range c ->
  Js.is_integer (adaptiveMinSamples c) -> Js.is_double (adaptiveMinSamples c) ->
  0 < threshold ?? 50 -> 0 <= v ->
  exists result,
    calculateAdaptiveSamples c v threshold = Some result
    /\ Js.is_integer result
    /\ adaptiveMinSamples c <= result
    /\ result <= Js.Math_max (adaptiveMinSamples c) (samples c).
Proof.
  intros Ha (Hi & Hs & _ & _ & Hm) Him Hd Ht Hv.
  rewrite adaptive_unfold by (assumption || lra).
  set (t := threshold ?? 50) in *.
  assert (0 <= Qmin 1 (v ⊘ t) <= 1) as Hscale.
  { pose proof (div_nonneg v t Hv Ht). q_minmax. lra. }
  generalize dependent (Qmin 1 (v ⊘ t)). intros scale Hscale.
  set (m := adaptiveMinSamples c) in *. set (n := samples c) in *.
  eexists. split; [reflexivity|].
  split; [|split].
  - apply (is_integer_max m); [assumption | apply Math_round_is_integer].
  - apply Q.le_max_l.
  - unfold Js.Math_max. apply Q.max_lub; [apply Q.le_max_l|].
    assert (Js.is_integer (Qmax m n)) as Himax
      by (apply (is_integer_max m n); assumption).
    apply Qle_trans with (Js.Math_round (Qmax m n));
      [|rewrite (Math_round_integer _ Himax); apply Qle_refl].
    apply Math_round_le.
    destruct (Qlt_le_dec n m) as [Hlt | Hle].
    + (* the interpolation stays at or below the minimum *)
      apply Qle_trans with m; [|apply Q.le_max_l].
      apply binary64_le_double; [|exact Hd].
      assert ((n ⊖ m) ⊗ scale <= 0); [|lra].
      apply binary64_nonpos.
      assert (n ⊖ m <= 0) as Hx1 by (apply binary64_nonpos; lra).
      nra.
    + (* the difference of the two whole numbers is exact *)
      apply Qle_trans with n; [|apply Q.le_max_r].
      assert (Js.is_double n) as Hdn.
      { apply is_double_integer; [exact Hi|]. apply Qabs_Qle_condition. lra. }
      assert (n ⊖ m == n - m) as E.
      { unfold Js.sub. apply is_double_integer.
        - apply is_integer_exists in Hi as [a Ea].
          apply is_integer_exists in Him as [b Eb].
          apply is_integer_exists. exists (a - b)%Z.
          unfold Z.sub. rewrite inject_Z_plus, inject_Z_opp, Ea, Eb.
          reflexivity.
        - apply Qabs_Qle_condition. lra. }
      assert ((n ⊖ m) ⊗ scale <= n - m) as Hp.
      { apply binary64_le_double.
        - rewrite E. nra.
        - rewrite <- E. unfold Js.sub. apply is_double_binary64. }
      apply binary64_le_double; [lra | exact Hdn].
Qed.
(** ** More on the configuration resolver *)

(** X14: a complete configuration that is within the documented ranges and
    has a non-zero shutter phase is left as it is by the resolver. *)
Theorem resolve_keeps_config_in_range (c : MotionBlurConfig) :
  config_in_range c -> ~ shutterPhase c == 0 ->
  config_eq (resolveMotionBlurConfig (Some (options_of_config c))) c.
Proof.
  intros (Hi & Hs & Ha & Hp & Hm) Hnz.
  unfold config_eq. cbn.
  repeat split; try reflexivity.
  - now apply clampSamples_fixpoint.
  - now apply clampShutterAngle_fixpoint.
  - q_minmax. lra.
  - unfold resolve_phase. cbn.
    destruct (Qeq_bool (shutterPhase c) 0) eqn:E.
    + apply Qeq_bool_eq in E. contradiction.
    + cbn. now apply clampShutterPhase_fixpoint.
Qed.

Lemma calculateSubframeWeights_failure_witness :
  ~ (Js.is_integer (samples (config_unresolved (5 # 2) box))
     /\ 0 <= samples (config_unresolved (5 # 2) box) < 4294967296)
  /\ @calculateSubframeWeights rational_math (config_unresolved (5 # 2) box)
     = None
  /\ @calculateSubframeWeights rational_math (config_unresolved 0 triangle)
     = Some [].
Proof.
  assert (~ (Js.is_integer (samples (config_unresolved (5 # 2) box))
             /\ 0 <= samples (config_unresolved (5 # 2) box) < 4294967296))
    as Hbad by (intros [Hi _]; vm_compute in Hi; discriminate Hi).
  assert (shutterCurve (config_unresolved 0 triangle) <> box) as Hcurve
    by discriminate.
  assert (samples (config_unresolved 0 triangle) <= 0) as Hs
    by (vm_compute; discriminate).
  split; [exact Hbad|]. split.
  - exact (proj2 (proj1 (@calculateSubframeWeights_failure rational_math
                           (config_unresolved (5 # 2) box)))
             (conj eq_refl Hbad)).
  - exact (proj2 (@calculateSubframeWeights_failure rational_math
                    (config_unresolved 0 triangle)) Hcurve Hs).
Defined.


Lemma calculateAdaptiveSamples_bounds_witness :
  let c := resolveMotionBlurConfig (Some (opts_samples_5 box)) in
  adaptiveSampling c = true /\ config_in_range c
  /\ Js.is_integer (adaptiveMinSamples c) /\ Js.is_double (adaptiveMinSamples c)
  /\ exists result,
       calculateAdaptiveSamples c 25 (Some 50) = Some result
       /\ Js.is_integer result /\ 2 <= result <= 5.
Proof.
  intros c.
  assert (adaptiveSampling c = true) as Had by reflexivity.
  assert (config_in_range c) as Hc.
  { unfold config_in_range. repeat split; vm_compute; congruence. }
  assert (Js.is_integer (adaptiveMinSamples c)) as Hm
    by (vm_compute; reflexivity).
  assert (Js.is_double (adaptiveMinSamples c)) as Hd
    by (vm_compute; reflexivity).
  assert (0 < Some 50 ?? 50) as Ht by (vm_compute; reflexivity).
  assert (0 <= 25) as Hv by (vm_compute; discriminate).
  split; [exact Had|]. split; [exact Hc|]. split; [exact Hm|].
  split; [exact Hd|].
  destruct (calculateAdaptiveSamples_bounds c 25 (Some 50) Had Hc Hm Hd Ht Hv)
    as (result & Heq & Hint & Hlo & Hhi).
  exists result. split; [exact Heq|]. split; [exact Hint|]. split.
  - refine (Qle_trans _ _ _ _ Hlo). vm_compute. discriminate.
  - refine (Qle_trans _ _ _ Hhi _). vm_compute. discriminate.
Defined.

Lemma resolve_keeps_config_in_range_witness :
  let c := resolveMotionBlurConfig (Some (opts_samples_5 gaussian)) in
  config_in_range c /\ ~ shutterPhase c == 0
  /\ config_eq (resolveMotionBlurConfig (Some (options_of_config c))) c.
Proof.
  intros c.
  assert (config_in_range c) as Hin
    by (repeat split; vm_compute; discriminate).
  assert (~ shutterPhase c == 0) as Hphase
    by (intros E; vm_compute in E; discriminate E).
  split; [exact Hin|]. split; [exact Hphase|].
  exact (resolve_keeps_config_in_range c Hin Hphase).
Defined.

(** ** The playback clock and the sub-frame offset *)

Section Playback.

Context {State : Type}.

(** X15: with a non-zero frame rate, a sub-frame offset is added to [time]
    and touches nothing else: [time] is the frame's time plus the offset,
    resetting gives back the frame's time, a new offset replaces the old one
    instead of adding to it, and [frame], [speed], [fps], [state] and
    [deltaTime] do not depend on it. *)
Theorem subframe_offset_shifts_time
    (this : PlaybackStatus.t State) (offset offset' : Js.number) :
  ~ PlaybackStatus.fps this == 0 ->
  let shifted := PlaybackStatus.setSubframeOffset offset this in
  PlaybackStatus.time shifted
  == PlaybackStatus.framesToSeconds this (PlaybackStatus.frame this) ⊕ offset
  /\ PlaybackStatus.time (PlaybackStatus.resetSubframeOffset shifted)
     == PlaybackStatus.framesToSeconds this (PlaybackStatus.frame this)
  /\ PlaybackStatus.time (PlaybackStatus.new (PlaybackStatus.playback this))
     == PlaybackStatus.framesToSeconds this (PlaybackStatus.frame this)
  /\ PlaybackStatus.setSubframeOffset offset' shifted
     = PlaybackStatus.setSubframeOffset offset' this
  /\ PlaybackStatus.frame shifted = PlaybackStatus.frame this
  /\ PlaybackStatus.speed shifted = PlaybackStatus.speed this
  /\ PlaybackStatus.fps shifted = PlaybackStatus.fps this
  /\ PlaybackStatus.state shifted = PlaybackStatus.state this
  /\ PlaybackStatus.deltaTime shifted = PlaybackStatus.deltaTime this.
Proof.
  intros _. cbn zeta.
  unfold PlaybackStatus.time, PlaybackStatus.framesToSeconds,
    PlaybackStatus.frame. cbn.
  repeat split; try reflexivity;
    apply add_0_r; unfold Js.div; apply is_double_binary64.
Qed.



End Playback.

Lemma subframe_offset_shifts_time_witness :
  ~ PlaybackStatus.fps example_playback == 0
  /\ PlaybackStatus.time
       (PlaybackStatus.setSubframeOffset (- (1 # 128)) example_playback)
     == 2 - (1 # 128)
  /\ PlaybackStatus.time
       (PlaybackStatus.resetSubframeOffset
          (PlaybackStatus.setSubframeOffset (- (1 # 128)) example_playback))
     == 2.
Proof.
  assert (~ PlaybackStatus.fps example_playback == 0) as Hfps
    by (intros E; vm_compute in E; discriminate E).
  split; [exact Hfps|].
  destruct (subframe_offset_shifts_time example_playback (- (1 # 128)) 0 Hfps)
    as (Htime & Hreset & _).
  split.
  - rewrite Htime. vm_compute. reflexivity.
  - rewrite Hreset. vm_compute. reflexivity.
Defined.



(** Both outcomes occur: at 24 frames per second 48 frames come back as 48,
    and at 30 frames per second 31 frames come back as 32, because
    [(31 / 30) * 30] is 31.000000000000004 in double arithmetic. *)
Example test_frames_seconds_round_trip :
  let at_fps fps : PlaybackStatus.t unit :=
    PlaybackStatus.new
      {| PlaybackManager.frame := 0; PlaybackManager.fps := fps;
         PlaybackManager.speed := 1; PlaybackManager.state := tt |} in
  PlaybackStatus.secondsToFrames (at_fps 24)
    (PlaybackStatus.framesToSeconds (at_fps 24) 48) = 48
  /\ PlaybackStatus.secondsToFrames (at_fps 30)
       (PlaybackStatus.framesToSeconds (at_fps 30) 31) = 32.
Proof. split; vm_compute; reflexivity. Qed.

(** The sum in [time] is the one of double arithmetic: two seconds plus the
    double nearest to a tenth is the double nearest to 2.1, not their exact
    sum. *)
Example test_time_rounds :
  let shifted := PlaybackStatus.setSubframeOffset (1 ⊘ 10) example_playback in
  PlaybackStatus.time shifted == 2 ⊕ 1 ⊘ 10
  /\ ~ PlaybackStatus.time shifted == 2 + 1 ⊘ 10.
Proof.
  split; [vm_compute; reflexivity|].
  intros E. vm_compute in E. discriminate E.
Qed.
(** ** The description of a configuration *)

Lemma string_app_assoc (a b c : string) :
  ((a ++ b) ++ c = a ++ (b ++ c))%string.
Proof. induction a as [|ch a IH]; cbn; [reflexivity | now rewrite IH]. Qed.

Lemma string_app_nonempty (a b : string) :
  b <> ""%string -> String.eqb (a ++ b) "" = false.
Proof.
  intros Hb. apply String.eqb_neq. destruct a; cbn; [assumption | discriminate].
Qed.

(** X18: [describeMotionBlurConfig] returns ['Motion blur disabled'] exactly
    for a disabled configuration.  For an enabled one it returns
    ['Motion blur: N samples, A° shutter'] followed by the choices that
    differ from the defaults, and by nothing at all when the curve is box,
    the position is center and adaptive sampling is off. *)
Theorem describeMotionBlurConfig_spec `{NumberFormat} (c : MotionBlurConfig) :
  (describeMotionBlurConfig c = "Motion blur disabled"%string
   <-> enabled c = false)
  /\ (enabled c = true ->
      exists extras,
        describeMotionBlurConfig c
        = ("Motion blur: " ++ Number_toString (samples c) ++ " samples, "
           ++ Number_toString (shutterAngle c) ++ "° shutter" ++ extras)%string
        /\ (extras = ""%string
            <-> shutterCurve c = box /\ shutterPosition c = center
                /\ adaptiveSampling c = false)).
Proof.
  unfold describeMotionBlurConfig.
  destruct (enabled c); cbn [negb].
  - cbn [filter_Boolean].
    rewrite !string_app_nonempty by discriminate.
    split; [split; [cbn; discriminate | discriminate]|].
    intros _.
    destruct (shutterCurve c), (shutterPosition c), (adaptiveSampling c);
      cbn [ShutterCurve_eqb ShutterPosition_eqb negb ShutterCurve_toString
           ShutterPosition_toString filter_Boolean String.eqb Ascii.eqb
           Bool.eqb String.append String.concat andb];
      eexists; rewrite ?string_app_assoc;
      (split; [cbn; repeat f_equal; try reflexivity
              | split; [try discriminate | intros (? & ? & ?); try discriminate]]).
    all: try reflexivity.
    all: try (repeat split; reflexivity).
  - split; [split; reflexivity | discriminate].
Qed.

Lemma describeMotionBlurConfig_spec_witness :
  let c := resolveMotionBlurConfig (Some (opts_samples_5 gaussian)) in
  enabled c = true
  /\ (exists extras,
        @describeMotionBlurConfig whole_number_format c
        = ("Motion blur: 5 samples, 180° shutter" ++ extras)%string
        /\ extras <> ""%string)
  /\ @describeMotionBlurConfig whole_number_format DEFAULT_MOTION_BLUR_CONFIG
     = "Motion blur disabled"%string.
Proof.
  intros c.
  assert (enabled c = true) as Hon by reflexivity.
  split; [exact Hon|].
  destruct (@describeMotionBlurConfig_spec whole_number_format c)
    as (_ & Hdesc).
  destruct (Hdesc Hon) as (extras & Heq & Hextras).
  split.
  - exists extras. split; [exact Heq|].
    intros E. apply Hextras in E. destruct E as (E & _). discriminate E.
  - exact (proj2 (proj1 (@describeMotionBlurConfig_spec whole_number_format
                           DEFAULT_MOTION_BLUR_CONFIG)) eq_refl).
Defined.

(** ** The request validator *)

Ltac solve_sublist :=
  cbn [map Validation.field app];
  repeat first [ apply sublist_nil | apply sublist_skip | apply sublist_cons ].

Lemma validateExporter_fields (exporter : Value.t) :
  sublist (map Validation.field (Validation.validateExporter exporter))
    [ "settings.projectSettings.exporter";
      "settings.projectSettings.exporter.name";
      "settings.projectSettings.exporter.options";
      "settings.projectSettings.exporter.options.format" ]%string.
Proof. unfold Validation.validateExporter. repeat case_match; solve_sublist. Qed.

Lemma validateSize_fields (size : Value.t) :
  sublist (map Validation.field (Validation.validateSize size))
    [ "settings.projectSettings.size";
      "settings.projectSettings.size.x";
      "settings.projectSettings.size.y" ]%string.
Proof. unfold Validation.validateSize. repeat case_match; solve_sublist. Qed.

Lemma validateRange_fields (range : Value.t) :
  sublist (map Validation.field (Validation.validateRange range))
    [ "settings.projectSettings.range[0]";
      "settings.projectSettings.range[1]";
      "settings.projectSettings.range" ]%string.
Proof. unfold Validation.validateRange. repeat case_match; solve_sublist. Qed.

Lemma validateIntegerInRange_fields
    (value : Value.t) (lo hi : Q) (f m1 m2 : string) :
  sublist
    (map Validation.field (Validation.validateIntegerInRange value lo hi f m1 m2))
    [f].
Proof.
  unfold Validation.validateIntegerInRange. repeat case_match; solve_sublist.
Qed.

Lemma sublist_if_singleton {A : Type} (b : bool) (x : A) :
  sublist (if b then [x] else []) [x].
Proof. destruct b; repeat constructor. Qed.

Lemma validateProjectSettings_fields (ps : Value.t) :
  sublist (map Validation.field (Validation.validateProjectSettings ps))
    (drop 10 validation_fields).
Proof.
  unfold Validation.validateProjectSettings.
  destruct (negb _ || Value.is_null ps); [solve_sublist|].
  rewrite !map_app. apply sublist_cons.
  apply (sublist_app _ [_; _; _; _]).
  { destruct (negb _); [apply validateExporter_fields | solve_sublist]. }
  apply (sublist_app _ [_]).
  { destruct (negb _ && negb _); solve_sublist. }
  apply (sublist_app _ [_; _; _]).
  { destruct (negb _); [apply validateSize_fields | solve_sublist]. }
  destruct (negb _); [apply validateRange_fields | solve_sublist].
Qed.

Lemma validateSettings_fields (settings : Value.t) :
  sublist (map Validation.field (Validation.validateSettings settings))
    (drop 4 validation_fields).
Proof.
  unfold Validation.validateSettings.
  destruct (negb _ || Value.is_null settings); [solve_sublist|].
  rewrite !map_app. apply sublist_cons.
  apply (sublist_app _ [_]).
  { repeat case_match; solve_sublist. }
  apply (sublist_app _ [_]).
  { destruct (negb _ && negb _); solve_sublist. }
  apply (sublist_app _ [_]); [apply validateIntegerInRange_fields|].
  apply (sublist_app _ [_]).
  { destruct (negb _ && negb _); solve_sublist. }
  apply (sublist_app _ [_]); [apply validateIntegerInRange_fields|].
  destruct (negb _); [apply validateProjectSettings_fields | solve_sublist].
Qed.

Lemma validateRenderRequest_object_fields `{UrlApi} (body : Value.t) :
  Value.truthy body = true -> Value.typeof body = Value.type_object ->
  sublist
    (map Validation.field
       (Validation.errors (Validation.validateRenderRequest body)))
    (drop 1 validation_fields).
Proof.
  intros Ht Hty. unfold Validation.validateRenderRequest.
  rewrite Ht, Hty. cbn [negb orb Value.TypeOf_eqb Validation.errors].
  rewrite !map_app.
  apply (sublist_app _ [_]).
  { repeat case_match; solve_sublist. }
  apply (sublist_app _ [_]).
  { repeat case_match; solve_sublist. }
  apply (sublist_app _ [_]).
  { destruct (negb _ && negb _); solve_sublist. }
  destruct (negb _); [apply validateSettings_fields | solve_sublist].
Qed.

Lemma body_passes_iff (body : Value.t) :
  Value.truthy body = true /\ Value.typeof body = Value.type_object
  <-> (exists props, body = Value.VObject props)
      \/ (exists items, body = Value.VArray items).
Proof.
  split.
  - intros [Ht Hty]. destruct body; try discriminate; eauto.
  - intros [[props ->] | [items ->]]; split; reflexivity.
Qed.

(** X19: a request whose body is not an object or an array (nothing at all,
    [null], a boolean, a number, a string) is turned down with the single
    error on field ['body'] and nothing else is looked at; an object or an
    array is never reported on field ['body']. *)
Theorem validateRenderRequest_body `{UrlApi} (body : Value.t) :
  let result := Validation.validateRenderRequest body in
  let is_object :=
    (exists props, body = Value.VObject props)
    \/ (exists items, body = Value.VArray items) in
  (~ is_object ->
   result
   = {| Validation.valid := false;
        Validation.errors :=
          [{| Validation.field := "body";
              Validation.message := "Request body must be a JSON object" |}] |})
  /\ (is_object ->
      ~ In "body"%string (map Validation.field (Validation.errors result))).
Proof.
  cbn zeta. split.
  - intros Hn. unfold Validation.validateRenderRequest.
    destruct (negb (Value.truthy body)
              || negb (Value.TypeOf_eqb (Value.typeof body) Value.type_object))
      eqn:E; [reflexivity|].
    exfalso. apply Hn, body_passes_iff.
    apply orb_false_iff in E as [E1 E2].
    apply negb_false_iff in E1, E2. split; [assumption|].
    destruct (Value.typeof body); try discriminate; reflexivity.
  - intros Hobj. apply body_passes_iff in Hobj as [Ht Hty].
    pose proof (validateRenderRequest_object_fields body Ht Hty) as Hsub.
    intros Hin. apply list_elem_of_In in Hin.
    pose proof (sublist_submseteq _ _ Hsub) as Hsm.
    apply (elem_of_submseteq _ _ _ Hin) in Hsm.
    apply list_elem_of_In in Hsm. cbn in Hsm.
    repeat (destruct Hsm as [Hsm | Hsm]; [discriminate Hsm|]). exact Hsm.
Qed.

Lemma validation_fields_NoDup : NoDup validation_fields.
Proof.
  assert (nodup string_dec validation_fields = validation_fields) as <-
    by (vm_compute; reflexivity).
  apply NoDup_ListNoDup, NoDup_nodup.
Qed.

(** X20: the errors come in one fixed order of fields and no field is
    reported twice; the request is valid exactly when there is no error. *)
Theorem validateRenderRequest_errors `{UrlApi} (body : Value.t) :
  let result := Validation.validateRenderRequest body in
  sublist (map Validation.field (Validation.errors result)) validation_fields
  /\ NoDup (map Validation.field (Validation.errors result))
  /\ (Validation.valid result = true <-> Validation.errors result = []).
Proof.
  cbn zeta.
  assert (sublist
            (map Validation.field
               (Validation.errors (Validation.validateRenderRequest body)))
            validation_fields) as Hsub.
  { destruct (Value.truthy body) eqn:Ht;
      [destruct (Value.TypeOf_eqb (Value.typeof body) Value.type_object) eqn:Hty|].
    - apply sublist_cons. apply validateRenderRequest_object_fields; [assumption|].
      destruct (Value.typeof body); try discriminate; reflexivity.
    - unfold Validation.validateRenderRequest. rewrite Ht, Hty. solve_sublist.
    - unfold Validation.validateRenderRequest. rewrite Ht. solve_sublist. }
  split; [exact Hsub|]. split.
  - exact (sublist_NoDup _ _ validation_fields_NoDup Hsub).
  - unfold Validation.validateRenderRequest.
    destruct (negb _ || negb _); cbn [Validation.valid Validation.errors].
    + split; discriminate.
    + rewrite Nat.eqb_eq. apply length_zero_iff_nil.
Qed.

Lemma validateRenderRequest_body_witness :
  let is_object body :=
    (exists props, body = Value.VObject props)
    \/ (exists items, body = Value.VArray items) in
  ~ is_object (Value.VString "render")
  /\ is_object example_bad_request
  /\ Validation.validateRenderRequest (Value.VString "render")
     = {| Validation.valid := false;
          Validation.errors :=
            [{| Validation.field := "body";
                Validation.message := "Request body must be a JSON object" |}] |}
  /\ ~ In "body"%string
         (map Validation.field
            (Validation.errors
               (Validation.validateRenderRequest example_bad_request))).
Proof.
  intros is_object.
  assert (~ is_object (Value.VString "render")) as Hno
    by (intros [[props E] | [items E]]; discriminate E).
  assert (is_object example_bad_request) as Hyes
    by (left; eexists; reflexivity).
  split; [exact Hno|]. split; [exact Hyes|]. split.
  - exact (proj1 (@validateRenderRequest_body scheme_urls
                    (Value.VString "render")) Hno).
  - exact (proj2 (@validateRenderRequest_body scheme_urls
                    example_bad_request) Hyes).
Defined.

Lemma validateRenderRequest_errors_witness :
  let result := Validation.validateRenderRequest example_bad_request in
  map Validation.field (Validation.errors result)
  = [ "callbackUrl"; "settings.outFile"; "settings.workers";
      "settings.projectSettings.size.x"; "settings.projectSettings.size.y";
      "settings.projectSettings.range" ]%string
  /\ sublist (map Validation.field (Validation.errors result))
       validation_fields
  /\ Validation.valid result <> true.
Proof.
  intros result.
  destruct (@validateRenderRequest_errors scheme_urls example_bad_request)
    as (Hsub & _ & Hvalid).
  split; [vm_compute; reflexivity|]. split; [exact Hsub|].
  intros Htrue. apply Hvalid in Htrue. discriminate Htrue.
Defined.

Lemma substring_all (s : string) : substring 0 (String.length s) s = s.
Proof. induction s as [|c s IH]; cbn; [reflexivity | now rewrite IH]. Qed.

Lemma substring_after (stem suffix : string) :
  substring (String.length stem) (String.length suffix) (stem ++ suffix)
  = suffix.
Proof. induction stem as [|c stem IH]; cbn; [apply substring_all | exact IH]. Qed.

Lemma string_length_app (a b : string) :
  String.length (a ++ b) = (String.length a + String.length b)%nat.
Proof. induction a as [|c a IH]; cbn; [reflexivity | now rewrite IH]. Qed.

Lemma substring_split (s : string) (k : nat) :
  (k <= String.length s)%nat ->
  s = (substring 0 k s ++ substring k (String.length s - k) s)%string.
Proof.
  revert k. induction s as [|c s IH]; intros k Hk.
  - destruct k; reflexivity.
  - destruct k as [|k]; cbn.
    + now rewrite substring_all.
    + f_equal. apply IH. cbn in Hk. lia.
Qed.

Lemma endsWith_spec (s suffix : string) :
  Value.endsWith s suffix = true <-> exists stem, s = (stem ++ suffix)%string.
Proof.
  unfold Value.endsWith. rewrite andb_true_iff, Nat.leb_le, String.eqb_eq.
  split.
  - intros [Hlen Hsub].
    exists (substring 0 (String.length s - String.length suffix) s).
    set (k := (String.length s - String.length suffix)%nat) in *.
    assert (String.length s - k = String.length suffix)%nat as Hk by lia.
    rewrite (substring_split s k) at 1 by lia.
    f_equal. rewrite Hk. exact Hsub.
  - intros [stem ->]. rewrite string_length_app. split; [lia|].
    replace (String.length stem + String.length suffix - String.length suffix)%nat
      with (String.length stem) by lia.
    apply substring_after.
Qed.

Lemma validateIntegerInRange_nil
    (value : Value.t) (lo hi : Q) (f m1 m2 : string) :
  Validation.validateIntegerInRange value lo hi f m1 m2 = [] ->
  value = Value.VUndefined
  \/ exists q, value = Value.VNumber (Value.Finite q)
       /\ Js.is_integer q /\ lo <= q <= hi.
Proof.
  unfold Validation.validateIntegerInRange.
  destruct value as [| |b|[q| | |]|s|items|props]; cbn; try discriminate;
    [now left|].
  destruct (Js.is_integerb q) eqn:Ei; cbn; [|discriminate].
  destruct (Js.lt q lo) eqn:E1; cbn; [discriminate|].
  destruct (Js.lt hi q) eqn:E2; cbn; [discriminate|].
  intros _. right. exists q. split; [reflexivity|].
  apply lt_false_iff in E1, E2. apply Qeq_bool_eq in Ei. tauto.
Qed.

(** X21: what a valid request can be relied on for.  If the validator
    accepts a body, then: a callback URL, if given, is a string that parses
    to an http or https URL; [settings.workers] and [settings.viteBasePort],
    if given, are whole numbers from 1 to 32 and from 1 to 65535;
    [settings.outFile], if given, is a string ending in [.mp4], [.webm] or
    [.mov]; and [streamProgress], if given, is a boolean. *)
Theorem valid_request_guarantees `{UrlApi} (body : Value.t) :
  Validation.valid (Validation.validateRenderRequest body) = true ->
  let settings := Value.get body "settings" in
  (Value.get body "callbackUrl" = Value.VUndefined
   \/ exists url, Value.get body "callbackUrl" = Value.VString url
        /\ (URL_protocol url = Some "http:"%string
            \/ URL_protocol url = Some "https:"%string))
  /\ (Value.get body "streamProgress" = Value.VUndefined
      \/ exists b, Value.get body "streamProgress" = Value.VBoolean b)
  /\ (Value.get settings "workers" = Value.VUndefined
      \/ exists q, Value.get settings "workers" = Value.VNumber (Value.Finite q)
           /\ Js.is_integer q /\ 1 <= q <= 32)
  /\ (Value.get settings "viteBasePort" = Value.VUndefined
      \/ exists q,
           Value.get settings "viteBasePort" = Value.VNumber (Value.Finite q)
           /\ Js.is_integer q /\ 1 <= q <= 65535)
  /\ (Value.get settings "outFile" = Value.VUndefined
      \/ exists stem extension,
           Value.get settings "outFile" = Value.VString (stem ++ extension)
           /\ In extension [".mp4"; ".webm"; ".mov"]%string).
Proof.
  intros Hvalid. cbn zeta.
  unfold Validation.validateRenderRequest in Hvalid.
  destruct (negb (Value.truthy body) || negb _); [discriminate Hvalid|].
  cbn [Validation.valid] in Hvalid.
  apply Nat.eqb_eq, length_zero_iff_nil in Hvalid.
  apply app_eq_nil in Hvalid as [Hcb Hvalid].
  apply app_eq_nil in Hvalid as [_ Hvalid].
  apply app_eq_nil in Hvalid as [Hsp Hset].
  split; [|split].
  - destruct (Value.get body "callbackUrl") as [| |b|n|url|items|props];
      cbn in Hcb; try discriminate Hcb; [now left|].
    right. exists url. split; [reflexivity|].
    unfold Validation.isValidUrl in Hcb.
    destruct (URL_protocol url) as [protocol|]; [|discriminate Hcb].
    destruct (String.eqb protocol "http:") eqn:E1.
    { apply String.eqb_eq in E1. left. now rewrite E1. }
    destruct (String.eqb protocol "https:") eqn:E2; [|discriminate Hcb].
    apply String.eqb_eq in E2. right. now rewrite E2.
  - destruct (Value.get body "streamProgress"); cbn in Hsp;
      try discriminate Hsp; [now left | right; eauto].
  - destruct (Value.get body "settings") as [| |b|n|s|items|props] eqn:Es;
      cbn in Hset; try discriminate Hset;
      try (repeat split; left; reflexivity).
    unfold Validation.validateSettings in Hset.
    cbn [Value.typeof Value.TypeOf_eqb Value.is_null negb orb] in Hset.
    apply app_eq_nil in Hset as [Hout Hset].
    apply app_eq_nil in Hset as [_ Hset].
    apply app_eq_nil in Hset as [Hwork Hset].
    apply app_eq_nil in Hset as [_ Hset].
    apply app_eq_nil in Hset as [Hport _].
    cbn [Value.get] in *.
    split; [|split].
    + exact (validateIntegerInRange_nil _ _ _ _ _ _ Hwork).
    + exact (validateIntegerInRange_nil _ _ _ _ _ _ Hport).
    + destruct (Value.lookup_property "outFile" props)
        as [| |b|n|f|items|props'];
        cbn in Hout; try discriminate Hout; [now left|].
      right. unfold Validation.isValidOutFile in Hout.
      destruct (Value.endsWith f ".mp4") eqn:E1.
      { apply endsWith_spec in E1 as [stem ->]. exists stem, ".mp4"%string.
        split; [reflexivity | cbn; tauto]. }
      destruct (Value.endsWith f ".webm") eqn:E2.
      { apply endsWith_spec in E2 as [stem ->]. exists stem, ".webm"%string.
        split; [reflexivity | cbn; tauto]. }
      destruct (Value.endsWith f ".mov") eqn:E3; [|discriminate Hout].
      apply endsWith_spec in E3 as [stem ->]. exists stem, ".mov"%string.
      split; [reflexivity | cbn; tauto].
Qed.

Lemma valid_request_guarantees_witness :
  Validation.valid (Validation.validateRenderRequest example_request) = true
  /\ (exists q,
        Value.get (Value.get example_request "settings") "workers"
        = Value.VNumber (Value.Finite q)
        /\ Js.is_integer q /\ 1 <= q <= 32)
  /\ (exists stem extension,
        Value.get (Value.get example_request "settings") "outFile"
        = Value.VString (stem ++ extension)
        /\ In extension [".mp4"; ".webm"; ".mov"]%string).
Proof.
  assert (Validation.valid (Validation.validateRenderRequest example_request)
          = true) as Hvalid by (vm_compute; reflexivity).
  split; [exact Hvalid|].
  destruct (@valid_request_guarantees scheme_urls example_request Hvalid)
    as (_ & _ & Hworkers & _ & HoutFile).
  split.
  - destruct Hworkers as [E | Hw]; [discriminate E | exact Hw].
  - destruct HoutFile as [E | Hf]; [discriminate E | exact Hf].
Defined.

Lemma valid_projectSettings `{UrlApi} (body : Value.t) :
  Validation.valid (Validation.validateRenderRequest body) = true ->
  let ps := Value.get (Value.get body "settings") "projectSettings" in
  ps = Value.VUndefined \/ Validation.validateProjectSettings ps = [].
Proof.
  intros Hvalid. cbn zeta.
  unfold Validation.validateRenderRequest in Hvalid.
  destruct (negb (Value.truthy body) || negb _); [discriminate Hvalid|].
  cbn [Validation.valid] in Hvalid.
  apply Nat.eqb_eq, length_zero_iff_nil in Hvalid.
  apply app_eq_nil in Hvalid as [_ Hvalid].
  apply app_eq_nil in Hvalid as [_ Hvalid].
  apply app_eq_nil in Hvalid as [_ Hset].
  destruct (Value.get body "settings") as [| |b|n|s|items|props];
    cbn in Hset; try discriminate Hset; try (now left).
  unfold Validation.validateSettings in Hset.
  cbn [Value.typeof Value.TypeOf_eqb Value.is_null negb orb] in Hset.
  apply app_eq_nil in Hset as [_ Hset].
  apply app_eq_nil in Hset as [_ Hset].
  apply app_eq_nil in Hset as [_ Hset].
  apply app_eq_nil in Hset as [_ Hset].
  apply app_eq_nil in Hset as [_ Hps].
  cbn [Value.get] in *.
  destruct (Value.lookup_property "projectSettings" props);
    cbn [Value.is_undefined negb] in Hps; [now left | now right ..].
Qed.

Lemma includes_In (l : list string) (s : string) :
  Value.includes l s = true <-> In s l.
Proof.
  unfold Value.includes. rewrite existsb_exists. split.
  - intros (x & Hin & Hx). apply String.eqb_eq in Hx. now subst.
  - intros Hin. exists s. split; [assumption | apply String.eqb_refl].
Qed.

(** X22: what a valid request can be relied on for in its project settings.
    If the validator accepts a body, then: a [size], if given, has numbers
    for [x] and [y] and neither is zero, negative or minus infinity ([NaN]
    and [Infinity] pass); a [range], if given, is an array of exactly two
    numbers whose start is not negative and whose end, when finite, is not
    before the start; and an exporter name, if given, is one of the three
    known exporters. *)
Theorem valid_request_project_settings `{UrlApi} (body : Value.t) :
  Validation.valid (Validation.validateRenderRequest body) = true ->
  let ps := Value.get (Value.get body "settings") "projectSettings" in
  let positive n :=
    match n with
    | Value.Finite q => 0 < q
    | Value.NegInfinity => False
    | Value.PosInfinity | Value.NaN => True
    end in
  (Value.get ps "size" = Value.VUndefined
   \/ exists x y,
        Value.get (Value.get ps "size") "x" = Value.VNumber x
        /\ Value.get (Value.get ps "size") "y" = Value.VNumber y
        /\ positive x /\ positive y)
  /\ (Value.get ps "range" = Value.VUndefined
      \/ exists s e,
           Value.get ps "range"
           = Value.VArray [Value.VNumber s; Value.VNumber e]
           /\ Value.lt s (Value.Finite 0) = false
           /\ (Value.isFinite e = true -> Value.lt e s = false))
  /\ (Value.get (Value.get ps "exporter") "name" = Value.VUndefined
      \/ exists name,
           Value.get (Value.get ps "exporter") "name" = Value.VString name
           /\ In name Validation.validExporters).
Proof.
  intros Hvalid. cbn zeta.
  destruct (valid_projectSettings body Hvalid) as [-> | Hps];
    [repeat split; left; reflexivity|].
  set (ps := Value.get (Value.get body "settings") "projectSettings") in *.
  clearbody ps. unfold Validation.validateProjectSettings in Hps.
  destruct (negb (Value.TypeOf_eqb (Value.typeof ps) Value.type_object)
            || Value.is_null ps); [discriminate Hps|].
  apply app_eq_nil in Hps as [Hexp Hps].
  apply app_eq_nil in Hps as [_ Hps].
  apply app_eq_nil in Hps as [Hsize Hrange].
  split; [|split].
  - destruct (Value.get ps "size") as [| |b|n|s|items|props];
      try (now left); cbn in Hsize; try discriminate Hsize.
    right. apply app_eq_nil in Hsize as [Hx Hy]. cbn [Value.get].
    destruct (Value.lookup_property "x" props) as [| | |x| | |];
      try discriminate Hx.
    destruct (Value.lookup_property "y" props) as [| | |y| | |];
      try discriminate Hy.
    exists x, y. split; [reflexivity|]. split; [reflexivity|].
    split.
    + destruct x as [q| | |]; cbn in Hx |- *; try exact I;
        try discriminate Hx.
      destruct (Qle_bool q 0) eqn:E; [discriminate Hx|].
      destruct (Qlt_le_dec 0 q) as [|Hle]; [assumption|].
      apply Qle_bool_iff in Hle. congruence.
    + destruct y as [q| | |]; cbn in Hy |- *; try exact I;
        try discriminate Hy.
      destruct (Qle_bool q 0) eqn:E; [discriminate Hy|].
      destruct (Qlt_le_dec 0 q) as [|Hle]; [assumption|].
      apply Qle_bool_iff in Hle. congruence.
  - destruct (Value.get ps "range") as [| |b|n|s|items|props];
      try (now left); cbn in Hrange; try discriminate Hrange.
    right. destruct items as [|first [|second [|third items]]];
      try discriminate Hrange.
    destruct first as [| | |s| | |]; try discriminate Hrange.
    destruct second as [| | |e| | |];
      try (destruct (Value.lt s (Value.Finite 0)); discriminate Hrange).
    exists s, e. split; [reflexivity|].
    destruct (Value.lt s (Value.Finite 0)); [discriminate Hrange|].
    split; [reflexivity|]. intros Hfin. rewrite Hfin in Hrange.
    destruct (Value.lt e s); [discriminate Hrange | reflexivity].
  - destruct (Value.get ps "exporter") as [| |b|n|s|items|props];
      try (left; reflexivity).
    cbn [Value.is_undefined negb] in Hexp.
    unfold Validation.validateExporter in Hexp.
    cbn [Value.typeof Value.TypeOf_eqb Value.is_null negb orb] in Hexp.
    apply app_eq_nil in Hexp as [Hname _]. cbn [Value.get] in *.
    destruct (Value.lookup_property "name" props) as [| | | |name| |];
      try (now left); cbn [Value.is_undefined negb] in Hname;
      try discriminate Hname.
    right. exists name. split; [reflexivity|].
    apply includes_In.
    destruct (Value.includes Validation.validExporters name);
      [reflexivity | discriminate Hname].
Qed.

Lemma valid_request_project_settings_witness :
  let ps :=
    Value.get (Value.get example_request "settings") "projectSettings" in
  Validation.valid (Validation.validateRenderRequest example_request) = true
  /\ (exists s e,
        Value.get ps "range" = Value.VArray [Value.VNumber s; Value.VNumber e]
        /\ Value.lt s (Value.Finite 0) = false)
  /\ (exists name,
        Value.get (Value.get ps "exporter") "name" = Value.VString name
        /\ In name Validation.validExporters).
Proof.
  intros ps.
  assert (Validation.valid (Validation.validateRenderRequest example_request)
          = true) as Hvalid by (vm_compute; reflexivity).
  split; [exact Hvalid|].
  destruct (@valid_request_project_settings scheme_urls example_request Hvalid)
    as (_ & Hrange & Hname).
  split.
  - destruct Hrange as [E | (s & e & Hr & Hs & _)]; [discriminate E|].
    exists s, e. split; [exact Hr | exact Hs].
  - destruct Hname as [E | Hn]; [discriminate E | exact Hn].
Defined.

